(** * httpcachefs.smart_parquet.utils: key derivation, SQL hint extraction
      and atomic persistence

    A shallow embedding of [src/httpcachefs/smart_parquet/utils.py].

    Python values are rendered as follows.
    - [str] is a sequence of Unicode code points: [list N].
    - [bytes] is a sequence of octets: [list N], every element below 256.
    - [Optional[T]] is [option T].
    - A computation that may raise is an [outcome]: either [Return v] or
      [Raise e] for an exception value [e].
    - Code that touches the file system threads a [World] (files,
      directories, the environment's fault script and an event trace). *)

From Stdlib Require Import ZArith NArith List String Ascii DecimalString QArith Bool Lia.
From stdpp Require Import gmap.
Import ListNotations.

Local Open Scope N_scope.

(* ===================================================================== *)
(** ** Python strings, bytes and exceptions                               *)
(* ===================================================================== *)

Module Py.

Abbreviation str := (list N).
Abbreviation bytes := (list N).

(** Code points of an ASCII literal of the source text. *)
Definition lit (s : string) : str :=
  List.map N_of_ascii (list_ascii_of_string s).

(** Classes derived from [OSError] that the source names or that the file
    system primitives raise. *)
Inductive os_class :=
  | OSError | PermissionError | FileExistsError | FileNotFoundError
  | IsADirectoryError | NotADirectoryError.

Inductive exn_class :=
  | OS (c : os_class)
  | ValueError | UnicodeEncodeError | TypeError | RuntimeError
  | ParseError | TokenError | OtherException (name : str).

(** An exception value: its class and [str(e)]. *)
Record exn := Exn { exn_cls : exn_class; exn_str : str }.

Inductive outcome (A : Type) :=
  | Return (a : A)
  | Raise (e : exn).
Arguments Return {A} a.
Arguments Raise {A} e.

Definition obind {A B} (m : outcome A) (k : A -> outcome B) : outcome B :=
  match m with
  | Return a => k a
  | Raise e => Raise e
  end.

(** [isinstance(e, OSError)] *)
Definition is_oserror (e : exn) : bool :=
  match exn_cls e with OS _ => true | _ => false end.

(** [a.startswith(b)] read on the remaining text, and [needle in hay]. *)
Fixpoint starts_with (pre s : str) : bool :=
  match pre, s with
  | [], _ => true
  | _ :: _, [] => false
  | a :: pre', b :: s' => (a =? b) && starts_with pre' s'
  end.

Fixpoint contains (needle hay : str) : bool :=
  starts_with needle hay ||
  match hay with
  | [] => false
  | _ :: hay' => contains needle hay'
  end.

(** Lowercase hexadecimal digits, as [hexdigest] and [repr] print them. *)
Definition hexdigits : str := lit "0123456789abcdef".

Definition hexdigit (d : N) : N := nth (N.to_nat d) hexdigits 48.

(** [width] hexadecimal digits of [v], most significant first. *)
Fixpoint hex_fixed (width : nat) (v : N) : str :=
  match width with
  | O => []
  | S w => hexdigit (N.land (N.shiftr v (4 * N.of_nat w)) 15) :: hex_fixed w v
  end.

(** [str(n)] for a natural number. *)
Definition decimal (n : nat) : str :=
  lit (NilEmpty.string_of_uint (Nat.to_uint n)).

(** *** [str.encode()]: UTF-8, strict error handling *)

Definition is_surrogate (c : N) : bool := (0xD800 <=? c) && (c <=? 0xDFFF).

(** A code point that UTF-8 can carry: in range and not a surrogate. *)
Definition is_scalar (c : N) : bool := (c <? 0x110000) && negb (is_surrogate c).

Definition utf8_char (c : N) : option bytes :=
  if c <? 0x80 then Some [c]
  else if c <? 0x800 then
    Some [N.lor 0xC0 (N.shiftr c 6); N.lor 0x80 (N.land c 0x3F)]
  else if negb (is_scalar c) then None
  else if c <? 0x10000 then
    Some [N.lor 0xE0 (N.shiftr c 12);
          N.lor 0x80 (N.land (N.shiftr c 6) 0x3F);
          N.lor 0x80 (N.land c 0x3F)]
  else
    Some [N.lor 0xF0 (N.shiftr c 18);
          N.lor 0x80 (N.land (N.shiftr c 12) 0x3F);
          N.lor 0x80 (N.land (N.shiftr c 6) 0x3F);
          N.lor 0x80 (N.land c 0x3F)].

Definition encode_error : exn :=
  Exn UnicodeEncodeError (lit "'utf-8' codec can't encode character: surrogates not allowed").

Fixpoint encode (s : str) : outcome bytes :=
  match s with
  | [] => Return []
  | c :: s' =>
      match utf8_char c with
      | None => Raise encode_error
      | Some bs => obind (encode s') (fun rest => Return (bs ++ rest))
      end
  end.

(** *** [repr] of a [str] and [str] of an [Optional[List[str]]]

    [isprintable] is [str.isprintable] on one code point; it is only
    consulted above U+007F, where it is a table of the Unicode database. *)
Section Repr.
Variable isprintable : N -> bool.

Definition squote : N := 39.
Definition dquote : N := 34.
Definition backslash : N := 92.

Definition repr_quote (s : str) : N :=
  if existsb (N.eqb squote) s && negb (existsb (N.eqb dquote) s)
  then dquote else squote.

Definition repr_char (quote ch : N) : str :=
  if (ch =? quote) || (ch =? backslash) then [backslash; ch]
  else if ch =? 9 then lit "\t"
  else if ch =? 10 then lit "\n"
  else if ch =? 13 then lit "\r"
  else if (ch <? 32) || (ch =? 0x7F) then lit "\x" ++ hex_fixed 2 ch
  else if ch <? 0x7F then [ch]
  else if negb (isprintable ch) then
    if ch <=? 0xFF then lit "\x" ++ hex_fixed 2 ch
    else if ch <=? 0xFFFF then lit "\u" ++ hex_fixed 4 ch
    else lit "\U" ++ hex_fixed 8 ch
  else [ch].

Definition repr_str (s : str) : str :=
  let quote := repr_quote s in
  quote :: flat_map (repr_char quote) s ++ [quote].

(** [", ".join(parts)] *)
Fixpoint join_comma (parts : list str) : str :=
  match parts with
  | [] => []
  | [p] => p
  | p :: rest => p ++ lit ", " ++ join_comma rest
  end.

(** [str(columns)] for [columns : Optional[List[str]]] *)
Definition str_of_columns (columns : option (list str)) : str :=
  match columns with
  | None => lit "None"
  | Some cols => lit "[" ++ join_comma (List.map repr_str cols) ++ lit "]"
  end.
End Repr.

End Py.

(* ===================================================================== *)
(** ** [hashlib.sha256]: FIPS 180-4 on 32-bit words                       *)
(* ===================================================================== *)

Module Sha256.
Import Py.

Definition mask32 : N := 0xFFFFFFFF.
Definition add32 (x y : N) : N := (x + y) mod 2 ^ 32.
Definition rotr (n x : N) : N :=
  N.lor (N.shiftr x n) (N.land (N.shiftl x (32 - n)) mask32).
Definition not32 (x : N) : N := N.lxor x mask32.

Definition Ch (x y z : N) : N := N.lxor (N.land x y) (N.land (not32 x) z).
Definition Maj (x y z : N) : N :=
  N.lxor (N.lxor (N.land x y) (N.land x z)) (N.land y z).
Definition bsig0 (x : N) : N := N.lxor (N.lxor (rotr 2 x) (rotr 13 x)) (rotr 22 x).
Definition bsig1 (x : N) : N := N.lxor (N.lxor (rotr 6 x) (rotr 11 x)) (rotr 25 x).
Definition ssig0 (x : N) : N := N.lxor (N.lxor (rotr 7 x) (rotr 18 x)) (N.shiftr x 3).
Definition ssig1 (x : N) : N := N.lxor (N.lxor (rotr 17 x) (rotr 19 x)) (N.shiftr x 10).

(** The first 64 primes. *)
Definition is_prime (n : nat) : bool :=
  forallb (fun d => negb (Nat.eqb (Nat.modulo n d) 0)) (seq 2 (n - 2)).

Definition primes : list N :=
  List.map N.of_nat (List.filter is_prime (seq 2 310)).

(** Integer cube root below [2 ^ bits], one bit at a time from the top. *)
Fixpoint cube_root (bits : nat) (r n : N) : N :=
  match bits with
  | O => r
  | S b =>
      let r' := r + 2 ^ N.of_nat b in
      cube_root b (if r' * r' * r' <=? n then r' else r) n
  end.

(** Round constants: the first 32 bits of the fractional parts of the cube
    roots of the first 64 primes. *)
Definition K : list N :=
  Eval vm_compute in
    List.map (fun p => cube_root 36 0 (p * 2 ^ 96) mod 2 ^ 32) primes.

Record state := State { ha : N; hb : N; hc : N; hd : N; he : N; hf : N; hg : N; hh : N }.

(** Initial hash value: the first 32 bits of the fractional parts of the
    square roots of the first 8 primes. *)
Definition initial_words : list N :=
  Eval vm_compute in
    List.map (fun p => N.sqrt (p * 2 ^ 64) mod 2 ^ 32) (firstn 8 primes).

Definition H0 : state :=
  State (nth 0 initial_words 0) (nth 1 initial_words 0)
        (nth 2 initial_words 0) (nth 3 initial_words 0)
        (nth 4 initial_words 0) (nth 5 initial_words 0)
        (nth 6 initial_words 0) (nth 7 initial_words 0).

(** Padding: a 1 bit, zero bits up to 56 mod 64 bytes, then the message
    length in bits as a 64-bit big-endian integer. *)
Definition be_bytes (width : nat) (v : N) : bytes :=
  List.map (fun i => N.land (N.shiftr v (8 * N.of_nat i)) 0xFF) (rev (seq 0 width)).

Definition pad (msg : bytes) : bytes :=
  let len := N.of_nat (length msg) in
  let zeros := (64 - (len + 9) mod 64) mod 64 in
  msg ++ [0x80] ++ repeat 0 (N.to_nat zeros) ++ be_bytes 8 (8 * len).

Fixpoint words_of (bs : bytes) : list N :=
  match bs with
  | b0 :: b1 :: b2 :: b3 :: rest =>
      N.lor (N.lor (N.lor (N.shiftl b0 24) (N.shiftl b1 16)) (N.shiftl b2 8)) b3
      :: words_of rest
  | _ => []
  end.

Fixpoint chunks (count : nat) (ws : list N) : list (list N) :=
  match count with
  | O => []
  | S c => firstn 16 ws :: chunks c (skipn 16 ws)
  end.

(** Message schedule: 16 block words extended to 64. *)
Fixpoint extend (steps : nat) (w : list N) : list N :=
  match steps with
  | O => w
  | S k =>
      let t := length w in
      let wt := add32 (add32 (add32 (ssig1 (nth (t - 2) w 0)) (nth (t - 7) w 0))
                             (ssig0 (nth (t - 15) w 0)))
                      (nth (t - 16) w 0) in
      extend k (w ++ [wt])
  end.

Definition round (s : state) (kw : N * N) : state :=
  let '(k, w) := kw in
  let t1 := add32 (add32 (add32 (add32 (hh s) (bsig1 (he s))) (Ch (he s) (hf s) (hg s))) k) w in
  let t2 := add32 (bsig0 (ha s)) (Maj (ha s) (hb s) (hc s)) in
  State (add32 t1 t2) (ha s) (hb s) (hc s) (add32 (hd s) t1) (he s) (hf s) (hg s).

Definition compress (h : state) (block : list N) : state :=
  let s := fold_left round (combine K (extend 48 block)) h in
  State (add32 (ha h) (ha s)) (add32 (hb h) (hb s)) (add32 (hc h) (hc s))
        (add32 (hd h) (hd s)) (add32 (he h) (he s)) (add32 (hf h) (hf s))
        (add32 (hg h) (hg s)) (add32 (hh h) (hh s)).

Definition state_words (s : state) : list N :=
  [ha s; hb s; hc s; hd s; he s; hf s; hg s; hh s].

(** [hashlib.sha256(data).digest()]: 32 bytes. *)
Definition digest (data : bytes) : bytes :=
  let padded := pad data in
  let blocks := chunks (length padded / 64) (words_of padded) in
  flat_map (be_bytes 4) (state_words (fold_left compress blocks H0)).

(** [hashlib.sha256(data).hexdigest()]: two lowercase hex digits per byte. *)
Definition hexdigest (data : bytes) : str :=
  flat_map (hex_fixed 2) (digest data).

End Sha256.

(* ===================================================================== *)
(** ** KeyDeriver: [get_url_hash], [get_query_hash]                       *)
(* ===================================================================== *)

Module KeyDeriver.
Import Py.

(** [hashlib.sha256(url.encode()).hexdigest()] *)
Definition get_url_hash (url : str) : outcome str :=
  obind (encode url) (fun data => Return (Sha256.hexdigest data)).

(** [key = f"{key}|{str(columns)}"] then the digest of its encoding. *)
Definition get_query_hash (isprintable : N -> bool)
    (key : str) (columns : option (list str)) : outcome str :=
  let key := key ++ lit "|" ++ str_of_columns isprintable columns in
  obind (encode key) (fun data => Return (Sha256.hexdigest data)).

End KeyDeriver.

(* ===================================================================== *)
(** ** [re.search] for the pattern of [extract_sql_url]                   *)
(* ===================================================================== *)

Module Re.
Import Py.

(** One-character matchers of a compiled pattern. *)
Inductive atom :=
  | ALit (c : N)               (* a literal character *)
  | ASpace                     (* \s *)
  | ANotIn (cs : list N).      (* [^...] *)

Inductive item :=
  | One (a : atom)
  | Plus (a : atom)            (* a+ : greedy, one or more *)
  | GroupOpen                  (* opening parenthesis of group 1 *)
  | GroupClose.                (* closing parenthesis of group 1 *)

(** Simple lower-case mapping as the engine applies it under IGNORECASE.
    Only the code points mapped onto ASCII letters matter for a pattern of
    ASCII letters: A-Z, U+0130 and the Kelvin sign U+212A. *)
Definition tolower (c : N) : N :=
  if (65 <=? c) && (c <=? 90) then c + 32
  else if c =? 0x130 then 105
  else if c =? 0x212A then 107
  else c.

(** \s on [str] patterns: the code points for which [str.isspace] holds. *)
Definition is_space (c : N) : bool :=
  ((9 <=? c) && (c <=? 13)) || ((28 <=? c) && (c <=? 32)) ||
  (c =? 0x85) || (c =? 0xA0) || (c =? 0x1680) ||
  ((0x2000 <=? c) && (c <=? 0x200A)) ||
  (c =? 0x2028) || (c =? 0x2029) || (c =? 0x202F) || (c =? 0x205F) ||
  (c =? 0x3000).

Definition atom_matches (ignorecase : bool) (a : atom) (c : N) : bool :=
  match a with
  | ALit x => if ignorecase then tolower c =? tolower x else c =? x
  | ASpace => is_space c
  | ANotIn cs => negb (existsb (N.eqb c) cs)
  end.

(** Length of the longest prefix of [s] whose characters satisfy [p]. *)
Fixpoint span (p : N -> bool) (s : str) : nat :=
  match s with
  | c :: s' => if p c then S (span p s') else O
  | [] => O
  end.

(** Greedy repetition: try [k] characters, then [k-1], ..., down to one. *)
Fixpoint try_down {A} (k : nat) (cont : nat -> option A) : option A :=
  match k with
  | O => None
  | S k' =>
      match cont k with
      | Some r => Some r
      | None => try_down k' cont
      end
  end.

(** Backtracking match of [items] at the start of [s]. [mark] is the text
    that remained when group 1 was opened, [cap] the text of group 1 once
    closed. The result is [Some cap] on a match. *)
Fixpoint match_here (ignorecase : bool) (items : list item) (s : str)
    (mark cap : option str) : option (option str) :=
  match items with
  | [] => Some cap
  | One a :: rest =>
      match s with
      | c :: s' =>
          if atom_matches ignorecase a c
          then match_here ignorecase rest s' mark cap
          else None
      | [] => None
      end
  | Plus a :: rest =>
      try_down (span (atom_matches ignorecase a) s)
               (fun k => match_here ignorecase rest (skipn k s) mark cap)
  | GroupOpen :: rest => match_here ignorecase rest s (Some s) cap
  | GroupClose :: rest =>
      match_here ignorecase rest s mark
        (match mark with
         | Some m => Some (firstn (length m - length s) m)
         | None => cap
         end)
  end.

(** [re.search]: the match at the leftmost start position that has one.
    The result is [match.group(1)] of that match. *)
Fixpoint search (ignorecase : bool) (items : list item) (s : str)
    : option (option str) :=
  match match_here ignorecase items s None None with
  | Some m => Some m
  | None =>
      match s with
      | [] => None
      | _ :: s' => search ignorecase items s'
      end
  end.

End Re.

(* ===================================================================== *)
(** ** sqlglot expression trees                                           *)
(* ===================================================================== *)

Module Sqlglot.
Import Py.

(** The classes of [sqlglot.exp] that the source tests for or that occur
    in the trees used below; every other class is [Other]. *)
Inductive exp_class :=
  | Select | From | Table | Where | And | Or | Not | Paren
  | EQ | In | Column | Pseudocolumn | Identifier | Literal | Star | Null | Var
  | Anonymous | Lower | Subquery
  | Other (key : str).

Definition exp_class_eqb (a b : exp_class) : bool :=
  match a, b with
  | Select, Select | From, From | Table, Table | Where, Where | And, And
  | Or, Or | Not, Not | Paren, Paren | EQ, EQ | In, In | Column, Column
  | Pseudocolumn, Pseudocolumn | Identifier, Identifier | Literal, Literal
  | Star, Star | Null, Null | Var, Var | Anonymous, Anonymous | Lower, Lower
  | Subquery, Subquery => true
  | Other x, Other y => bool_decide (x = y)
  | _, _ => false
  end.

(** [issubclass a b]: [Pseudocolumn] derives from [Column]; the other
    classes listed are unrelated to the four the source tests for. *)
Definition issubclass (a b : exp_class) : bool :=
  exp_class_eqb a b ||
  match a, b with
  | Pseudocolumn, Column => true
  | _, _ => false
  end.

(** A value of [Expression.args]: text, a child, a list of children or
    some other primitive (a flag, a number, [None]). *)
Inductive arg (E : Type) :=
  | AText (s : str)
  | AExp (e : E)
  | AList (es : list E)
  | APrim.
Arguments AText {E} s.
Arguments AExp {E} e.
Arguments AList {E} es.
Arguments APrim {E}.

#[warnings="-register-all"]
Inductive Expression :=
  | Expr (cls : exp_class) (args : list (str * arg Expression)).

Definition cls_of (e : Expression) : exp_class :=
  match e with Expr c _ => c end.

Definition args_of (e : Expression) : list (str * arg Expression) :=
  match e with Expr _ a => a end.

(** [isinstance(e, c)] *)
Definition isinstance (e : Expression) (c : exp_class) : bool :=
  issubclass (cls_of e) c.

(** [e.args.get(key)] *)
Fixpoint args_get (key : str) (args : list (str * arg Expression))
    : option (arg Expression) :=
  match args with
  | [] => None
  | (k, v) :: rest => if bool_decide (k = key) then Some v else args_get key rest
  end.

(** [e.this], also reached as [Binary.left]: the child under "this". *)
Definition this (e : Expression) : option Expression :=
  match args_get (lit "this") (args_of e) with
  | Some (AExp x) => Some x
  | _ => None
  end.

Definition left (e : Expression) : option Expression := this e.

(** [e.text("this")], which is [e.name]. *)
Definition name (e : Expression) : str :=
  match args_get (lit "this") (args_of e) with
  | Some (AText s) => s
  | Some (AExp f) =>
      if isinstance f Identifier || isinstance f Literal || isinstance f Var
      then match args_get (lit "this") (args_of f) with
           | Some (AText s) => s
           | _ => []
           end
      else if isinstance f Star then lit "*"
      else if isinstance f Null then lit "NULL"
      else []
  | _ => []
  end.

(** [e.iter_expressions()]: the children, in the order of [args]. *)
Definition arg_children (v : arg Expression) : list Expression :=
  match v with
  | AExp x => [x]
  | AList xs => xs
  | _ => []
  end.

Definition iter_expressions (e : Expression) : list Expression :=
  flat_map (fun kv => arg_children (snd kv)) (args_of e).

(** Number of nodes of a tree: the bound on the steps of a traversal. *)
Fixpoint size (e : Expression) : nat :=
  match e with
  | Expr _ args =>
      S ((fix over_args (l : list (str * arg Expression)) : nat :=
            match l with
            | [] => O
            | (_, v) :: rest =>
                (match v with
                 | AExp x => size x
                 | AList xs =>
                     (fix over_list (l' : list Expression) : nat :=
                        match l' with
                        | [] => O
                        | x :: r => size x + over_list r
                        end) xs
                 | _ => O
                 end + over_args rest)%nat
            end) args)
  end.

Definition total_size (q : list Expression) : nat :=
  fold_right (fun e n => (size e + n)%nat) O q.

(** [e.bfs()]: pop the head of the queue, yield it, append its children.
    [None] when [fuel] steps do not empty the queue. *)
Fixpoint bfs_loop (fuel : nat) (queue : list Expression)
    : option (list Expression) :=
  match queue with
  | [] => Some []
  | node :: rest =>
      match fuel with
      | O => None
      | S fuel' =>
          match bfs_loop fuel' (rest ++ iter_expressions node) with
          | Some l => Some (node :: l)
          | None => None
          end
      end
  end.

(** [e.walk(bfs=True)] *)
Definition walk (e : Expression) : list Expression :=
  match bfs_loop (size e) [e] with
  | Some l => l
  | None => []
  end.

(** [e.find_all(types)]: the nodes of the walk that are instances of one
    of [types], in walk order. *)
Definition find_all (e : Expression) (types : list exp_class) : list Expression :=
  List.filter (fun n => existsb (isinstance n) types) (walk e).

(** [e.find(types)]: the first node of [find_all], or [None]. *)
Definition find (e : Expression) (types : list exp_class) : option Expression :=
  head (find_all e types).

End Sqlglot.

(* ===================================================================== *)
(** ** QueryHintExtractor: [extract_partition_column], [extract_sql_url]  *)
(* ===================================================================== *)

Module Hints.
Import Py Sqlglot.

(** [try: body  except Exception: handler]. Every class of [exn_class]
    derives from [Exception]. *)
Definition try_except {A} (body : outcome A) (handler : exn -> outcome A)
    : outcome A :=
  match body with
  | Return a => Return a
  | Raise e => handler e
  end.

(** The [for condition in ...] loop with its early [return column.name]. *)
Fixpoint scan_conditions (conditions : list Expression) : option str :=
  match conditions with
  | [] => None
  | condition :: rest =>
      let column :=
        if isinstance condition EQ then
          match left condition with
          | Some l => if isinstance l Column then Some l else None
          | None => None
          end
        else if isinstance condition In then
          match this condition with
          | Some t => if isinstance t Column then Some t else None
          | None => None
          end
        else None in
      match column with
      | Some c => Some (name c)
      | None => scan_conditions rest
      end
  end.

(** [sqlglot.parse_one] is the library's parser, taken as a parameter: it
    returns the tree of the statement or raises. *)
Definition extract_partition_column
    (parse_one : str -> outcome Expression) (sql : str) : outcome (option str) :=
  try_except
    (obind (parse_one sql) (fun parsed =>
       match find parsed [Where] with
       | None => Return None
       | Some where_ => Return (scan_conditions (find_all where_ [EQ; In]))
       end))
    (fun _ => Return None).

(** The compiled form of [r"FROM\s+'([^']+)'"]. *)
Definition url_pattern : list Re.item :=
  [Re.One (Re.ALit 70); Re.One (Re.ALit 82); Re.One (Re.ALit 79);
   Re.One (Re.ALit 77); Re.Plus Re.ASpace; Re.One (Re.ALit 39);
   Re.GroupOpen; Re.Plus (Re.ANotIn [39]); Re.GroupClose;
   Re.One (Re.ALit 39)].

(** [re.search(pattern, sql, re.IGNORECASE | re.DOTALL)], then
    [match.group(1)]; the pattern has no dot, so DOTALL changes nothing. *)
Definition extract_sql_url (sql : str) : outcome (option str) :=
  match Re.search true url_pattern sql with
  | Some group1 => Return group1
  | None => Return None
  end.

End Hints.

(* ===================================================================== *)
(** ** pathlib: pure paths (POSIX flavour)                                *)
(* ===================================================================== *)

Module Pathlib.
Import Py.

(** A path is its tuple of parts; an absolute path starts with the part
    "/". [suffix] and [with_suffix] follow CPython's pathlib up to 3.13;
    later versions differ only on names that end in a dot. *)
Abbreviation Path := (list (list N)).

Definition is_anchor (part : str) : bool := bool_decide (part = lit "/").

(** [p.name]: the last part, empty when there is none but the anchor. *)
Definition name (p : Path) : str :=
  match p with
  | [] => []
  | [a] => if is_anchor a then [] else a
  | _ => List.last p []
  end.

(** [s.rfind(c)]: the highest index of [c] in [s], or -1. *)
Fixpoint rfind_from (c : N) (s : str) (i acc : Z) : Z :=
  match s with
  | [] => acc
  | x :: s' => rfind_from c s' (i + 1)%Z (if x =? c then i else acc)
  end.

Definition rfind (c : N) (s : str) : Z := rfind_from c s 0%Z (-1)%Z.

Definition dot : N := 46.

(** [PurePath.suffix] of a name. *)
Definition suffix_of_name (nm : str) : str :=
  let i := rfind dot nm in
  if ((0 <? i) && (i <? Z.of_nat (length nm) - 1))%Z
  then skipn (Z.to_nat i) nm
  else [].

Definition suffix (p : Path) : str := suffix_of_name (name p).

(** [p.stem]: the name without its suffix. *)
Definition stem (p : Path) : str :=
  let nm := name p in
  firstn (length nm - length (suffix p)) nm.

(** [p.parent] *)
Definition parent (p : Path) : Path :=
  match p with
  | [] => []
  | [a] => if is_anchor a then p else []
  | _ => removelast p
  end.

(** [str(p)] *)
Fixpoint path_str (p : Path) : str :=
  match p with
  | [] => lit "."
  | [a] => a
  | a :: rest => if is_anchor a then a ++ path_str rest
                 else a ++ lit "/" ++ path_str rest
  end.

(** [p.with_suffix(suffix)]. The texts of its errors carry a [repr]: of
    the suffix, and of the path, [PosixPath('...')]. They are written
    here for a text that [repr] puts in single quotes unchanged, as it
    does for the text of a path without a name, which is "." or the
    anchor. *)
Definition with_suffix (p : Path) (sfx : str) : outcome Path :=
  if contains (lit "/") sfx then
    Raise (Exn ValueError (lit "Invalid suffix '" ++ sfx ++ lit "'"))
  else if (negb (bool_decide (sfx = [])) && negb (starts_with (lit ".") sfx))
          || bool_decide (sfx = lit ".") then
    Raise (Exn ValueError (lit "Invalid suffix '" ++ sfx ++ lit "'"))
  else
    let nm := name p in
    if bool_decide (nm = []) then
      Raise (Exn ValueError
               (lit "PosixPath('" ++ path_str p ++ lit "') has an empty name"))
    else
      let old_suffix := suffix p in
      let nm' :=
        if bool_decide (old_suffix = []) then nm ++ sfx
        else firstn (length nm - length old_suffix) nm ++ sfx in
      Return (removelast p ++ [nm']).

End Pathlib.

(* ===================================================================== *)
(** ** The file system as the code sees it                                *)
(* ===================================================================== *)

Module Fs.
Import Py Pathlib.

(** What the environment does to the next system call: let it through,
    fail it with an [OSError], or (for a write) fail it after [n] bytes
    reached the file. *)
Inductive fault :=
  | NoFault
  | Fail (c : os_class) (msg : str)
  | FailAfter (n : nat) (c : os_class) (msg : str).

Inductive event :=
  | EvMkdir (p : Path)
  | EvExists (p : Path)
  | EvUnlink (p : Path)
  | EvOpen (p : Path) (mode : str)
  | EvWrite (p : Path)
  | EvReplace (src dst : Path)
  | EvSleep (seconds : Q)
  | EvLog (level : str)
  | EvCaught (e : exn).        (* an except clause bound [e] *)

Record World := mkWorld {
  files : gmap Path bytes;               (* regular files and their contents *)
  dirs : gset Path;                      (* directories *)
  faults : list fault;                   (* the environment's script *)
  trace : list event;                    (* what the code did, oldest first *)
  snapshots : list (gmap Path bytes)     (* [files] after each change *)
}.

(** A computation on the world that may raise. *)
Definition M (A : Type) : Type := World -> World * outcome A.

Definition ret {A} (a : A) : M A := fun w => (w, Return a).
Definition raise {A} (e : exn) : M A := fun w => (w, Raise e).
Definition bind {A B} (m : M A) (k : A -> M B) : M B :=
  fun w =>
    match m w with
    | (w', Return a) => k a w'
    | (w', Raise e) => (w', Raise e)
    end.

(** Run [m] and hand its outcome to the surrounding [try]. *)
Definition attempt {A} (m : M A) : M (outcome A) :=
  fun w => let (w', r) := m w in (w', Return r).

Declare Scope fs_scope.
Delimit Scope fs_scope with fs.
Notation "x <~ m ;; k" := (bind m (fun x => k))
  (at level 100, m at next level, right associativity) : fs_scope.
Notation "m ;;; k" := (bind m (fun _ => k))
  (at level 100, right associativity) : fs_scope.
Local Open Scope fs_scope.

Definition emit (ev : event) : M unit :=
  fun w => (mkWorld (files w) (dirs w) (faults w) (trace w ++ [ev]) (snapshots w),
            Return tt).

Definition next_fault : M fault :=
  fun w =>
    match faults w with
    | [] => (w, Return NoFault)
    | f :: rest =>
        (mkWorld (files w) (dirs w) rest (trace w) (snapshots w), Return f)
    end.

Definition get_files : M (gmap Path bytes) := fun w => (w, Return (files w)).
Definition get_dirs : M (gset Path) := fun w => (w, Return (dirs w)).

Definition set_files (f : gmap Path bytes) : M unit :=
  fun w => (mkWorld f (dirs w) (faults w) (trace w) (snapshots w ++ [f]),
            Return tt).

Definition set_dirs (d : gset Path) : M unit :=
  fun w => (mkWorld (files w) d (faults w) (trace w) (snapshots w), Return tt).

Definition os_error (c : os_class) (msg : string) : exn := Exn (OS c) (lit msg).

(** *** File names

    Every call that takes a file name converts it first, with
    [os.fsencode]: UTF-8 where a surrogate U+DC80..U+DCFF stands for one
    undecodable byte (surrogateescape) and any other surrogate cannot be
    encoded; the encoded name must not hold a NUL. A name that fails
    either test never reaches the system: the call raises a
    [UnicodeEncodeError] or a [ValueError], neither of them an
    [OSError]. *)

Definition fs_escapable (c : N) : bool := (0xDC80 <=? c) && (c <=? 0xDCFF).

Definition fs_encodable (c : N) : bool := negb (is_surrogate c) || fs_escapable c.

(** The length of the run of surrogates at the head of [s]. *)
Fixpoint surrogate_run (s : str) : nat :=
  match s with
  | c :: s' => if is_surrogate c then S (surrogate_run s') else O
  | [] => O
  end.

(** The error of encoding [s], whose first [i] code points were encoded:
    it names the first code point that cannot be encoded, or, when more
    surrogates follow it, the positions of that run. *)
Fixpoint fsencode_error (i : nat) (s : str) : option exn :=
  match s with
  | [] => None
  | c :: s' =>
      if fs_encodable c then fsencode_error (S i) s'
      else
        let n := surrogate_run s in
        Some (Exn UnicodeEncodeError
                (if (n <=? 1)%nat
                 then lit "'utf-8' codec can't encode character '\u" ++
                      hex_fixed 4 c ++ lit "' in position " ++ decimal i ++
                      lit ": surrogates not allowed"
                 else lit "'utf-8' codec can't encode characters in position " ++
                      decimal i ++ lit "-" ++ decimal (i + n - 1) ++
                      lit ": surrogates not allowed"))
  end.

(** The error with which a call refuses the name of [p], if it does. *)
Definition refused (p : Path) : option exn :=
  match fsencode_error 0 (path_str p) with
  | Some e => Some e
  | None =>
      if existsb (N.eqb 0) (path_str p)
      then Some (Exn ValueError (lit "embedded null byte"))
      else None
  end.

(** [Path.exists()] takes these errors of [stat] for the answer "no":
    ENOENT and ENOTDIR (and EBADF, ELOOP, which have no class of their
    own). *)
Definition ignored_by_exists (c : os_class) : bool :=
  match c with
  | FileNotFoundError | NotADirectoryError => true
  | _ => false
  end.

(** The non-empty prefixes of a path: the directories [mkdir(parents=True)]
    walks through, the path itself last. *)
Definition prefixes (p : Path) : list Path :=
  List.map (fun k => firstn k p) (seq 1 (length p)).

(** [p.mkdir(parents=True, exist_ok=True)]. Where a regular file is in
    the way the call fails: with [NotADirectoryError] when the file is an
    ancestor of [p], with [FileExistsError] when it is [p] itself. *)
Definition mkdir_parents (p : Path) : M unit :=
  emit (EvMkdir p) ;;;
  match refused p with
  | Some e => raise e
  | None =>
      f <~ next_fault ;;
      match f with
      | Fail c msg | FailAfter _ c msg => raise (Exn (OS c) msg)
      | NoFault =>
          fs <~ get_files ;;
          if existsb (fun q => bool_decide (is_Some (fs !! q))) (prefixes p)
          then raise (if existsb (fun q => bool_decide (is_Some (fs !! q)))
                                 (prefixes (removelast p))
                      then os_error NotADirectoryError "[Errno 20] Not a directory"
                      else os_error FileExistsError "[Errno 17] File exists")
          else ds <~ get_dirs ;; set_dirs (ds ∪ list_to_set (prefixes p))
      end
  end.

(** [p.exists()]: a [stat] of the file. A name that cannot be converted
    makes it answer "no" ([except ValueError: return False]), and so does
    an error of [stat] that it ignores; any other [OSError] of [stat] is
    raised. *)
Definition path_exists (p : Path) : M bool :=
  emit (EvExists p) ;;;
  match refused p with
  | Some _ => ret false
  | None =>
      f <~ next_fault ;;
      match f with
      | Fail c msg | FailAfter _ c msg =>
          if ignored_by_exists c then ret false else raise (Exn (OS c) msg)
      | NoFault =>
          fs <~ get_files ;;
          ds <~ get_dirs ;;
          ret (bool_decide (is_Some (fs !! p)) || bool_decide (p ∈ ds))
      end
  end.

(** [p.unlink()] *)
Definition unlink (p : Path) : M unit :=
  emit (EvUnlink p) ;;;
  match refused p with
  | Some e => raise e
  | None =>
      f <~ next_fault ;;
      match f with
      | Fail c msg | FailAfter _ c msg => raise (Exn (OS c) msg)
      | NoFault =>
          fs <~ get_files ;;
          ds <~ get_dirs ;;
          match fs !! p with
          | Some _ => set_files (delete p fs)
          | None =>
              if bool_decide (p ∈ ds)
              then raise (os_error IsADirectoryError "[Errno 21] Is a directory")
              else raise (os_error FileNotFoundError
                                   "[Errno 2] No such file or directory")
          end
      end
  end.

(** [open(p, mode)] for mode "w" or "wb": create or truncate. *)
Definition open_write (p : Path) (mode : str) : M unit :=
  emit (EvOpen p mode) ;;;
  match refused p with
  | Some e => raise e
  | None =>
      f <~ next_fault ;;
      match f with
      | Fail c msg | FailAfter _ c msg => raise (Exn (OS c) msg)
      | NoFault =>
          fs <~ get_files ;;
          ds <~ get_dirs ;;
          if bool_decide (p ∈ ds)
          then raise (os_error IsADirectoryError "[Errno 21] Is a directory")
          else set_files (<[p := []]> fs)
      end
  end.

(** [f.write(data)] followed by the close at the end of the [with] block:
    all of [data] reaches the file, or the call raises with none or a
    prefix of it there. *)
Definition write_close (p : Path) (data : bytes) : M unit :=
  emit (EvWrite p) ;;;
  f <~ next_fault ;;
  fs <~ get_files ;;
  match f with
  | NoFault => set_files (<[p := data]> fs)
  | Fail c msg => raise (Exn (OS c) msg)
  | FailAfter n c msg =>
      set_files (<[p := firstn n data]> fs) ;;; raise (Exn (OS c) msg)
  end.

(** [src.replace(dst)]: the rename either happens as a whole or not at
    all. Both names are converted, [src] first. *)
Definition replace (src dst : Path) : M unit :=
  emit (EvReplace src dst) ;;;
  match refused src, refused dst with
  | Some e, _ | None, Some e => raise e
  | None, None =>
      f <~ next_fault ;;
      match f with
      | Fail c msg | FailAfter _ c msg => raise (Exn (OS c) msg)
      | NoFault =>
          fs <~ get_files ;;
          ds <~ get_dirs ;;
          match fs !! src with
          | None => raise (os_error FileNotFoundError
                                    "[Errno 2] No such file or directory")
          | Some data =>
              if bool_decide (dst ∈ ds)
              then raise (os_error IsADirectoryError "[Errno 21] Is a directory")
              else set_files (<[dst := data]> (delete src fs))
          end
      end
  end.

(** [time.sleep(seconds)] and the logger calls. *)
Definition sleep (seconds : Q) : M unit := emit (EvSleep seconds).
Definition log (level : string) : M unit := emit (EvLog (lit level)).

End Fs.

(* ===================================================================== *)
(** ** AtomicPersister: [atomic_write]                                    *)
(* ===================================================================== *)

Module Persist.
Import Py Pathlib Fs.
Local Open Scope fs_scope.

(** [content: Union[str, bytes]] *)
Inductive payload :=
  | PStr (s : str)
  | PBytes (b : bytes).

(** [mode = "wb" if isinstance(content, bytes) else "w"] *)
Definition mode_of (content : payload) : str :=
  match content with
  | PBytes _ => lit "wb"
  | PStr _ => lit "w"
  end.

(** [with open(temp_path, mode) as f: f.write(content)]. In text mode the
    text is encoded (UTF-8 locale) before it reaches the file. *)
Definition write_file (p : Path) (mode : str) (content : payload) : M unit :=
  open_write p mode ;;;
  match content with
  | PBytes b => write_close p b
  | PStr s =>
      match encode s with
      | Return b => write_close p b
      | Raise e => raise e
      end
  end.

(** [try: temp_path.unlink()  except OSError: pass] *)
Definition unlink_quietly (p : Path) : M unit :=
  r <~ attempt (unlink p) ;;
  match r with
  | Return _ => ret tt
  | Raise e => if is_oserror e then ret tt else raise e
  end.

(** The body of the [try] inside the loop. *)
Definition write_attempt (path temp_path : Path) (mode : str)
    (content : payload) : M unit :=
  mkdir_parents (parent path) ;;;
  stale <~ path_exists temp_path ;;
  (if stale then unlink_quietly temp_path else ret tt) ;;;
  write_file temp_path mode content ;;;
  replace temp_path path.

Definition is_lock_error (e : exn) : bool :=
  is_oserror e &&
  (contains (lit "being used by another process") (exn_str e) ||
   contains (lit "Permission denied") (exn_str e)).

(** [wait_time = (2 ** attempt) * 0.01], in seconds; the float is taken as
    the exact rational it stands for. *)
Definition wait_time (attempt : Z) : Q := inject_Z (2 ^ attempt) * (1 # 100).

(** How control leaves the [for] loop: by [return], or by falling out of
    it (range exhausted or [break]) with the current [last_error]. *)
Inductive loop_exit :=
  | Returned
  | FellThrough (last_error : option exn).

(** [for attempt in range(max_retries)], [remaining] iterations to go. *)
Fixpoint attempt_loop (path temp_path : Path) (mode : str) (content : payload)
    (max_retries : Z) (remaining : nat) (attempt_no : Z)
    (last_error : option exn) : M loop_exit :=
  match remaining with
  | O => ret (FellThrough last_error)
  | S remaining' =>
      r <~ attempt (write_attempt path temp_path mode content) ;;
      match r with
      | Return _ => ret Returned
      | Raise e =>
          emit (EvCaught e) ;;;
          if is_oserror e then
            if is_lock_error e && (attempt_no <? max_retries - 1)%Z then
              log "debug" ;;;
              sleep (wait_time attempt_no) ;;;
              attempt_loop path temp_path mode content max_retries
                           remaining' (attempt_no + 1)%Z (Some e)
            else ret (FellThrough (Some e))
          else ret (FellThrough (Some e))
      end
  end.

(** [temp_path = path.with_suffix(".tmp")] *)
Definition temp_path_of (path : Path) : outcome Path :=
  with_suffix path (lit ".tmp").

(** [last_error if last_error else RuntimeError(f"Failed to write {path}")] *)
Definition error_to_raise (path : Path) (last_error : option exn) : exn :=
  match last_error with
  | Some e => e
  | None => Exn RuntimeError (lit "Failed to write " ++ path_str path)
  end.

(** The statements after the loop: log, best-effort removal of the staging
    file, then the [raise]. *)
Definition fail_after_loop (path temp_path : Path) (last_error : option exn)
    : M unit :=
  log "error" ;;;
  leftover <~ path_exists temp_path ;;
  (if leftover then unlink_quietly temp_path else ret tt) ;;;
  raise (error_to_raise path last_error).

Definition atomic_write (path : Path) (content : payload) (max_retries : Z)
    : M unit :=
  match temp_path_of path with
  | Raise e => raise e
  | Return temp_path =>
      let mode := mode_of content in
      ex <~ attempt_loop path temp_path mode content max_retries
                         (Z.to_nat max_retries) 0%Z None ;;
      match ex with
      | Returned => ret tt
      | FellThrough last_error => fail_after_loop path temp_path last_error
      end
  end.

(** A world that has just been handed to the code: nothing traced yet. *)
Definition boot (fs : gmap Path bytes) (ds : gset Path) (script : list fault)
    : World :=
  mkWorld fs ds script [] [].

(** *** Reading a trace *)

Definition sleeps (t : list event) : list Q :=
  flat_map (fun ev => match ev with EvSleep q => [q] | _ => [] end) t.

Definition caught (t : list event) : list exn :=
  flat_map (fun ev => match ev with EvCaught e => [e] | _ => [] end) t.

(** Every attempt starts with the one [mkdir] call of the function. *)
Definition attempts (t : list event) : nat :=
  length (List.filter (fun ev => match ev with EvMkdir _ => true | _ => false end) t).

Definition total (qs : list Q) : Q := fold_right Qplus 0%Q qs.

End Persist.

(* ===================================================================== *)
(** ** Vocabulary of the specification                                    *)
(* ===================================================================== *)

Module Spec.
Import Py Sqlglot Pathlib Fs Persist.

(** *** Cache keys *)

(** A lowercase hexadecimal digit: 0-9 or a-f. *)
Definition is_lower_hex (c : N) : bool :=
  ((48 <=? c) && (c <=? 57)) || ((97 <=? c) && (c <=? 102)).

(** The shape of a cache key: 64 lowercase hexadecimal digits. *)
Definition is_cache_key (d : str) : Prop :=
  length d = 64%nat /\ Forall (fun c => is_lower_hex c = true) d.

(** What a key derivation may do on the text [input] it digests: produce
    a cache key, or fail because [input] holds a code point that is not a
    Unicode scalar value. *)
Definition key_or_bad_text (input : str) (r : outcome str) : Prop :=
  match r with
  | Return d => is_cache_key d
  | Raise _ => Exists (fun c => is_scalar c = false) input
  end.

(** *** The FROM pattern *)

(** The four letters F, R, O, M in either case. *)
Definition keyword_from (kw : str) : Prop :=
  exists a b c d, kw = [a; b; c; d] /\
    (a = 70 \/ a = 102) /\ (b = 82 \/ b = 114) /\
    (c = 79 \/ c = 111) /\ (d = 77 \/ d = 109).

(** After the prefix [pre], [s] reads: FROM, one or more whitespace
    characters, a single quote, the text [body] free of single quotes, a
    single quote. *)
Definition from_literal (s pre body : str) : Prop :=
  exists kw ws post,
    s = pre ++ kw ++ ws ++ [39] ++ body ++ [39] ++ post /\
    keyword_from kw /\
    ws <> [] /\ Forall (fun c => Re.is_space c = true) ws /\
    Forall (fun c => c <> 39) body.

(** A character of an identifier: a letter, a digit or an underscore. *)
Definition is_word_char (c : N) : bool :=
  ((48 <=? c) && (c <=? 57)) || ((65 <=? c) && (c <=? 90)) ||
  ((97 <=? c) && (c <=? 122)) || (c =? 95).

(** *** Predicates of a WHERE clause *)

(** [n] is an equality or membership predicate whose subject is the column
    reference [c]. *)
Definition column_predicate (n c : Expression) : Prop :=
  (isinstance n EQ = true \/ isinstance n In = true) /\
  this n = Some c /\ isinstance c Column = true.

(** [m] is no such predicate, whatever the column. *)
Definition no_column_predicate (m : Expression) : Prop :=
  forall c, ~ column_predicate m c.

(** [d] is [e] or one of the nodes below it. *)
Inductive subexp : Expression -> Expression -> Prop :=
  | subexp_refl e : subexp e e
  | subexp_child d c e :
      List.In c (iter_expressions e) -> subexp d c -> subexp d e.

(** The tree sqlglot builds for
    [SELECT * FROM t WHERE t.id = 1 AND status = 2]. *)
Definition ident (s : string) : Expression :=
  Expr Identifier [(lit "this", AText (lit s)); (lit "quoted", APrim)].

Definition number (s : string) : Expression :=
  Expr Literal [(lit "this", AText (lit s)); (lit "is_string", APrim)].

Definition example_sql : str :=
  lit "SELECT * FROM t WHERE t.id = 1 AND status = 2".

Definition example_where : Expression :=
  Expr Where [(lit "this", AExp
    (Expr And
       [(lit "this", AExp
           (Expr EQ
              [(lit "this", AExp
                  (Expr Column [(lit "this", AExp (ident "id"));
                                (lit "table", AExp (ident "t"))]));
               (lit "expression", AExp (number "1"))]));
        (lit "expression", AExp
           (Expr EQ
              [(lit "this", AExp
                  (Expr Column [(lit "this", AExp (ident "status"))]));
               (lit "expression", AExp (number "2"))]))]))].

Definition example_tree : Expression :=
  Expr Select
    [(lit "expressions", AList [Expr Star []]);
     (lit "from", AExp
        (Expr From [(lit "this", AExp
           (Expr Table [(lit "this", AExp (ident "t"))]))]));
     (lit "where", AExp example_where)].

Definition column (s : string) : Expression :=
  Expr Column [(lit "this", AExp (ident s))].

Definition text (s : string) : Expression :=
  Expr Literal [(lit "this", AText (lit s)); (lit "is_string", APrim)].

Definition equals (l r : Expression) : Expression :=
  Expr EQ [(lit "this", AExp l); (lit "expression", AExp r)].

Definition select_where (cond : Expression) : Expression :=
  Expr Select
    [(lit "expressions", AList [Expr Star []]);
     (lit "from", AExp
        (Expr From [(lit "this", AExp
           (Expr Table [(lit "this", AExp (ident "t"))]))]));
     (lit "where", AExp (Expr Where [(lit "this", AExp cond)]))].

(** [WHERE LOWER(name) = 'x'] *)
Definition cond_lower : Expression :=
  equals (Expr Lower [(lit "this", AExp (column "name"))]) (text "x").

(** [WHERE id IN (1, 2, 3)] *)
Definition cond_in : Expression :=
  Expr In [(lit "this", AExp (column "id"));
           (lit "expressions", AList [number "1"; number "2"; number "3"])].

(** [WHERE (LOWER(a) = 'x' AND b = 1) OR c = 2] *)
Definition cond_nested : Expression :=
  Expr Or
    [(lit "this", AExp
        (Expr Paren [(lit "this", AExp
           (Expr And
              [(lit "this", AExp
                  (equals (Expr Lower [(lit "this", AExp (column "a"))]) (text "x")));
               (lit "expression", AExp (equals (column "b") (number "1")))]))]));
     (lit "expression", AExp (equals (column "c") (number "2")))].

(** What sqlglot makes of [SELEC * FRM]: a product of two columns. *)
Definition malformed_tree : Expression :=
  Expr (Other (lit "mul"))
    [(lit "this", AExp (column "SELEC")); (lit "expression", AExp (column "FRM"))].

(** *** Reading the trace of a persist call *)

(** The events that delimit attempts: the [mkdir] that opens one, the
    error its handler binds, the backoff sleep. *)
Definition marks (t : list event) : list event :=
  List.filter (fun ev => match ev with
                         | EvMkdir _ | EvCaught _ | EvSleep _ => true
                         | _ => false
                         end) t.

(** The shape of the marks of the retry loop, run for [remaining] more
    iterations from attempt number [a] with [last] in [last_error]. *)
Inductive loop_marks (max_retries : Z) (dir : Path)
    : nat -> Z -> option exn -> list event -> loop_exit -> Prop :=
  | lm_exhausted a last :
      loop_marks max_retries dir O a last [] (FellThrough last)
  | lm_success k a last :
      loop_marks max_retries dir (S k) a last [EvMkdir dir] Returned
  | lm_break k a last e :
      is_lock_error e && (a <? max_retries - 1)%Z = false ->
      loop_marks max_retries dir (S k) a last
                 [EvMkdir dir; EvCaught e] (FellThrough (Some e))
  | lm_retry k a last e evs ex :
      is_lock_error e = true -> (a < max_retries - 1)%Z ->
      loop_marks max_retries dir k (a + 1)%Z (Some e) evs ex ->
      loop_marks max_retries dir (S k) a last
                 (EvMkdir dir :: EvCaught e :: EvSleep (wait_time a) :: evs) ex.

(** [w] after the code appended [evs] to the trace. *)
Definition traced (w : World) (evs : list event) : World :=
  mkWorld (files w) (dirs w) (faults w) (trace w ++ evs) (snapshots w).

(** Whatever [m] does, the marks it leaves are [ms]. *)
Definition marked {A} (m : M A) (ms : list event) : Prop :=
  forall w w' r, m w = (w', r) ->
    exists evs, trace w' = trace w ++ evs /\ marks evs = ms.

(** Whatever [m] does, it first does [ev], and leaves no mark after it. *)
Definition opens_with {A} (m : M A) (ev : event) : Prop :=
  forall w w' r, m w = (w', r) ->
    exists evs, trace w' = trace w ++ ev :: evs /\ marks evs = [].

(** Between [w] and [w'] the file at [target] was never seen with other
    contents than it has in [w]. *)
Definition unchanged_at (target : Path) (w w' : World) : Prop :=
  files w' !! target = files w !! target /\
  exists snaps, snapshots w' = snapshots w ++ snaps /\
    Forall (fun f : gmap Path bytes => f !! target = files w !! target) snaps.

(** Between [w] and [w'] the file at [target] went from what it held in
    [w] to the whole of [content], and was never seen with anything else. *)
Definition committed_at (target : Path) (content : payload) (w w' : World)
    : Prop :=
  exists data,
    match content with PBytes b => Return b | PStr s => encode s end = Return data /\
    files w' !! target = Some data /\
    exists snaps, snapshots w' = snapshots w ++ snaps /\
      Forall (fun f : gmap Path bytes =>
                f !! target = files w !! target \/ f !! target = Some data) snaps.

(** Whatever [m] does, it leaves the file at [target] alone. *)
Definition keeps {A} (target : Path) (m : M A) : Prop :=
  forall w w' r, m w = (w', r) -> unchanged_at target w w'.

(** *** Scenarios *)

Definition cache_file (name : string) : Path := [lit "cache"; lit name].

(** Another process holds the file (Windows sharing violation). *)
Definition sharing_violation : fault :=
  Fail PermissionError
    (lit "[WinError 32] The process cannot access the file because it is being used by another process").

(** EACCES, as [mkdir] reports it on a read-only parent. *)
Definition permission_denied : fault :=
  Fail PermissionError (lit "[Errno 13] Permission denied: 'cache'").

(** ENOSPC after [n] bytes were written. *)
Definition disk_full_after (n : nat) : fault :=
  FailAfter n OSError (lit "[Errno 28] No space left on device").

(** A directory name of 300 letters, more than a file system takes in one
    name (255 bytes on Linux): every call on a path through it fails with
    ENAMETOOLONG, which [name_too_long] scripts. *)
Definition long_name : str := repeat 97 300%nat.

Definition name_too_long (p : Path) : fault :=
  Fail OSError (lit "[Errno 36] File name too long: '" ++ path_str p ++ lit "'").

(** A target that stays locked: the rename fails in each of three
    attempts, every other call goes through (mkdir, exists, open, write
    in the first attempt; mkdir, exists, unlink of the stale staging
    file, open, write in the next two). *)
Definition locked_target_script : list fault :=
  [NoFault; NoFault; NoFault; NoFault; sharing_violation;
   NoFault; NoFault; NoFault; NoFault; NoFault; sharing_violation;
   NoFault; NoFault; NoFault; NoFault; NoFault; sharing_violation].

End Spec.

(* ===================================================================== *)
(** ** Further vocabulary: environments, schedules, valid text           *)
(* ===================================================================== *)

Module Env.
Import Py Sqlglot Pathlib Fs Persist.

(** Text that UTF-8 can encode: every code point is a scalar value. *)
Definition valid_text (s : str) : Prop :=
  Forall (fun c => is_scalar c = true) s.

(** What the Unicode database guarantees of [str.isprintable]: lone
    surrogates (category Cs) are not printable, and there is no code point
    beyond U+10FFFF. *)
Definition printable_is_scalar (isprintable : N -> bool) : Prop :=
  forall c, isprintable c = true -> is_scalar c = true.

(** An error the retry policy takes for transient contention. *)
Definition transient (e : exn) : Prop := is_lock_error e = true.

(** The first [n] backoff pauses: 10 ms, 20 ms, 40 ms, ... in seconds. *)
Definition schedule (n : nat) : list Q :=
  List.map (fun i => wait_time (Z.of_nat i)) (seq 0 n).

(** A code point that a file name can hold, and a path made of such: its
    parts have no NUL and no surrogate but those that stand for a byte. *)
Definition plain_char (c : N) : bool := fs_encodable c && negb (c =? 0).

Definition plain_path (p : Path) : Prop :=
  Forall (fun part => forallb plain_char part = true) p.

(** No regular file sits where [mkdir(parents=True)] needs a directory. *)
Definition way_clear (fs : gmap Path bytes) (dir : Path) : Prop :=
  existsb (fun q => bool_decide (is_Some (fs !! q))) (prefixes dir) = false.

(** Between [w] and [w'] directories were only added, and only from
    [extra]. *)
Definition dirs_grow_within (extra : gset Path) (w w' : World) : Prop :=
  dirs w ⊆ dirs w' /\ dirs w' ⊆ dirs w ∪ extra.

(** Whatever [m] does, the worlds before and after are related by [R]. *)
Definition respects {A} (R : World -> World -> Prop) (m : M A) : Prop :=
  forall w w' r, m w = (w', r) -> R w w'.

(** The errors an attempt can end with: an [OSError] reported by a system
    call, the refusal of one of the three file names, or the error of
    encoding a text payload. *)
Definition attempt_error (path temp : Path) (content : payload) (e : exn)
    : Prop :=
  is_oserror e = true \/
  (refused (parent path) = Some e \/ refused temp = Some e \/
   refused path = Some e) \/
  exists s, content = PStr s /\ encode s = Raise e.

(** A script under which every system call goes through. *)
Definition calm (script : list fault) : Prop :=
  Forall (fun f => f = NoFault) script.

(** A target that stays locked through [n] attempts, [n >= 1]: the rename
    fails each time, every other call goes through (mkdir, exists, open,
    write in the first attempt, which finds no staging file; mkdir,
    exists, unlink, open, write in the others). *)
Definition locked_script (n : nat) : list fault :=
  [NoFault; NoFault; NoFault; NoFault; Spec.sharing_violation] ++
  concat (repeat [NoFault; NoFault; NoFault; NoFault; NoFault;
                  Spec.sharing_violation]
                 (n - 1)).

End Env.
(* ===================================================================== *)
(** * Properties                                                          *)
(* ===================================================================== *)

(** ** KeyDeriver *)

Section KeyDeriverFacts.
Import Py Spec.

Lemma hexdigit_lower d : is_lower_hex (hexdigit d) = true.
Proof.
  unfold hexdigit. generalize (N.to_nat d) as n.
  do 16 (destruct n as [|n]; [reflexivity|]). intros; destruct n; reflexivity.
Qed.

Lemma hex_fixed_length width v : length (hex_fixed width v) = width.
Proof. induction width; simpl; congruence. Qed.

Lemma hex_fixed_lower width v :
  Forall (fun c => is_lower_hex c = true) (hex_fixed width v).
Proof.
  induction width; simpl; constructor; auto using hexdigit_lower.
Qed.

Lemma flat_map_const_length {A B} (f : A -> list B) k (l : list A) :
  (forall a, length (f a) = k) -> length (flat_map f l) = (length l * k)%nat.
Proof.
  intros Hf. induction l as [|a l IH]; simpl; [reflexivity|].
  rewrite List.length_app, Hf, IH. lia.
Qed.

Lemma be_bytes_length width v : length (Sha256.be_bytes width v) = width.
Proof.
  unfold Sha256.be_bytes.
  now rewrite List.length_map, List.length_rev, List.length_seq.
Qed.

Lemma digest_length data : length (Sha256.digest data) = 32%nat.
Proof.
  unfold Sha256.digest.
  rewrite (flat_map_const_length _ 4%nat) by apply be_bytes_length.
  reflexivity.
Qed.

Lemma hexdigest_is_cache_key data : is_cache_key (Sha256.hexdigest data).
Proof.
  unfold is_cache_key, Sha256.hexdigest. split.
  - rewrite (flat_map_const_length _ 2%nat) by (intros; apply hex_fixed_length).
    now rewrite digest_length.
  - induction (Sha256.digest data) as [|b l IH]; [constructor|].
    change (flat_map (hex_fixed 2) (b :: l))
      with (hex_fixed 2 b ++ flat_map (hex_fixed 2) l).
    apply Forall_app. split; [apply hex_fixed_lower | exact IH].
Qed.

Lemma utf8_char_none c : utf8_char c = None -> is_scalar c = false.
Proof.
  unfold utf8_char.
  destruct (c <? 0x80); [discriminate|].
  destruct (c <? 0x800); [discriminate|].
  destruct (is_scalar c); simpl; [|reflexivity].
  destruct (c <? 0x10000); discriminate.
Qed.

Lemma encode_raises s e :
  encode s = Raise e -> Exists (fun c => is_scalar c = false) s.
Proof.
  revert e. induction s as [|c s IH]; intros e; simpl; [discriminate|].
  destruct (utf8_char c) eqn:Hc.
  - destruct (encode s) as [|e0]; simpl; [discriminate|].
    intros _. apply Exists_cons_tl. exact (IH e0 eq_refl).
  - intros _. apply Exists_cons_hd. now apply utf8_char_none.
Qed.

Lemma digest_of_text_ok input :
  key_or_bad_text input
    (obind (encode input) (fun data => Return (Sha256.hexdigest data))).
Proof.
  unfold key_or_bad_text. destruct (encode input) eqn:He; simpl.
  - apply hexdigest_is_cache_key.
  - now apply encode_raises with (e := e).
Qed.

End KeyDeriverFacts.

(** C9. [get_url_hash] and [get_query_hash] are functions of their
    arguments alone: equal arguments give equal results. Whenever they
    produce a key it is 64 characters long and made of lowercase
    hexadecimal digits only, and the only way they fail to produce one is
    a text that UTF-8 cannot encode (a code point that is not a Unicode
    scalar value). *)
Theorem key_derivation_deterministic_fixed_format
    (isprintable : N -> bool)
    (url url' key key' : Py.str) (columns columns' : option (list Py.str)) :
  url = url' -> key = key' -> columns = columns' ->
  KeyDeriver.get_url_hash url = KeyDeriver.get_url_hash url' /\
  KeyDeriver.get_query_hash isprintable key columns =
    KeyDeriver.get_query_hash isprintable key' columns' /\
  Spec.key_or_bad_text url (KeyDeriver.get_url_hash url) /\
  Spec.key_or_bad_text
    (key ++ Py.lit "|" ++ Py.str_of_columns isprintable columns)
    (KeyDeriver.get_query_hash isprintable key columns).
Proof.
  intros -> -> ->.
  split; [reflexivity|]. split; [reflexivity|].
  split; apply digest_of_text_ok.
Qed.

Lemma key_derivation_witness :
  let url := Py.lit "https://example.com/file.parquet" in
  let cols := Some [Py.lit "key"; Py.lit "date"] in
  KeyDeriver.get_url_hash url = KeyDeriver.get_url_hash url /\
  KeyDeriver.get_query_hash (fun _ => true) (Py.lit "VALUE_1") cols =
    KeyDeriver.get_query_hash (fun _ => true) (Py.lit "VALUE_1") cols /\
  Spec.key_or_bad_text url (KeyDeriver.get_url_hash url) /\
  Spec.key_or_bad_text
    (Py.lit "VALUE_1" ++ Py.lit "|" ++ Py.str_of_columns (fun _ => true) cols)
    (KeyDeriver.get_query_hash (fun _ => true) (Py.lit "VALUE_1") cols).
Proof.
  intros url cols.
  apply (key_derivation_deterministic_fixed_format (fun _ => true)
           url url (Py.lit "VALUE_1") (Py.lit "VALUE_1") cols cols);
    reflexivity.
Defined.

(** The model agrees with the published SHA-256 test vector for "abc". *)
Example sha256_abc :
  KeyDeriver.get_url_hash (Py.lit "abc") =
  Py.Return (Py.lit "ba7816bf8f01cfea414140de5dae2223b00361a396177a9cb410ff61f20015ad").
Proof. vm_compute. reflexivity. Qed.

(** ** The regular-expression engine *)

Section ReFacts.
Import Py Re.

Lemma try_down_top {A} n (f : nat -> option A) :
  (forall k, (0 < k < n)%nat -> f k = None) ->
  try_down n f = match n with O => None | S _ => f n end.
Proof.
  induction n as [|n IH]; intros Hlow; [reflexivity|].
  simpl. destruct (f (S n)) eqn:Hf; [reflexivity|].
  rewrite IH by (intros k Hk; apply Hlow; lia).
  destruct n; [reflexivity|]. apply Hlow. lia.
Qed.

Lemma span_le p s : (span p s <= length s)%nat.
Proof. induction s as [|c s IH]; simpl; [lia|]. destruct (p c); simpl; lia. Qed.

Lemma span_below p s k :
  (k < span p s)%nat -> exists c r, skipn k s = c :: r /\ p c = true.
Proof.
  revert k. induction s as [|c s IH]; intros k; simpl; [lia|].
  destruct (p c) eqn:Hc; [|lia].
  destruct k as [|k]; simpl; [eauto|]. intros Hk. apply IH. lia.
Qed.

Lemma span_stop p s c r : skipn (span p s) s = c :: r -> p c = false.
Proof.
  induction s as [|x s IH]; simpl; [discriminate|].
  destruct (p x) eqn:Hx; simpl; [exact IH|].
  intros [= -> _]. exact Hx.
Qed.

Lemma span_prefix p s : Forall (fun c => p c = true) (firstn (span p s) s).
Proof.
  induction s as [|x s IH]; simpl; [constructor|].
  destruct (p x) eqn:Hx; simpl; constructor; assumption.
Qed.

Lemma span_app_stop p l c r :
  Forall (fun x => p x = true) l -> p c = false ->
  span p (l ++ c :: r) = length l.
Proof.
  intros Hl Hc. induction Hl as [|x l Hx _ IH]; simpl.
  - now rewrite Hc.
  - now rewrite Hx, IH.
Qed.

(** Case-insensitive comparison with a letter other than I and K accepts
    exactly its two ASCII forms. *)
Lemma letter_matches x c :
  65 <= x <= 90 -> x <> 73 -> x <> 75 ->
  atom_matches true (ALit x) c = true <-> c = x \/ c = x + 32.
Proof.
  intros Hx H73 H75. simpl. unfold tolower.
  rewrite N.eqb_eq.
  replace ((65 <=? x) && (x <=? 90)) with true
    by (symmetry; apply andb_true_iff; split; apply N.leb_le; lia).
  destruct ((65 <=? c) && (c <=? 90)) eqn:Hc.
  - apply andb_true_iff in Hc as [H1 H2].
    apply N.leb_le in H1, H2. lia.
  - assert (Hout : c < 65 \/ 90 < c).
    { apply andb_false_iff in Hc as [H|H]; apply N.leb_gt in H; lia. }
    destruct (c =? 0x130) eqn:H130; [apply N.eqb_eq in H130; lia|].
    destruct (c =? 0x212A) eqn:H212; [apply N.eqb_eq in H212; lia|].
    lia.
Qed.

Lemma quote_matches c : atom_matches true (ALit 39) c = true <-> c = 39.
Proof.
  simpl. unfold tolower. rewrite N.eqb_eq. simpl.
  destruct ((65 <=? c) && (c <=? 90)) eqn:Hc.
  - apply andb_true_iff in Hc as [H1 H2]. apply N.leb_le in H1, H2. lia.
  - destruct (c =? 0x130) eqn:H130; [apply N.eqb_eq in H130; lia|].
    destruct (c =? 0x212A) eqn:H212; [apply N.eqb_eq in H212; lia|].
    reflexivity.
Qed.

Lemma not_quote_matches c : atom_matches true (ANotIn [39]) c = true <-> c <> 39.
Proof.
  simpl. rewrite orb_false_r, negb_true_iff, N.eqb_neq. reflexivity.
Qed.

(** [re.search] returns the match at the leftmost position that has one. *)
Lemma search_leftmost ic items s :
  match search ic items s with
  | Some r =>
      exists pre rest, s = pre ++ rest /\
        match_here ic items rest None None = Some r /\
        forall pre' rest', s = pre' ++ rest' -> (length pre' < length pre)%nat ->
                           match_here ic items rest' None None = None
  | None => forall pre rest, s = pre ++ rest ->
                             match_here ic items rest None None = None
  end.
Proof.
  induction s as [|c s IH]; simpl.
  - destruct (match_here ic items [] None None) eqn:H0.
    + exists [], []. repeat split; [exact H0|]. simpl. intros; lia.
    + intros pre rest E. symmetry in E. apply app_eq_nil in E as [-> ->]. exact H0.
  - destruct (match_here ic items (c :: s) None None) eqn:H0.
    + exists [], (c :: s). repeat split; [exact H0|]. simpl. intros; lia.
    + destruct (search ic items s) as [r|].
      * destruct IH as (pre & rest & -> & Hm & Hmin).
        exists (c :: pre), rest. repeat split; [exact Hm|].
        intros [|x pre'] rest' E Hlen; simpl in E.
        -- subst rest'. exact H0.
        -- injection E as -> E. apply (Hmin pre' rest' E). simpl in Hlen. lia.
      * intros [|x pre] rest E; simpl in E.
        -- subst rest. exact H0.
        -- injection E as -> E. now apply (IH pre rest).
  Qed.

End ReFacts.

(** ** [extract_sql_url] *)

Section UrlFacts.
Import Py Re Hints Spec.

Let notq := atom_matches true (ANotIn [39]).
Let space := atom_matches true ASpace.

(** The quoted part: the greedy run of non-quote characters is kept whole,
    it must be non-empty and a quote must follow it. *)
Lemma match_quoted s2 cap :
  match_here true [Plus (ANotIn [39]); GroupClose; One (ALit 39)] s2 (Some s2) cap =
  match span notq s2, skipn (span notq s2) s2 with
  | S _, _ :: _ => Some (Some (firstn (span notq s2) s2))
  | _, _ => None
  end.
Proof.
  cbn [match_here]. fold notq.
  rewrite try_down_top.
  - pose proof (span_le notq s2) as Hle.
    destruct (span notq s2) as [|m] eqn:Hm; [reflexivity|].
    destruct (skipn (S m) s2) as [|c r] eqn:Hs; [reflexivity|].
    assert (Hc : c = 39).
    { rewrite <- Hm in Hs. apply span_stop in Hs.
      destruct (N.eq_dec c 39) as [E|E]; [exact E|].
      apply not_quote_matches in E. unfold notq in Hs. congruence. }
    subst c. replace (atom_matches true (ALit 39) 39) with true by reflexivity.
    do 3 f_equal.
    assert (Hl : length (skipn (S m) s2) = (length s2 - S m)%nat)
      by apply List.length_skipn.
    rewrite Hs in Hl. rewrite Hl. lia.
  - intros k Hk. destruct (span_below notq s2 k) as (c & r & -> & Hc); [lia|].
    destruct (atom_matches true (ALit 39) c) eqn:Hq; [|reflexivity].
    apply quote_matches in Hq. apply not_quote_matches in Hc. contradiction.
Qed.

(** After FROM: the greedy run of whitespace is kept whole, it must be
    non-empty and the opening quote must follow it. *)
Lemma match_after_from s1 :
  match_here true
    [Plus ASpace; One (ALit 39); GroupOpen; Plus (ANotIn [39]); GroupClose;
     One (ALit 39)] s1 None None =
  match span space s1, skipn (span space s1) s1 with
  | S _, c :: s2 =>
      if c =? 39
      then match span notq s2, skipn (span notq s2) s2 with
           | S _, _ :: _ => Some (Some (firstn (span notq s2) s2))
           | _, _ => None
           end
      else None
  | _, _ => None
  end.
Proof.
  cbn [match_here]. fold space.
  rewrite try_down_top.
  - destruct (span space s1) as [|n] eqn:Hn; [reflexivity|].
    destruct (skipn (S n) s1) as [|c s2]; [reflexivity|].
    destruct (atom_matches true (ALit 39) c) eqn:Hq.
    + apply quote_matches in Hq. subst c. simpl (39 =? 39).
      apply (match_quoted s2 None).
    + destruct (c =? 39) eqn:E; [|reflexivity].
      apply N.eqb_eq in E. subst c. discriminate.
  - intros k Hk. destruct (span_below space s1 k) as (c & r & -> & Hc); [lia|].
    destruct (atom_matches true (ALit 39) c) eqn:Hq; [|reflexivity].
    apply quote_matches in Hq. subst c. discriminate.
Qed.

Lemma match_url_pattern s :
  match_here true url_pattern s None None =
  match s with
  | a :: b :: c :: d :: s1 =>
      if atom_matches true (ALit 70) a && atom_matches true (ALit 82) b &&
         atom_matches true (ALit 79) c && atom_matches true (ALit 77) d
      then match_here true
             [Plus ASpace; One (ALit 39); GroupOpen; Plus (ANotIn [39]);
              GroupClose; One (ALit 39)] s1 None None
      else None
  | _ => None
  end.
Proof.
  unfold url_pattern.
  destruct s as [|a [|b [|c [|d s1]]]]; cbn [match_here]; try reflexivity;
    repeat match goal with
           | |- context [atom_matches true (ALit ?x) ?y] =>
               destruct (atom_matches true (ALit x) y); cbn [andb]; try reflexivity
           end.
Qed.

Lemma keyword_matches a b c d :
  atom_matches true (ALit 70) a && atom_matches true (ALit 82) b &&
  atom_matches true (ALit 79) c && atom_matches true (ALit 77) d = true <->
  keyword_from [a; b; c; d].
Proof.
  rewrite !andb_true_iff.
  rewrite (letter_matches 70), (letter_matches 82), (letter_matches 79),
    (letter_matches 77) by lia.
  unfold keyword_from. split.
  - intros [[[Ha Hb] Hc] Hd]. exists a, b, c, d. simpl in *. tauto.
  - intros (a' & b' & c' & d' & [= -> -> -> ->] & Ha & Hb & Hc & Hd).
    simpl. tauto.
Qed.

(** A match of the pattern at the start of [s] is a FROM literal with a
    non-empty body right there, and conversely. *)
Lemma match_url_sound s r :
  match_here true url_pattern s None None = Some r ->
  exists body, r = Some body /\ body <> [] /\ from_literal s [] body.
Proof.
  rewrite match_url_pattern.
  destruct s as [|a [|b [|c [|d s1]]]]; try discriminate.
  destruct (_ && _) eqn:Hkw; [|discriminate].
  apply keyword_matches in Hkw.
  rewrite match_after_from.
  pose proof (span_prefix space s1) as Hws.
  pose proof (span_le space s1) as Hle1.
  pose proof (firstn_skipn (span space s1) s1) as Hsplit1.
  destruct (span space s1) as [|n] eqn:Hn; [discriminate|].
  destruct (skipn (S n) s1) as [|q s2] eqn:Hs1; [discriminate|].
  destruct (q =? 39) eqn:Hq; [|discriminate]. apply N.eqb_eq in Hq. subst q.
  pose proof (span_prefix notq s2) as Hbody.
  pose proof (span_le notq s2) as Hle2.
  pose proof (firstn_skipn (span notq s2) s2) as Hsplit2.
  pose proof (span_stop notq s2) as Hstop.
  destruct (span notq s2) as [|m] eqn:Hm; [discriminate|].
  destruct (skipn (S m) s2) as [|q post] eqn:Hs2; [discriminate|].
  intros [= <-]. exists (firstn (S m) s2). split; [reflexivity|]. split.
  - intros E. apply (f_equal (@length N)) in E.
    rewrite List.firstn_length_le in E by lia. discriminate.
  - assert (Hq : q = 39).
    { specialize (Hstop q post eq_refl).
      destruct (N.eq_dec q 39) as [E|E]; [exact E|].
      apply not_quote_matches in E. unfold notq in Hstop. congruence. }
    subst q.
    exists [a; b; c; d], (firstn (S n) s1), post. repeat split.
    + simpl. do 4 f_equal. rewrite <- Hsplit1 at 1. f_equal.
      simpl. f_equal. rewrite <- Hsplit2 at 1. reflexivity.
    + exact Hkw.
    + intros E. apply (f_equal (@length N)) in E.
      rewrite List.firstn_length_le in E by lia. discriminate.
    + exact Hws.
    + eapply Forall_impl; [exact Hbody|]. intros x Hx.
      now apply not_quote_matches.
Qed.

Lemma match_url_complete s body :
  body <> [] -> from_literal s [] body ->
  match_here true url_pattern s None None = Some (Some body).
Proof.
  intros Hne (kw & ws & post & -> & Hkw & Hws & Hsp & Hbody).
  destruct Hkw as (a & b & c & d & -> & Hkw).
  rewrite match_url_pattern. simpl app. cbv beta iota.
  replace (_ && _ && _ && _) with true
    by (symmetry; apply keyword_matches; exists a, b, c, d; tauto).
  rewrite match_after_from.
  assert (Hs1 : span space (ws ++ 39 :: body ++ 39 :: post) = length ws)
    by (apply span_app_stop; [exact Hsp | reflexivity]).
  rewrite Hs1, drop_app_length.
  destruct ws as [|w ws]; [contradiction|]. cbn [length].
  simpl (39 =? 39).
  assert (Hs2 : span notq (body ++ 39 :: post) = length body).
  { apply span_app_stop; [|reflexivity].
    eapply Forall_impl; [exact Hbody|]. intros x Hx. now apply not_quote_matches. }
  rewrite Hs2, drop_app_length, take_app_length.
  destruct body; [contradiction|]. reflexivity.
Qed.

End UrlFacts.

(** C8 as stated fails on an empty literal: in [SELECT * FROM ''] the
    pattern FROM, whitespace, single-quoted literal occurs, with the empty
    text between the quotes, yet the result is absent and not that text;
    and when a second, non-empty literal follows, it is the later match
    that is returned. *)
Lemma extract_sql_url_skips_empty_literal :
  Spec.from_literal (Py.lit "SELECT * FROM ''") (Py.lit "SELECT * ") [] /\
  Hints.extract_sql_url (Py.lit "SELECT * FROM ''") = Py.Return None /\
  Spec.from_literal (Py.lit "SELECT * FROM '' UNION SELECT * FROM 'b'")
                    (Py.lit "SELECT * ") [] /\
  Hints.extract_sql_url (Py.lit "SELECT * FROM '' UNION SELECT * FROM 'b'")
    = Py.Return (Some (Py.lit "b")).
Proof.
  split; [|split; [|split]].
  - exists (Py.lit "FROM"), (Py.lit " "), []. repeat split.
    + exists 70, 82, 79, 77. tauto.
    + discriminate.
    + repeat constructor.
    + constructor.
  - reflexivity.
  - exists (Py.lit "FROM"), (Py.lit " "), (Py.lit " UNION SELECT * FROM 'b'").
    repeat split.
    + exists 70, 82, 79, 77. tauto.
    + discriminate.
    + repeat constructor.
    + constructor.
  - reflexivity.
Qed.

(** C8, amended. [extract_sql_url] never raises. When it returns a text,
    that text is non-empty and stands verbatim between the quotes of a
    FROM literal (FROM in any case, one or more whitespace characters, a
    quote, the text without any quote in it, a quote); that literal starts
    at the leftmost position where a FROM literal with a non-empty body
    starts, and it is the only one there. When it returns absent, the
    input has no FROM literal with a non-empty body. *)
Theorem extract_sql_url_first_nonempty_literal (sql : Py.str) :
  match Hints.extract_sql_url sql with
  | Py.Return (Some url) =>
      url <> [] /\
      exists pre, Spec.from_literal sql pre url /\
        forall pre' url', Spec.from_literal sql pre' url' -> url' <> [] ->
          (length pre <= length pre')%nat /\
          (length pre' = length pre -> url' = url)
  | Py.Return None =>
      forall pre url, Spec.from_literal sql pre url -> url = []
  | Py.Raise _ => False
  end.
Proof.
  unfold Hints.extract_sql_url.
  pose proof (search_leftmost true Hints.url_pattern sql) as Hs.
  assert (Hshift : forall pre body, Spec.from_literal sql pre body ->
            exists rest, sql = pre ++ rest /\ Spec.from_literal rest [] body).
  { intros pre body (kw & ws & post & E & H).
    exists (kw ++ ws ++ [39] ++ body ++ [39] ++ post). split; [exact E|].
    exists kw, ws, post. split; [reflexivity | exact H]. }
  destruct (Re.search true Hints.url_pattern sql) as [r|].
  - destruct Hs as (pre & rest & E & Hm & Hmin).
    destruct (match_url_sound rest r Hm) as (body & -> & Hne & Hlit).
    split; [exact Hne|]. exists pre. split.
    + destruct Hlit as (kw & ws & post & -> & H).
      exists kw, ws, post. split; [exact E | exact H].
    + intros pre' url' Hl' Hne'.
      destruct (Hshift pre' url' Hl') as (rest' & E' & Hl0).
      pose proof (match_url_complete rest' url' Hne' Hl0) as Hm'.
      split.
      * destruct (Nat.le_gt_cases (length pre) (length pre')) as [Hle|Hgt];
          [exact Hle|].
        rewrite (Hmin pre' rest' E' Hgt) in Hm'. discriminate.
      * intros Hlen.
        assert (pre' = pre /\ rest' = rest) as [_ ->].
        { rewrite E in E'. now apply app_inj_1 in E'; [destruct E'|]. }
        congruence.
  - intros pre url Hl.
    destruct url as [|c url]; [reflexivity|].
    destruct (Hshift pre _ Hl) as (rest & E & Hl0).
    specialize (Hs pre rest E).
    rewrite (match_url_complete rest (c :: url)) in Hs;
      [discriminate | discriminate | exact Hl0].
Qed.

(** C10. The pattern has no word boundary before FROM: a word that merely
    ends in these four letters, followed by whitespace and a quoted
    literal, makes [extract_sql_url] return the literal's contents. *)
Theorem extract_sql_url_matches_inside_word :
  exists pre word body : Py.str,
    word <> [] /\
    Forall (fun c => Spec.is_word_char c = true) (word ++ Py.lit "FROM") /\
    body <> [] /\
    Hints.extract_sql_url
      (pre ++ word ++ Py.lit "FROM" ++ Py.lit " '" ++ body ++ Py.lit "'")
    = Py.Return (Some body).
Proof.
  exists (Py.lit "SELECT 1 AS "), (Py.lit "VALID_"), (Py.lit "2024-01-01").
  split; [discriminate|]. split; [|split; [discriminate|reflexivity]].
  repeat constructor.
Qed.

(** The literal cases of the specification. *)
Example source_url_plain :
  Hints.extract_sql_url
    (Py.lit "SELECT * FROM 'https://example.com/file.parquet' WHERE k = 1")
  = Py.Return (Some (Py.lit "https://example.com/file.parquet")).
Proof. vm_compute. reflexivity. Qed.

Example source_url_newline_indent :
  Hints.extract_sql_url
    (Py.lit "from" ++ [10; 32; 32; 32; 32] ++ Py.lit "'https://x/y.parquet'")
  = Py.Return (Some (Py.lit "https://x/y.parquet")).
Proof. vm_compute. reflexivity. Qed.

(** ** Walking an expression tree *)

Section TreeFacts.
Import Py Sqlglot Spec.

Lemma total_size_app q1 q2 :
  total_size (q1 ++ q2) = (total_size q1 + total_size q2)%nat.
Proof. induction q1 as [|e q IH]; simpl; [reflexivity|]. rewrite IH. lia. Qed.

Lemma size_children e : size e = S (total_size (iter_expressions e)).
Proof.
  destruct e as [c args]. unfold iter_expressions. cbn [args_of size].
  f_equal. induction args as [|[k v] rest IH]; [reflexivity|].
  cbn [flat_map snd]. rewrite total_size_app, <- IH. f_equal.
  destruct v as [s|x|xs|]; cbn [arg_children total_size fold_right]; try lia.
  induction xs as [|x xs IHx]; [reflexivity|].
  cbn [fold_right]. rewrite <- IHx. reflexivity.
Qed.

(** With as many steps as there are nodes in the queue's trees, the
    traversal empties the queue. *)
Lemma bfs_loop_terminates fuel q :
  (total_size q <= fuel)%nat -> exists l, bfs_loop fuel q = Some l.
Proof.
  revert q. induction fuel as [|fuel IH]; intros [|node rest] Hq; simpl;
    try (eexists; reflexivity).
  - simpl in Hq. rewrite size_children in Hq. lia.
  - destruct (IH (rest ++ iter_expressions node)) as [l Hl].
    + simpl in Hq. rewrite size_children in Hq. rewrite total_size_app. lia.
    + rewrite Hl. eexists; reflexivity.
Qed.

Lemma walk_runs e : bfs_loop (size e) [e] = Some (walk e).
Proof.
  unfold walk. destruct (bfs_loop_terminates (size e) [e]) as [l Hl].
  - simpl. lia.
  - now rewrite Hl.
Qed.

(** What the traversal yields contains the queue and is closed under
    taking children. *)
Lemma bfs_loop_closed fuel q l :
  bfs_loop fuel q = Some l ->
  (forall x, List.In x q -> List.In x l) /\
  (forall x c, List.In x l -> List.In c (iter_expressions x) -> List.In c l).
Proof.
  revert q l. induction fuel as [|fuel IH]; intros [|node rest] l; simpl.
  - intros [= <-]. split; intros; contradiction.
  - discriminate.
  - intros [= <-]. split; intros; contradiction.
  - destruct (bfs_loop fuel (rest ++ iter_expressions node)) as [l'|] eqn:Hl;
      [|discriminate].
    intros [= <-]. destruct (IH _ _ Hl) as [Hq Hc]. split.
    + intros x [->|Hx]; [now left|]. right. apply Hq, in_or_app. now left.
    + intros x c [->|Hx] Hcx; right.
      * apply Hq, in_or_app. now right.
      * now apply (Hc x).
Qed.

(** The walk reaches every node of the tree. *)
Lemma walk_covers d e : subexp d e -> List.In d (walk e).
Proof.
  destruct (bfs_loop_closed _ _ _ (walk_runs e)) as [Hq Hc].
  induction 1 as [e|d c e Hce Hdc IH].
  - apply Hq. now left.
  - destruct (bfs_loop_closed _ _ _ (walk_runs c)) as [Hq' Hc'].
    specialize (IH Hq' Hc').
    assert (Hin : List.In c (walk e)) by (apply (Hc e c); [apply Hq; now left | exact Hce]).
    clear - Hin Hdc Hc.
    induction Hdc as [c|d c' c Hcc Hd IH]; [exact Hin|].
    apply IH. now apply (Hc c c').
Qed.

(** The head of a filtered list is its first element that passes. *)
Lemma head_filter_first {A} (P : A -> bool) l :
  match head (List.filter P l) with
  | Some x => exists pre post, l = pre ++ x :: post /\ P x = true /\
                               Forall (fun y => P y = false) pre
  | None => Forall (fun y => P y = false) l
  end.
Proof.
  induction l as [|a l IH]; simpl; [constructor|].
  destruct (P a) eqn:Ha; simpl.
  - exists [], l. repeat split; [exact Ha | constructor].
  - destruct (head (List.filter P l)) as [x|].
    + destruct IH as (pre & post & -> & Hx & Hpre).
      exists (a :: pre), post. repeat split; [exact Hx|]. now constructor.
    + now constructor.
Qed.

End TreeFacts.

(** ** [extract_partition_column] *)

Section PartitionFacts.
Import Py Sqlglot Hints Spec.

Lemma isinstance_both_false n :
  existsb (isinstance n) [EQ; In] = false ->
  isinstance n EQ = false /\ isinstance n In = false.
Proof.
  simpl. rewrite orb_false_r. intros H. now apply orb_false_iff in H.
Qed.

(** The loop returns the name of the column of the first column
    predicate of the walk, and nothing when the walk has none. *)
Lemma scan_conditions_first (l : list Expression) :
  let result :=
    scan_conditions (List.filter (fun n => existsb (isinstance n) [EQ; In]) l) in
  (exists pre n post c,
      l = pre ++ n :: post /\ column_predicate n c /\
      Forall no_column_predicate pre /\ result = Some (name c)) \/
  (Forall no_column_predicate l /\ result = None).
Proof.
  induction l as [|n l IH]; cbn zeta.
  - right. split; [constructor | reflexivity].
  - cbn [List.filter].
    assert (Hstep : forall res,
      (no_column_predicate n) ->
      ((exists pre n0 post c, l = pre ++ n0 :: post /\ column_predicate n0 c /\
          Forall no_column_predicate pre /\ res = Some (name c)) \/
       (Forall no_column_predicate l /\ res = None)) ->
      (exists pre n0 post c, n :: l = pre ++ n0 :: post /\ column_predicate n0 c /\
          Forall no_column_predicate pre /\ res = Some (name c)) \/
      (Forall no_column_predicate (n :: l) /\ res = None)).
    { intros res Hn [(pre & n0 & post & c & -> & Hc & Hpre & Hres)|[Hall Hres]].
      - left. exists (n :: pre), n0, post, c.
        split; [reflexivity|]. split; [exact Hc|].
        split; [now constructor | exact Hres].
      - right. split; [now constructor | exact Hres]. }
    destruct (existsb (isinstance n) [EQ; In]) eqn:Hp.
    + cbn [scan_conditions]. unfold left.
      destruct (isinstance n EQ) eqn:Heq; [|destruct (isinstance n In) eqn:Hin].
      * destruct (this n) as [t|] eqn:Ht; [destruct (isinstance t Column) eqn:Hcol|].
        -- left. exists [], n, l, t.
           split; [reflexivity|]. split; [unfold column_predicate; auto|].
           split; [constructor | reflexivity].
        -- apply Hstep; [|exact IH]. intros c (_ & Hc & Hcc). congruence.
        -- apply Hstep; [|exact IH]. intros c (_ & Hc & Hcc). congruence.
      * destruct (this n) as [t|] eqn:Ht; [destruct (isinstance t Column) eqn:Hcol|].
        -- left. exists [], n, l, t.
           split; [reflexivity|]. split; [unfold column_predicate; auto|].
           split; [constructor | reflexivity].
        -- apply Hstep; [|exact IH]. intros c (_ & Hc & Hcc). congruence.
        -- apply Hstep; [|exact IH]. intros c (_ & Hc & Hcc). congruence.
      * apply Hstep; [|exact IH]. intros c ([?|?] & _); congruence.
    + apply isinstance_both_false in Hp as [Heq Hin].
      apply Hstep; [|exact IH]. intros c ([?|?] & _); congruence.
Qed.

End PartitionFacts.

(** C6. Neither extractor lets an error escape: each returns a text or
    absent. Whatever the parser does on the input, fail or succeed,
    [extract_partition_column] returns normally, and a parse failure is
    turned into absent; [extract_sql_url] returns normally on every text,
    and on the malformed [SELEC * FRM] it returns absent. *)
Theorem extractors_never_raise
    (parse_one : Py.str -> Py.outcome Sqlglot.Expression) (sql : Py.str) :
  match parse_one sql with
  | Py.Raise _ => Hints.extract_partition_column parse_one sql = Py.Return None
  | Py.Return _ => exists r, Hints.extract_partition_column parse_one sql = Py.Return r
  end /\
  (exists r, Hints.extract_sql_url sql = Py.Return r) /\
  Hints.extract_sql_url (Py.lit "SELEC * FRM") = Py.Return None.
Proof.
  split; [|split].
  - unfold Hints.extract_partition_column.
    destruct (parse_one sql) as [parsed|e]; simpl; [|reflexivity].
    destruct (Sqlglot.find parsed [Sqlglot.Where]); eexists; reflexivity.
  - unfold Hints.extract_sql_url.
    destruct (Re.search true Hints.url_pattern sql); eexists; reflexivity.
  - reflexivity.
Qed.

(** C7. For a query the parser accepts, [extract_partition_column] looks
    at the first WHERE node of the breadth-first walk of the parse tree.
    When the tree has no WHERE node the result is absent. Otherwise the result is the
    unqualified name of the column of the first node, in the walk of that
    WHERE clause, that is an equality or membership predicate with a
    column reference as subject; predicates before it whose subject is not
    a column are passed over; when no node of the clause is such a
    predicate the result is absent. On the tree of
    [SELECT * FROM t WHERE t.id = 1 AND status = 2] the result is [id]. *)
Theorem extract_partition_column_first_column_predicate
    (parse_one : Py.str -> Py.outcome Sqlglot.Expression)
    (sql : Py.str) (parsed : Sqlglot.Expression) :
  parse_one sql = Py.Return parsed ->
  let result := Hints.extract_partition_column parse_one sql in
  (((forall d, Spec.subexp d parsed -> Sqlglot.isinstance d Sqlglot.Where = false) /\
    result = Py.Return None) \/
   (exists before where_ after,
      Sqlglot.walk parsed = before ++ where_ :: after /\
      Sqlglot.isinstance where_ Sqlglot.Where = true /\
      Forall (fun n => Sqlglot.isinstance n Sqlglot.Where = false) before /\
      ((exists pre n post c,
          Sqlglot.walk where_ = pre ++ n :: post /\
          Spec.column_predicate n c /\
          Forall Spec.no_column_predicate pre /\
          result = Py.Return (Some (Sqlglot.name c))) \/
       ((forall d, Spec.subexp d where_ -> Spec.no_column_predicate d) /\
        result = Py.Return None)))) /\
  (parsed = Spec.example_tree -> result = Py.Return (Some (Py.lit "id"))).
Proof.
  intros Hparse result. subst result.
  unfold Hints.extract_partition_column. rewrite Hparse. cbn [Py.obind Hints.try_except].
  split.
  - unfold Sqlglot.find, Sqlglot.find_all at 1.
    pose proof (head_filter_first
      (fun n => existsb (Sqlglot.isinstance n) [Sqlglot.Where]) (Sqlglot.walk parsed)) as Hf.
    destruct (head _) as [where_|].
    + right. destruct Hf as (before & after & Hw & Hx & Hpre).
      exists before, where_, after. split; [exact Hw|]. split.
      { simpl in Hx. now rewrite orb_false_r in Hx. }
      split.
      { eapply Forall_impl; [exact Hpre|]. simpl. intros x Hx'.
        now rewrite orb_false_r in Hx'. }
      unfold Sqlglot.find_all.
      destruct (scan_conditions_first (Sqlglot.walk where_))
        as [(pre & n & post & c & E & Hc & Hp & Hr)|[Hall Hr]].
      * left. exists pre, n, post, c.
        split; [exact E|]. split; [exact Hc|]. split; [exact Hp|].
        cbn zeta in Hr. now rewrite Hr.
      * right. split; [|cbn zeta in Hr; now rewrite Hr].
        intros d Hd. apply walk_covers in Hd.
        rewrite List.Forall_forall in Hall. now apply Hall.
    + left. split; [|reflexivity].
      intros d Hd. apply walk_covers in Hd.
      rewrite List.Forall_forall in Hf. specialize (Hf d Hd).
      simpl in Hf. now rewrite orb_false_r in Hf.
  - intros ->. vm_compute. reflexivity.
Qed.

Lemma extract_partition_column_witness :
  Hints.extract_partition_column (fun _ => Py.Return Spec.example_tree) Spec.example_sql
  = Py.Return (Some (Py.lit "id")).
Proof.
  exact (proj2 (extract_partition_column_first_column_predicate
                  (fun _ => Py.Return Spec.example_tree)
                  Spec.example_sql Spec.example_tree eq_refl) eq_refl).
Defined.

(** The literal cases of the specification, on the trees sqlglot builds. *)
Example partition_column_in_list :
  Hints.extract_partition_column (fun _ => Py.Return (Spec.select_where Spec.cond_in))
    (Py.lit "SELECT * FROM t WHERE id IN (1,2,3)") = Py.Return (Some (Py.lit "id")).
Proof. vm_compute. reflexivity. Qed.

Example partition_column_function_subject :
  Hints.extract_partition_column (fun _ => Py.Return (Spec.select_where Spec.cond_lower))
    (Py.lit "SELECT * FROM t WHERE LOWER(name) = 'x'") = Py.Return None.
Proof. vm_compute. reflexivity. Qed.

(** Walk order is breadth first: the outer predicate is met before the
    ones inside the parentheses, although it is written after them. *)
Example partition_column_outer_first :
  Hints.extract_partition_column (fun _ => Py.Return (Spec.select_where Spec.cond_nested))
    (Py.lit "SELECT * FROM t WHERE (LOWER(a) = 'x' AND b = 1) OR c = 2")
  = Py.Return (Some (Py.lit "c")).
Proof. vm_compute. reflexivity. Qed.

(** The malformed query of the specification: absent, whether the parser
    rejects it or reads it as an expression without a WHERE clause. *)
Example partition_column_malformed :
  Hints.extract_partition_column
    (fun _ => Py.Raise (Py.Exn Py.ParseError (Py.lit "Invalid expression / Unexpected token")))
    (Py.lit "SELEC * FRM") = Py.Return None /\
  Hints.extract_partition_column (fun _ => Py.Return Spec.malformed_tree)
    (Py.lit "SELEC * FRM") = Py.Return None.
Proof. split; vm_compute; reflexivity. Qed.

(** ** Staging paths *)

Section PathFacts.
Import Py Pathlib Persist Spec.
Local Open Scope Z_scope.

Lemma rfind_from_app c s t i acc :
  rfind_from c (s ++ t) i acc =
  rfind_from c t (i + Z.of_nat (length s)) (rfind_from c s i acc).
Proof.
  revert i acc. induction s as [|x s IH]; intros i acc; simpl.
  - f_equal. lia.
  - rewrite IH. f_equal. lia.
Qed.

Lemma rfind_from_range c s i acc :
  acc < i ->
  acc <= rfind_from c s i acc < i + Z.of_nat (length s).
Proof.
  revert i acc. induction s as [|x s IH]; intros i acc Hacc; simpl; [lia|].
  destruct (x =? c)%N.
  - specialize (IH (i + 1) i). lia.
  - specialize (IH (i + 1) acc). lia.
Qed.

Lemma rfind_tmp s : rfind dot (s ++ lit ".tmp") = Z.of_nat (length s).
Proof. unfold rfind. rewrite rfind_from_app. reflexivity. Qed.

(** A name that ends in ".tmp" after a non-empty stem has suffix ".tmp". *)
Lemma suffix_of_tmp_name s :
  s <> [] -> suffix_of_name (s ++ lit ".tmp") = lit ".tmp".
Proof.
  intros Hs. unfold suffix_of_name. rewrite rfind_tmp, List.length_app.
  assert (0 < Z.of_nat (length s)) by (destruct s; [contradiction | simpl; lia]).
  replace ((0 <? Z.of_nat (length s)) &&
           (Z.of_nat (length s) <? Z.of_nat (length s + length (lit ".tmp")) - 1))%bool
    with true.
  - rewrite Nat2Z.id. apply drop_app_length.
  - symmetry. apply andb_true_iff. split; apply Z.ltb_lt; simpl length; lia.
Qed.

Lemma stem_of_name_nonempty nm :
  nm <> [] -> firstn (length nm - length (suffix_of_name nm)) nm <> [].
Proof.
  intros Hnm. unfold suffix_of_name.
  pose proof (rfind_from_range dot nm 0 (-1) ltac:(lia)) as Hr.
  fold (rfind dot nm) in Hr.
  destruct ((0 <? rfind dot nm) && (rfind dot nm <? Z.of_nat (length nm) - 1))%bool eqn:Hc.
  - apply andb_true_iff in Hc as [H1 H2]. apply Z.ltb_lt in H1, H2.
    rewrite List.length_skipn. intros E. apply (f_equal (@length N)) in E.
    rewrite List.length_firstn in E. simpl in E. lia.
  - simpl. rewrite Nat.sub_0_r, List.firstn_all. exact Hnm.
Qed.

Lemma tmp_name_not_anchor s : is_anchor (s ++ lit ".tmp") = false.
Proof.
  unfold is_anchor. apply bool_decide_eq_false. intros E.
  apply (f_equal (@length N)) in E. rewrite List.length_app in E.
  simpl in E. lia.
Qed.

Lemma name_snoc (l : Path) x : is_anchor x = false -> name (l ++ [x]) = x.
Proof.
  intros Hx. destruct l as [|a l]; simpl.
  - now rewrite Hx.
  - destruct (l ++ [x]) as [|b r] eqn:E.
    + now apply app_eq_nil in E as [_ ?].
    + rewrite <- E. change (a :: l ++ [x]) with ((a :: l) ++ [x]).
      destruct l; apply List.last_last.
Qed.

Lemma parent_snoc (l : Path) x : is_anchor x = false -> parent (l ++ [x]) = l.
Proof.
  intros Hx. destruct l as [|a l]; simpl.
  - now rewrite Hx.
  - destruct (l ++ [x]) as [|b r] eqn:E.
    + now apply app_eq_nil in E as [_ ?].
    + rewrite <- E. f_equal. apply List.removelast_last.
Qed.

(** A path with a name is its parent followed by that name. *)
Lemma path_parent_name (p : Path) :
  name p <> [] -> p = parent p ++ [name p] /\ parent p = removelast p.
Proof.
  destruct p as [|a [|b r]]; simpl.
  - intros H; contradiction.
  - destruct (is_anchor a); [intros H; contradiction|]. intros _. now split.
  - intros _. split; [|reflexivity].
    change (a :: b :: r) with ([a] ++ b :: r) at 1.
    rewrite (List.app_removelast_last [] (l := b :: r)) at 1 by discriminate.
    reflexivity.
Qed.

(** What [with_suffix(".tmp")] returns: the parent, then the stem with
    ".tmp" appended; it raises exactly when the path has no name. *)
Lemma temp_path_of_shape p t :
  temp_path_of p = Return t ->
  name p <> [] /\ t = parent p ++ [stem p ++ lit ".tmp"].
Proof.
  unfold temp_path_of, with_suffix.
  replace (contains (lit "/") (lit ".tmp")) with false by reflexivity.
  cbv beta iota.
  replace ((negb (bool_decide (lit ".tmp" = [])) &&
            negb (starts_with (lit ".") (lit ".tmp")))%bool
           || bool_decide (lit ".tmp" = lit "."))%bool with false by reflexivity.
  cbv beta iota zeta.
  destruct (bool_decide (name p = [])) eqn:Hn; [discriminate|].
  apply bool_decide_eq_false in Hn.
  destruct (path_parent_name p Hn) as [_ Hpar].
  intros [= <-]. split; [exact Hn|]. rewrite Hpar. do 2 f_equal.
  unfold stem. destruct (bool_decide (suffix p = [])) eqn:Hs; [|reflexivity].
  apply bool_decide_eq_true in Hs. rewrite Hs. simpl length.
  now rewrite Nat.sub_0_r, List.firstn_all.
Qed.

Lemma stem_nonempty p : name p <> [] -> stem p <> [].
Proof. intros H. unfold stem, suffix. now apply stem_of_name_nonempty. Qed.

(** The staging path always carries the suffix ".tmp". *)
Lemma temp_path_has_tmp_suffix p t :
  temp_path_of p = Return t -> suffix t = lit ".tmp".
Proof.
  intros H. apply temp_path_of_shape in H as [Hn ->].
  unfold suffix. rewrite name_snoc by apply tmp_name_not_anchor.
  apply suffix_of_tmp_name. now apply stem_nonempty.
Qed.

End PathFacts.

(** C1 as stated fails twice over. Two targets in one directory that
    differ only in their extension get the same staging path, and the
    staging path of a target without extension is the path of another
    possible target. *)
Lemma staging_paths_collide :
  let a_json := [Py.lit "cache"; Py.lit "a.json"] in
  let a_parquet := [Py.lit "cache"; Py.lit "a.parquet"] in
  let a := [Py.lit "cache"; Py.lit "a"] in
  let a_tmp := [Py.lit "cache"; Py.lit "a.tmp"] in
  a_json <> a_parquet /\
  Persist.temp_path_of a_json = Py.Return a_tmp /\
  Persist.temp_path_of a_parquet = Py.Return a_tmp /\
  a <> a_tmp /\
  Persist.temp_path_of a = Py.Return a_tmp.
Proof. cbv zeta. repeat split; discriminate. Qed.

(** C1, amended. The staging path of a target lies in the target's
    directory and has the suffix ".tmp". Two targets have the same staging
    path exactly when they have the same directory and the same stem (the
    name without its last suffix); so targets that differ in directory or
    in stem never share a staging file. A staging path is the path of
    another target only if that target has the suffix ".tmp" itself. *)
Theorem staging_path_same_dir_same_stem
    (p1 p2 t1 t2 : Pathlib.Path) :
  Persist.temp_path_of p1 = Py.Return t1 ->
  Persist.temp_path_of p2 = Py.Return t2 ->
  Pathlib.parent t1 = Pathlib.parent p1 /\
  Pathlib.suffix t1 = Py.lit ".tmp" /\
  (t1 = t2 <->
     Pathlib.parent p1 = Pathlib.parent p2 /\ Pathlib.stem p1 = Pathlib.stem p2) /\
  (Pathlib.suffix p2 <> Py.lit ".tmp" -> t1 <> p2).
Proof.
  intros H1 H2.
  pose proof (temp_path_has_tmp_suffix _ _ H1) as Hsfx.
  apply temp_path_of_shape in H1 as [Hn1 ->], H2 as [Hn2 ->].
  split; [apply parent_snoc, tmp_name_not_anchor|].
  split; [exact Hsfx|]. split.
  - split.
    + intros E. apply app_inj_tail in E as [Hp Hs]. split; [exact Hp|].
      now apply app_inv_tail in Hs.
    + intros [-> ->]. reflexivity.
  - intros Hne E. apply Hne. rewrite <- E. exact Hsfx.
Qed.

Lemma staging_path_witness :
  let p1 := [Py.lit "cache"; Py.lit "a.parquet"] in
  let p2 := [Py.lit "cache"; Py.lit "b.parquet"] in
  let t1 := [Py.lit "cache"; Py.lit "a.tmp"] in
  let t2 := [Py.lit "cache"; Py.lit "b.tmp"] in
  Pathlib.parent t1 = Pathlib.parent p1 /\
  Pathlib.suffix t1 = Py.lit ".tmp" /\
  (t1 = t2 <->
     Pathlib.parent p1 = Pathlib.parent p2 /\ Pathlib.stem p1 = Pathlib.stem p2) /\
  (Pathlib.suffix p2 <> Py.lit ".tmp" -> t1 <> p2).
Proof.
  cbv zeta.
  apply (staging_path_same_dir_same_stem
           [Py.lit "cache"; Py.lit "a.parquet"] [Py.lit "cache"; Py.lit "b.parquet"]);
    reflexivity.
Defined.

(** ** The trace of a persist call *)

Section TraceFacts.
Import Py Pathlib Fs Persist Spec.
Local Open Scope fs_scope.

Lemma marks_app t1 t2 : marks (t1 ++ t2) = marks t1 ++ marks t2.
Proof. unfold marks. apply List.filter_app. Qed.

Lemma marked_ret {A} (a : A) : marked (ret a) [].
Proof.
  intros w w' r [= <- <-]. exists []. now rewrite app_nil_r.
Qed.

Lemma marked_raise {A} e : marked (@raise A e) [].
Proof.
  intros w w' r [= <- <-]. exists []. now rewrite app_nil_r.
Qed.

(** Marks left by [m] stay when what follows leaves none. *)
Lemma marked_bind {A B} (m : M A) (k : A -> M B) ms :
  marked m ms -> (forall a, marked (k a) []) -> marked (bind m k) ms.
Proof.
  intros Hm Hk w w' r. unfold bind.
  destruct (m w) as [w1 [a|e]] eqn:E; intros H.
  - destruct (Hm _ _ _ E) as (e1 & T1 & M1).
    destruct (Hk a _ _ _ H) as (e2 & T2 & M2).
    exists (e1 ++ e2). rewrite T2, T1, <- app_assoc, marks_app, M1, M2.
    now rewrite app_nil_r.
  - injection H as <- <-. exact (Hm _ _ _ E).
Qed.

Lemma marked_emit ev : marked (emit ev) (marks [ev]).
Proof. intros w w' r [= <- <-]. now exists [ev]. Qed.

Lemma marked_next_fault : marked next_fault [].
Proof.
  intros w w' r. unfold next_fault.
  destruct (faults w); intros [= <- <-]; exists []; simpl; now rewrite app_nil_r.
Qed.

Lemma marked_get_files : marked get_files [].
Proof. intros w w' r [= <- <-]. exists []. now rewrite app_nil_r. Qed.

Lemma marked_get_dirs : marked get_dirs [].
Proof. intros w w' r [= <- <-]. exists []. now rewrite app_nil_r. Qed.

Lemma marked_set_files f : marked (set_files f) [].
Proof. intros w w' r [= <- <-]. exists []. simpl. now rewrite app_nil_r. Qed.

Lemma marked_set_dirs d : marked (set_dirs d) [].
Proof. intros w w' r [= <- <-]. exists []. simpl. now rewrite app_nil_r. Qed.

Lemma marked_attempt {A} (m : M A) ms : marked m ms -> marked (attempt m) ms.
Proof.
  intros Hm w w' r. unfold attempt.
  destruct (m w) as [w1 r1] eqn:E. intros [= <- <-]. exact (Hm _ _ _ E).
Qed.

End TraceFacts.

Ltac quiet :=
  repeat first
    [ apply marked_ret | apply marked_raise | apply marked_next_fault
    | apply marked_get_files | apply marked_get_dirs | apply marked_set_files
    | apply marked_set_dirs
    | apply (marked_emit (Fs.EvExists _)) | apply (marked_emit (Fs.EvUnlink _))
    | apply (marked_emit (Fs.EvOpen _ _)) | apply (marked_emit (Fs.EvWrite _))
    | apply (marked_emit (Fs.EvReplace _ _)) | apply (marked_emit (Fs.EvLog _))
    | apply marked_bind; [|intros ?]
    | match goal with
      | |- Spec.marked (match ?x with _ => _ end) _ => destruct x
      | |- Spec.marked (if ?x then _ else _) _ => destruct x
      end ].

Section AttemptFacts.
Import Py Pathlib Fs Persist Spec.
Local Open Scope fs_scope.

Lemma marked_path_exists p : marked (path_exists p) [].
Proof. unfold path_exists. quiet. Qed.

Lemma marked_unlink p : marked (unlink p) [].
Proof. unfold unlink. quiet. Qed.

Lemma marked_open_write p mode : marked (open_write p mode) [].
Proof. unfold open_write. quiet. Qed.

Lemma marked_write_close p data : marked (write_close p data) [].
Proof. unfold write_close. quiet. Qed.

Lemma marked_replace src dst : marked (replace src dst) [].
Proof. unfold replace. quiet. Qed.

Lemma marked_log level : marked (log level) [].
Proof. unfold log. quiet. Qed.

Lemma marked_mkdir_parents p : marked (mkdir_parents p) [EvMkdir p].
Proof.
  unfold mkdir_parents. apply marked_bind; [apply (marked_emit (EvMkdir p))|].
  intros _. quiet.
Qed.

Lemma marked_unlink_quietly p : marked (unlink_quietly p) [].
Proof.
  unfold unlink_quietly. apply marked_bind.
  - apply marked_attempt, marked_unlink.
  - intros r. quiet.
Qed.

Lemma marked_write_file p mode content : marked (write_file p mode content) [].
Proof.
  unfold write_file. apply marked_bind; [apply marked_open_write|].
  intros _. destruct content; [destruct (encode s)|];
    first [apply marked_write_close | apply marked_raise].
Qed.

Lemma caught_marks t : caught (marks t) = caught t.
Proof.
  induction t as [|ev t IH]; [reflexivity|].
  destruct ev; simpl; rewrite ?IH; reflexivity.
Qed.

Lemma sleeps_marks t : sleeps (marks t) = sleeps t.
Proof.
  induction t as [|ev t IH]; [reflexivity|].
  destruct ev; simpl; rewrite ?IH; reflexivity.
Qed.

Lemma attempts_marks t : attempts (marks t) = attempts t.
Proof.
  unfold attempts. induction t as [|ev t IH]; [reflexivity|].
  destruct ev; simpl; rewrite ?IH; reflexivity.
Qed.

Lemma opens_with_emit {A} ev (k : unit -> M A) :
  marked (k tt) [] -> opens_with (bind (emit ev) k) ev.
Proof.
  intros Hk w w' r H.
  change (bind (emit ev) k w) with (k tt (traced w [ev])) in H.
  destruct (Hk _ _ _ H) as (evs & T & Hm). exists evs. split; [|exact Hm].
  rewrite T. cbn [trace traced]. now rewrite <- app_assoc.
Qed.

Lemma opens_with_bind {A B} (m : M A) (k : A -> M B) ev :
  opens_with m ev -> (forall a, marked (k a) []) -> opens_with (bind m k) ev.
Proof.
  intros Hm Hk w w' r. unfold bind.
  destruct (m w) as [w1 [a|e]] eqn:E; intros H.
  - destruct (Hm _ _ _ E) as (e1 & T1 & M1).
    destruct (Hk a _ _ _ H) as (e2 & T2 & M2).
    exists (e1 ++ e2). rewrite T2, T1, <- app_assoc, marks_app, M1, M2.
    split; reflexivity.
  - injection H as <- <-. exact (Hm _ _ _ E).
Qed.

Lemma opens_with_mkdir_parents p : opens_with (mkdir_parents p) (EvMkdir p).
Proof. unfold mkdir_parents. apply opens_with_emit. quiet. Qed.

(** One attempt calls [mkdir] first and only once, and neither sleeps nor
    binds an error. *)
Lemma opens_with_write_attempt path temp mode content :
  opens_with (write_attempt path temp mode content) (EvMkdir (parent path)).
Proof.
  unfold write_attempt. apply opens_with_bind; [apply opens_with_mkdir_parents|].
  intros _. apply marked_bind; [apply marked_path_exists|].
  intros stale. apply marked_bind.
  - destruct stale; [apply marked_unlink_quietly | apply marked_ret].
  - intros _. apply marked_bind; [apply marked_write_file|].
    intros _. apply marked_replace.
Qed.

(** The loop never raises; its marks have the shape [loop_marks]; when it
    has an iteration to run, the first thing it does is the [mkdir]. *)
Lemma attempt_loop_marks path temp mode content max_retries k :
  forall a last w w' r,
    attempt_loop path temp mode content max_retries k a last w = (w', r) ->
    exists ex evs,
      r = Return ex /\ trace w' = trace w ++ evs /\
      loop_marks max_retries (parent path) k a last (marks evs) ex /\
      match k with
      | O => evs = []
      | S _ => exists evs', evs = EvMkdir (parent path) :: evs'
      end.
Proof.
  induction k as [|k IH]; intros a last w w' r; cbn [attempt_loop].
  - intros [= <- <-]. exists (FellThrough last), [].
    rewrite app_nil_r. repeat split. constructor.
  - unfold bind at 1, attempt at 1.
    destruct (write_attempt path temp mode content w) as [w1 r1] eqn:E1.
    destruct (opens_with_write_attempt _ _ _ _ _ _ _ E1) as (e1 & T1 & M1).
    destruct r1 as [[]|e].
    + intros [= <- <-]. exists Returned, (EvMkdir (parent path) :: e1).
      cbn [marks List.filter]. fold (marks e1). rewrite M1.
      repeat split; [exact T1 | constructor | now exists e1].
    + unfold bind at 1, emit at 1. cbv beta iota.
      destruct (is_lock_error e && (a <? max_retries - 1)%Z) eqn:Hc.
      * assert (Hos : is_oserror e = true).
        { apply andb_true_iff in Hc as [Hl _]. unfold is_lock_error in Hl.
          now apply andb_true_iff in Hl as [? _]. }
        rewrite Hos. unfold bind at 1, log, emit at 1. cbv beta iota.
        unfold bind at 1, sleep, emit at 1. cbv beta iota.
        intros H. destruct (IH _ _ _ _ _ H) as (ex & evs & -> & T & L & _).
        cbn [trace] in T.
        exists ex, (EvMkdir (parent path)
                    :: e1 ++ [EvCaught e; EvLog (lit "debug"); EvSleep (wait_time a)] ++ evs).
        split; [reflexivity|]. split.
        { rewrite T, T1, <- !app_assoc. reflexivity. }
        split; [|eexists; reflexivity].
        cbn [marks List.filter]. fold (marks (e1 ++ [EvCaught e; EvLog (lit "debug"); EvSleep (wait_time a)] ++ evs)).
        rewrite marks_app, M1. cbn.
        apply andb_true_iff in Hc as [Hl Ha]. apply Z.ltb_lt in Ha.
        now constructor.
      * assert (H' : (if is_oserror e
                      then (if false then
                              log "debug" ;;; sleep (wait_time a) ;;;
                              attempt_loop path temp mode content max_retries k
                                (a + 1)%Z (Some e)
                            else ret (FellThrough (Some e)))
                      else ret (FellThrough (Some e))) =
                     ret (FellThrough (Some e))) by (destruct (is_oserror e); reflexivity).
        rewrite H'. intros [= <- <-].
        exists (FellThrough (Some e)), (EvMkdir (parent path) :: e1 ++ [EvCaught e]).
        split; [reflexivity|]. split.
        { cbn [trace]. rewrite T1, <- app_assoc. reflexivity. }
        split; [|eexists; reflexivity].
        cbn [marks List.filter]. fold (marks (e1 ++ [EvCaught e])).
        rewrite marks_app, M1. cbn. now constructor.
Qed.

End AttemptFacts.

Section CallFacts.
Import Py Pathlib Fs Persist Spec.
Local Open Scope fs_scope.

(** The probe answers "yes" only for a name the system takes, and the
    only errors it raises are [OSError]s of [stat]. *)
Lemma path_exists_true p w w' :
  path_exists p w = (w', Return true) -> refused p = None.
Proof.
  unfold path_exists, bind, emit, ret. destruct (refused p); [discriminate|].
  reflexivity.
Qed.

Lemma path_exists_raises p w w' e :
  path_exists p w = (w', Raise e) -> is_oserror e = true.
Proof.
  unfold path_exists, bind, emit, next_fault, get_files, get_dirs, raise, ret.
  destruct (refused p); [discriminate|]. cbn [faults files dirs].
  destruct (faults w) as [|[|c msg|n c msg] rest]; cbn [files dirs];
    try discriminate;
    (destruct (ignored_by_exists c); [discriminate|]; now intros [= _ <-]).
Qed.

Lemma unlink_raises_oserror p w w' e :
  refused p = None -> unlink p w = (w', Raise e) -> is_oserror e = true.
Proof.
  intros Hp.
  unfold unlink, bind, emit, next_fault, get_files, get_dirs, set_files, raise.
  rewrite Hp. cbn [faults files dirs].
  destruct (faults w) as [|[|c msg|n c msg] rest]; cbn [files dirs];
    try (intros [= _ <-]; reflexivity);
    destruct (files w !! p); try discriminate;
    destruct (bool_decide (p ∈ dirs w)); intros [= _ <-]; reflexivity.
Qed.

Lemma unlink_quietly_returns p w w' r :
  refused p = None -> unlink_quietly p w = (w', r) -> r = Return tt.
Proof.
  intros Hp. unfold unlink_quietly, bind at 1, attempt.
  destruct (unlink p w) as [w1 [[]|e]] eqn:E.
  - now intros [= _ <-].
  - rewrite (unlink_raises_oserror _ _ _ _ Hp E). now intros [= _ <-].
Qed.

(** After the loop the function raises, and leaves no mark: the error
    chosen from [last_error], whatever the removal of the staging file
    does, unless the probe for the staging file raises, whose error then
    takes its place. *)
Lemma fail_after_loop_raises path temp last w w' r :
  fail_after_loop path temp last w = (w', r) ->
  (exists e, r = Raise e /\
     match path_exists temp (traced w [EvLog (lit "error")]) with
     | (_, Raise e') => e = e'
     | (_, Return _) => e = error_to_raise path last
     end) /\
  exists tail, trace w' = trace w ++ tail /\ marks tail = [].
Proof.
  intros H. split.
  - revert H. unfold fail_after_loop, bind at 1, log, emit at 1. cbv beta iota.
    change {| files := files w; dirs := dirs w; faults := faults w;
              trace := trace w ++ [EvLog (lit "error")];
              snapshots := snapshots w |}
      with (traced w [EvLog (lit "error")]).
    unfold bind at 1.
    destruct (path_exists temp _) as [w1 [b|e]] eqn:E1.
    + unfold bind at 1. destruct b.
      * destruct (unlink_quietly temp w1) as [w2 r2] eqn:E2.
        rewrite (unlink_quietly_returns _ _ _ _ (path_exists_true _ _ _ E1) E2).
        intros [= _ <-]. now eexists.
      * cbn. intros [= _ <-]. now eexists.
    + intros [= _ <-]. now eexists.
  - assert (Hm : marked (fail_after_loop path temp last) []).
    { unfold fail_after_loop. apply marked_bind; [apply marked_log|].
      intros _. apply marked_bind; [apply marked_path_exists|].
      intros b. apply marked_bind; [|intros _; apply marked_raise].
      destruct b; [apply marked_unlink_quietly | apply marked_ret]. }
    exact (Hm _ _ _ H).
Qed.

(** The error a failed call raises: the one the loop handed on, or an
    [OSError] of the probe. *)
Lemma fail_after_loop_error path temp last w w' r :
  fail_after_loop path temp last w = (w', r) ->
  exists e, r = Raise e /\ (e = error_to_raise path last \/ is_oserror e = true).
Proof.
  intros H. apply fail_after_loop_raises in H as [(e & -> & He) _].
  exists e. split; [reflexivity|].
  destruct (path_exists temp _) as [w1 [b|e']] eqn:E1.
  - now left.
  - subst e'. right. exact (path_exists_raises _ _ _ _ E1).
Qed.

(** The marks of a whole call: those of the loop, then nothing. *)
Lemma atomic_write_marks path temp content max_retries w w' r :
  temp_path_of path = Return temp ->
  atomic_write path content max_retries w = (w', r) ->
  exists ex evs tail,
    trace w' = trace w ++ evs ++ tail /\ marks tail = [] /\
    loop_marks max_retries (parent path) (Z.to_nat max_retries) 0%Z None
               (marks evs) ex /\
    match ex with
    | Returned => r = Return tt
    | FellThrough last =>
        exists e, r = Raise e /\
          (e = error_to_raise path last \/ is_oserror e = true)
    end.
Proof.
  intros Ht. unfold atomic_write. rewrite Ht. unfold bind at 1.
  destruct (attempt_loop _ _ _ _ _ _ _ _ w) as [w1 r1] eqn:EL.
  apply attempt_loop_marks in EL as (ex & evs & -> & T & L & _).
  destruct ex as [|last].
  - intros [= <- <-]. exists Returned, evs, [].
    rewrite app_nil_r. repeat split; assumption.
  - intros H. pose proof (fail_after_loop_error _ _ _ _ _ _ H) as He.
    apply fail_after_loop_raises in H as (_ & tail & T' & M').
    exists (FellThrough last), evs, tail.
    rewrite T', T, <- app_assoc. repeat split; assumption.
Qed.

(** What falls out of the loop is the last error its handlers bound. *)
Lemma loop_marks_last max_retries dir k a last ms ex :
  loop_marks max_retries dir k a last ms ex ->
  match ex with
  | Returned => True
  | FellThrough le =>
      le = match rev (caught ms) with
           | e :: _ => Some e
           | [] => last
           end
  end.
Proof.
  induction 1 as [a last|k a last|k a last e Hc|k a last e evs ex Hl Ha _ IH];
    try reflexivity; try exact I.
  destruct ex as [|le]; [exact I|]. rewrite IH.
  change (caught (EvMkdir dir :: EvCaught e :: EvSleep (wait_time a) :: evs))
    with ([e] ++ caught evs).
  rewrite rev_app_distr. simpl rev at 2.
  destruct (rev (caught evs)); reflexivity.
Qed.

(** A loop that starts with iterations to go and neither returns nor
    binds an error does not exist. *)
Lemma loop_marks_nonempty max_retries dir k a last ms le :
  loop_marks max_retries dir (S k) a last ms (FellThrough le) ->
  caught ms <> [].
Proof. inversion 1; subst; discriminate. Qed.

(** A loop that ends on a lock error has used up its iterations: one
    attempt each, with the backoff sleeps in between. *)
Lemma loop_marks_ceiling max_retries dir k a last ms e :
  loop_marks max_retries dir k a last ms (FellThrough (Some e)) ->
  Z.of_nat k = (max_retries - a)%Z -> (0 < k)%nat ->
  is_lock_error e = true ->
  attempts ms = k /\
  sleeps ms = List.map (fun i => wait_time (a + Z.of_nat i)) (seq 0 (k - 1)).
Proof.
  remember (FellThrough (Some e)) as ex eqn:Hex.
  induction 1 as [a last|k a last|k a last e' Hc|k a last e' evs ex Hl Ha Hrec IH];
    intros Hk Hpos Hlock; try discriminate; try lia.
  - injection Hex as <-. rewrite Hlock in Hc. simpl in Hc.
    apply Z.ltb_ge in Hc. assert (k = 0)%nat as -> by lia. split; reflexivity.
  - subst ex. destruct k as [|k]; [lia|].
    destruct IH as [IHa IHs]; [reflexivity | lia | lia | exact Hlock |].
    split.
    + change (attempts (EvMkdir dir :: EvCaught e' :: EvSleep (wait_time a) :: evs))
        with (S (attempts evs)). now rewrite IHa.
    + change (sleeps (EvMkdir dir :: EvCaught e' :: EvSleep (wait_time a) :: evs))
        with (wait_time a :: sleeps evs).
      rewrite IHs. replace (S (S k) - 1)%nat with (S (S k - 1)) by lia.
      cbn [seq List.map]. rewrite Z.add_0_r. f_equal.
      rewrite <- seq_shift, List.map_map. apply List.map_ext.
      intros i. f_equal. lia.
Qed.

End CallFacts.

Section CeilingFacts.
Import Py Pathlib Fs Persist Spec.

Lemma temp_path_of_raises p e :
  temp_path_of p = Raise e -> exn_cls e = ValueError.
Proof.
  unfold temp_path_of, with_suffix.
  replace (contains (lit "/") (lit ".tmp")) with false by reflexivity.
  cbv beta iota.
  replace ((negb (bool_decide (lit ".tmp" = [])) &&
            negb (starts_with (lit ".") (lit ".tmp")))%bool
           || bool_decide (lit ".tmp" = lit "."))%bool with false by reflexivity.
  cbv beta iota zeta.
  destruct (bool_decide (name p = [])); [|discriminate].
  now intros [= <-].
Qed.

Lemma not_lock_error e : exn_cls e = ValueError \/ exn_cls e = RuntimeError ->
  is_lock_error e = false.
Proof.
  unfold is_lock_error, is_oserror. now intros [-> | ->].
Qed.

(** When every attempt of the loop ends in a lock error, the loop falls
    through with one. *)
Lemma loop_marks_persistent max_retries dir k a last ms ex :
  loop_marks max_retries dir k a last ms ex ->
  (0 < k)%nat ->
  attempts ms = length (caught ms) ->
  Forall (fun e => is_lock_error e = true) (caught ms) ->
  exists e, ex = FellThrough (Some e) /\ is_lock_error e = true.
Proof.
  induction 1 as [a last|k a last|k a last e Hc|k a last e evs ex Hl Ha Hrec IH];
    intros Hpos Hall Hlock.
  - lia.
  - discriminate.
  - exists e. split; [reflexivity|]. now inversion Hlock.
  - change (attempts (EvMkdir dir :: EvCaught e :: EvSleep (wait_time a) :: evs))
      with (S (attempts evs)) in Hall.
    change (caught (EvMkdir dir :: EvCaught e :: EvSleep (wait_time a) :: evs))
      with (e :: caught evs) in Hall, Hlock.
    cbn [length] in Hall. apply Nat.succ_inj in Hall.
    inversion Hlock as [|? ? Hhead Hrest]; subst.
    destruct k as [|k].
    + inversion Hrec; subst. exists e. now split.
    + apply IH; [lia | exact Hall | exact Hrest].
Qed.

Lemma lock_error_is_oserror e : is_lock_error e = true -> is_oserror e = true.
Proof. unfold is_lock_error. now intros [? _]%andb_true_iff. Qed.

(** A call in which every attempt ends in a lock error made [max_retries]
    attempts, slept between them and not after the last, and raises an
    [OSError]: the last lock error, or the error of the probe for the
    staging file. *)
Lemma retry_ceiling path temp content max_retries fs ds script w' r :
  (0 < max_retries)%Z ->
  temp_path_of path = Return temp ->
  atomic_write path content max_retries (boot fs ds script) = (w', r) ->
  attempts (trace w') = length (caught (trace w')) ->
  Forall (fun e => is_lock_error e = true) (caught (trace w')) ->
  attempts (trace w') = Z.to_nat max_retries /\
  sleeps (trace w') =
    List.map (fun i => wait_time (Z.of_nat i)) (seq 0 (Z.to_nat max_retries - 1)) /\
  exists e, r = Raise e /\ is_oserror e = true.
Proof.
  intros Hpos Ht Hrun Hall Hlock.
  destruct (atomic_write_marks _ _ _ _ _ _ _ Ht Hrun)
    as (ex & evs & tail & T & Mt & L & Hr).
  cbn [trace boot app] in T.
  rewrite <- attempts_marks, <- caught_marks, T, marks_app, Mt, app_nil_r in Hall.
  rewrite <- caught_marks, T, marks_app, Mt, app_nil_r in Hlock.
  destruct (loop_marks_persistent _ _ _ _ _ _ _ L) as (e0 & -> & He0);
    [lia | exact Hall | exact Hlock |].
  destruct (loop_marks_ceiling _ _ _ _ _ _ _ L) as [Ha Hs]; try lia; [exact He0|].
  rewrite <- attempts_marks, <- sleeps_marks, T, marks_app, Mt, app_nil_r.
  split; [exact Ha|]. split; [exact Hs|].
  destruct Hr as (e & -> & He). exists e. split; [reflexivity|].
  destruct He as [-> | He]; [now apply lock_error_is_oserror | exact He].
Qed.

End CeilingFacts.

(** C4 as stated fails: against a target that stays locked, a call with
    three retries makes three attempts and fails, but it sleeps only
    between attempts, twice (10 ms and 20 ms, 30 ms in all); there is no
    third sleep of 40 ms and the total is not 70 ms. *)
Lemma retry_sleeps_twice_not_thrice :
  let target := Spec.cache_file "a.parquet" in
  let run := Persist.atomic_write target (Persist.PBytes (Py.lit "new")) 3
               (Persist.boot {[ target := Py.lit "old" ]} ∅ Spec.locked_target_script) in
  (exists e, snd run = Py.Raise e /\ Persist.is_lock_error e = true) /\
  Persist.attempts (Fs.trace (fst run)) = 3%nat /\
  length (Persist.sleeps (Fs.trace (fst run))) = 2%nat /\
  (Persist.total (Persist.sleeps (Fs.trace (fst run))) == 30 # 1000)%Q /\
  ~ (Persist.total (Persist.sleeps (Fs.trace (fst run))) == 70 # 1000)%Q.
Proof.
  cbv zeta. split; [|split; [|split; [|split]]].
  - eexists. split; vm_compute; reflexivity.
  - vm_compute. reflexivity.
  - vm_compute. reflexivity.
  - vm_compute. reflexivity.
  - vm_compute. discriminate.
Qed.

(** C4, amended. Take a call with three retries in which every attempt
    ends in an error and every such error is a transient lock error (the
    target stays locked). It makes exactly three attempts and then fails
    (with an [OSError]: the last lock error, or the error of the probe for
    the staging file when that fails), and it sleeps between attempts
    only: [10 ms * 2^attempt] after the first and after the second
    attempt, that is 10 ms and 20 ms, 30 ms in all, and not after the
    last. *)
Theorem retry_ceiling_three_attempts
    (path temp : Pathlib.Path) (content : Persist.payload)
    (fs : gmap Pathlib.Path Py.bytes) (ds : gset Pathlib.Path)
    (script : list Fs.fault) (w' : Fs.World) (r : Py.outcome unit) :
  Persist.temp_path_of path = Py.Return temp ->
  Persist.atomic_write path content 3 (Persist.boot fs ds script) = (w', r) ->
  Persist.attempts (Fs.trace w') = length (Persist.caught (Fs.trace w')) ->
  Forall (fun e => Persist.is_lock_error e = true) (Persist.caught (Fs.trace w')) ->
  Persist.attempts (Fs.trace w') = 3%nat /\
  (exists e, r = Py.Raise e /\ Py.is_oserror e = true) /\
  Persist.sleeps (Fs.trace w') = [Persist.wait_time 0; Persist.wait_time 1] /\
  (Persist.wait_time 0 == 10 # 1000)%Q /\
  (Persist.wait_time 1 == 20 # 1000)%Q /\
  (Persist.total (Persist.sleeps (Fs.trace w')) == 30 # 1000)%Q.
Proof.
  intros Ht Hrun Hall Hlock.
  destruct (retry_ceiling _ _ _ 3 _ _ _ _ _ ltac:(lia) Ht Hrun Hall Hlock)
    as (Ha & Hs & Hfail).
  split; [exact Ha|]. split; [exact Hfail|]. split; [exact Hs|].
  rewrite Hs. repeat split; reflexivity.
Qed.

Lemma retry_ceiling_witness :
  let target := Spec.cache_file "a.parquet" in
  let run := Persist.atomic_write target (Persist.PBytes (Py.lit "new")) 3
               (Persist.boot {[ target := Py.lit "old" ]} ∅ Spec.locked_target_script) in
  Persist.attempts (Fs.trace (fst run)) = 3%nat /\
  (exists e, snd run = Py.Raise e /\ Py.is_oserror e = true) /\
  Persist.sleeps (Fs.trace (fst run)) = [Persist.wait_time 0; Persist.wait_time 1] /\
  (Persist.wait_time 0 == 10 # 1000)%Q /\
  (Persist.wait_time 1 == 20 # 1000)%Q /\
  (Persist.total (Persist.sleeps (Fs.trace (fst run))) == 30 # 1000)%Q.
Proof.
  cbv zeta.
  apply (retry_ceiling_three_attempts (Spec.cache_file "a.parquet")
           (Spec.cache_file "a.tmp")
           (Persist.PBytes (Py.lit "new")) {[ Spec.cache_file "a.parquet" := Py.lit "old" ]}
           ∅ Spec.locked_target_script).
  - reflexivity.
  - apply surjective_pairing.
  - vm_compute. reflexivity.
  - vm_compute. repeat constructor.
Defined.

(** With [max_retries = 0] no attempt is made and no error is observed,
    yet the call fails, with a [RuntimeError] of its own. *)
Example failure_without_observed_error :
  let target := Spec.cache_file "a.parquet" in
  let run := Persist.atomic_write target (Persist.PBytes (Py.lit "new")) 0
               (Persist.boot ∅ ∅ []) in
  snd run = Py.Raise (Py.Exn Py.RuntimeError (Py.lit "Failed to write cache/a.parquet")) /\
  Persist.caught (Fs.trace (fst run)) = [] /\
  Persist.attempts (Fs.trace (fst run)) = 0%nat.
Proof. cbv zeta. repeat split; vm_compute; reflexivity. Qed.

(** The removal of the staging file fails with an error of its own, and
    the error raised is still the one bound in the loop. *)
Example cleanup_failure_is_not_raised :
  let target := Spec.cache_file "a.parquet" in
  let run := Persist.atomic_write target (Persist.PBytes (Py.lit "new")) 1
               (Persist.boot ∅ ∅ [Fs.NoFault; Fs.NoFault; Fs.NoFault;
                                   Spec.disk_full_after 2; Fs.NoFault;
                                   Spec.permission_denied]) in
  snd run = Py.Raise (Py.Exn (Py.OS Py.OSError) (Py.lit "[Errno 28] No space left on device")) /\
  Fs.files (fst run) !! Spec.cache_file "a.tmp" = Some (Py.lit "ne").
Proof. cbv zeta. split; vm_compute; reflexivity. Qed.

(** C5. The error a failed call raises is not always the last one the
    loop observed: the statements after the loop probe for the staging
    file with [temp_path.exists()] outside any [try], and when that probe
    raises, its error is what the caller gets. Take a target in a
    directory whose name is too long for the file system. The [mkdir] of
    the first attempt fails with ENAMETOOLONG, which is no lock error, so
    the loop is left with it as [last_error] and it is the error logged;
    the probe then fails on the staging path, and the call raises the
    probe's error, another exception with another text. The intent
    written next to the removal of the staging file ("Couldn't clean up,
    but log the real error") holds for that removal only (lemma
    [fail_after_loop_raises]). *)
Theorem cleanup_probe_masks_last_error :
  let target := [Spec.long_name; Py.lit "x"] in
  let staging := [Spec.long_name; Py.lit "x.tmp"] in
  let seen := Py.Exn (Py.OS Py.OSError)
                (Py.lit "[Errno 36] File name too long: '" ++ Spec.long_name ++
                 Py.lit "'") in
  let raised := Py.Exn (Py.OS Py.OSError)
                  (Py.lit "[Errno 36] File name too long: '" ++ Spec.long_name ++
                   Py.lit "/x.tmp'") in
  let run := Persist.atomic_write target (Persist.PBytes (Py.lit "new")) 3
               (Persist.boot ∅ ∅ [Spec.name_too_long [Spec.long_name];
                                   Spec.name_too_long staging]) in
  Persist.temp_path_of target = Py.Return staging /\
  Fs.trace (fst run)
  = [Fs.EvMkdir [Spec.long_name]; Fs.EvCaught seen; Fs.EvLog (Py.lit "error");
     Fs.EvExists staging] /\
  Persist.caught (Fs.trace (fst run)) = [seen] /\
  snd run = Py.Raise raised /\
  raised <> seen.
Proof.
  cbv zeta. split; [|split; [|split; [|split]]].
  - vm_compute. reflexivity.
  - vm_compute. reflexivity.
  - vm_compute. reflexivity.
  - vm_compute. reflexivity.
  - vm_compute. discriminate.
Qed.

Section MkdirFacts.
Import Py Pathlib Fs Persist Spec.
Local Open Scope fs_scope.

Lemma mkdir_parents_trace p w w1 r :
  mkdir_parents p w = (w1, r) ->
  trace w1 = trace w ++ [EvMkdir p] /\ files w1 = files w /\
  snapshots w1 = snapshots w.
Proof.
  unfold mkdir_parents, bind, emit, next_fault, get_files, get_dirs, set_dirs, raise.
  destruct (refused p); [intros [= <- _]; repeat split|].
  cbn [faults files dirs trace snapshots].
  destruct (faults w) as [|[|c msg|n c msg] rest]; cbn [files dirs trace snapshots];
    try (intros [= <- _]; repeat split);
    destruct (existsb _ (prefixes p)); intros [= <- _]; repeat split.
Qed.

Lemma write_attempt_fails_at_mkdir path temp mode content w w1 e :
  mkdir_parents (parent path) w = (w1, Raise e) ->
  write_attempt path temp mode content w = (w1, Raise e).
Proof. intros H. unfold write_attempt, bind at 1. now rewrite H. Qed.

(** One iteration in which [mkdir] raises [e]: the handler decides as for
    any other error of the attempt. *)
Lemma attempt_loop_mkdir_failure path temp mode content max_retries k a last w w1 e :
  mkdir_parents (parent path) w = (w1, Raise e) ->
  attempt_loop path temp mode content max_retries (S k) a last w =
  if is_lock_error e && (a <? max_retries - 1)%Z
  then attempt_loop path temp mode content max_retries k (a + 1)%Z (Some e)
         (traced w1 [EvCaught e; EvLog (lit "debug"); EvSleep (wait_time a)])
  else (traced w1 [EvCaught e], Return (FellThrough (Some e))).
Proof.
  intros H. cbn [attempt_loop]. unfold bind at 1, attempt at 1.
  rewrite (write_attempt_fails_at_mkdir _ _ _ _ _ _ _ H).
  unfold bind at 1, emit at 1. cbv beta iota.
  destruct (is_lock_error e && (a <? max_retries - 1)%Z) eqn:Hc.
  - assert (Hos : is_oserror e = true).
    { apply andb_true_iff in Hc as [Hl _]. unfold is_lock_error in Hl.
      now apply andb_true_iff in Hl as [? _]. }
    rewrite Hos. unfold bind at 1, log, emit at 1. cbv beta iota.
    unfold bind at 1, sleep, emit at 1. cbv beta iota.
    f_equal. unfold traced. cbn [files dirs faults trace snapshots].
    f_equal. now rewrite <- !app_assoc.
  - destruct (is_oserror e); reflexivity.
Qed.

End MkdirFacts.

(** C2 as stated fails: [mkdir] sits inside the retried block. When the
    parent directory cannot be created at first because of a permission
    error, the call sleeps, tries again, and here even succeeds: the
    failure is retried and never reaches the caller. *)
Lemma mkdir_failure_is_retried :
  let target := Spec.cache_file "a.parquet" in
  let run := Persist.atomic_write target (Persist.PBytes (Py.lit "new")) 3
               (Persist.boot ∅ ∅ [Spec.permission_denied]) in
  firstn 2 (Fs.trace (fst run)) =
    [Fs.EvMkdir [Py.lit "cache"];
     Fs.EvCaught (Py.Exn (Py.OS Py.PermissionError)
                    (Py.lit "[Errno 13] Permission denied: 'cache'"))] /\
  snd run = Py.Return tt /\
  Persist.sleeps (Fs.trace (fst run)) = [Persist.wait_time 0] /\
  Persist.attempts (Fs.trace (fst run)) = 2%nat /\
  Fs.files (fst run) !! target = Some (Py.lit "new").
Proof. cbv zeta. repeat split; vm_compute; reflexivity. Qed.

(** C2, amended. A failure of the [mkdir] of an attempt is handled like
    any other error of that attempt. In whichever iteration it happens,
    the handler binds the error and then either retries (when the error is
    an [OSError] whose text has one of the two lock markers and the
    attempt is not the last: a debug log, the backoff sleep, the next
    iteration) or leaves the loop with it; and once the loop is left with
    it, the function makes no further attempt and does not sleep: it
    probes for the staging file and raises the error, unless the probe
    itself raises, whose error then reaches the caller in its place. For
    a call whose first [mkdir] fails this means: if the error is not
    retried, the call ends at once, with no sleep and no further attempt,
    raising that error (or the probe's); if it is, the call sleeps
    [wait_time 0] and calls [mkdir] again. *)
Theorem mkdir_failure_follows_retry_policy
    (path temp : Pathlib.Path) (content : Persist.payload) (max_retries : Z)
    (w w1 w' : Fs.World) (e : Py.exn) (r : Py.outcome unit)
    (k : nat) (a : Z) (last : option Py.exn) :
  Persist.temp_path_of path = Py.Return temp ->
  Fs.mkdir_parents (Pathlib.parent path) w = (w1, Py.Raise e) ->
  (0 < max_retries)%Z ->
  Persist.atomic_write path content max_retries w = (w', r) ->
  Persist.attempt_loop path temp (Persist.mode_of content) content max_retries
                       (S k) a last w =
    (if Persist.is_lock_error e && (a <? max_retries - 1)%Z
     then Persist.attempt_loop path temp (Persist.mode_of content) content
            max_retries k (a + 1)%Z (Some e)
            (Spec.traced w1 [Fs.EvCaught e; Fs.EvLog (Py.lit "debug");
                             Fs.EvSleep (Persist.wait_time a)])
     else (Spec.traced w1 [Fs.EvCaught e],
           Py.Return (Persist.FellThrough (Some e)))) /\
  (forall w2 w3 r3,
     Persist.fail_after_loop path temp (Some e) w2 = (w3, r3) ->
     match Fs.path_exists temp (Spec.traced w2 [Fs.EvLog (Py.lit "error")]) with
     | (_, Py.Raise e') => r3 = Py.Raise e'
     | (_, Py.Return _) => r3 = Py.Raise e
     end /\
     exists tail, Fs.trace w3 = Fs.trace w2 ++ tail /\
       Persist.sleeps tail = [] /\ Persist.attempts tail = 0%nat) /\
  (if Persist.is_lock_error e && (0 <? max_retries - 1)%Z
   then exists evs,
          Fs.trace w' = Fs.trace w ++
            [Fs.EvMkdir (Pathlib.parent path); Fs.EvCaught e;
             Fs.EvLog (Py.lit "debug"); Fs.EvSleep (Persist.wait_time 0);
             Fs.EvMkdir (Pathlib.parent path)] ++ evs
   else match Fs.path_exists temp
                  (Spec.traced (Spec.traced w1 [Fs.EvCaught e])
                               [Fs.EvLog (Py.lit "error")]) with
        | (_, Py.Raise e') => r = Py.Raise e'
        | (_, Py.Return _) => r = Py.Raise e
        end /\
        exists tail,
          Fs.trace w' = Fs.trace w ++
            [Fs.EvMkdir (Pathlib.parent path); Fs.EvCaught e] ++ tail /\
          Persist.sleeps tail = [] /\ Persist.attempts tail = 0%nat).
Proof.
  intros Ht Hmk Hpos Hrun.
  split; [now apply attempt_loop_mkdir_failure|].
  split.
  { intros w2 w3 r3 H.
    apply fail_after_loop_raises in H as ((e0 & -> & He0) & tail & T & Mt).
    split.
    - destruct (Fs.path_exists temp _) as [w4 [b|e']]; now subst e0.
    - exists tail. split; [exact T|].
      rewrite <- sleeps_marks, <- attempts_marks, Mt. split; reflexivity. }
  destruct (mkdir_parents_trace _ _ _ _ Hmk) as (Tmk & _ & _).
  unfold Persist.atomic_write in Hrun. rewrite Ht in Hrun.
  destruct (Z.to_nat max_retries) as [|k0] eqn:Hk; [lia|].
  unfold Fs.bind at 1 in Hrun.
  rewrite (attempt_loop_mkdir_failure _ _ _ _ _ _ _ _ _ _ _ Hmk) in Hrun.
  destruct (Persist.is_lock_error e && (0 <? max_retries - 1)%Z) eqn:Hc.
  - apply andb_true_iff in Hc as [_ Hlt]. apply Z.ltb_lt in Hlt.
    destruct k0 as [|k1]; [lia|].
    destruct (Persist.attempt_loop _ _ _ _ _ (S k1) _ _ _) as [w3 r3] eqn:EL.
    apply attempt_loop_marks in EL as (ex & evs & -> & T & _ & evs' & ->).
    cbn [Fs.trace Spec.traced] in T. rewrite Tmk, <- !app_assoc in T.
    destruct ex as [|le].
    + injection Hrun as <- _. exists evs'. rewrite T. reflexivity.
    + apply fail_after_loop_raises in Hrun as (_ & tail & T' & _).
      exists (evs' ++ tail). rewrite T', T, <- !app_assoc. reflexivity.
  - apply fail_after_loop_raises in Hrun as ((e0 & -> & He0) & tail & T' & Mt).
    split.
    + destruct (Fs.path_exists temp _) as [w4 [b|e']]; now subst e0.
    + exists tail.
      cbn [Fs.trace Spec.traced] in T'. rewrite Tmk, <- !app_assoc in T'.
      split; [exact T'|].
      rewrite <- sleeps_marks, <- attempts_marks, Mt. split; reflexivity.
Qed.

Lemma mkdir_failure_witness :
  let target := Spec.cache_file "a.parquet" in
  let w := Persist.boot ∅ ∅ [Spec.permission_denied] in
  let run := Persist.atomic_write target (Persist.PBytes (Py.lit "new")) 1 w in
  snd run = Py.Raise (Py.Exn (Py.OS Py.PermissionError)
                        (Py.lit "[Errno 13] Permission denied: 'cache'")) /\
  exists tail,
    Fs.trace (fst run) =
      Fs.trace w ++
      [Fs.EvMkdir [Py.lit "cache"];
       Fs.EvCaught (Py.Exn (Py.OS Py.PermissionError)
                      (Py.lit "[Errno 13] Permission denied: 'cache'"))] ++ tail /\
    Persist.sleeps tail = [] /\ Persist.attempts tail = 0%nat.
Proof.
  cbv zeta.
  refine (proj2 (proj2 (mkdir_failure_follows_retry_policy
            (Spec.cache_file "a.parquet") (Spec.cache_file "a.tmp")
            (Persist.PBytes (Py.lit "new")) 1
            (Persist.boot ∅ ∅ [Spec.permission_denied])
            (fst (Fs.mkdir_parents [Py.lit "cache"]
                    (Persist.boot ∅ ∅ [Spec.permission_denied])))
            _
            (Py.Exn (Py.OS Py.PermissionError)
               (Py.lit "[Errno 13] Permission denied: 'cache'"))
            _ 0%nat 0%Z None _ _ _ _))).
  - reflexivity.
  - vm_compute. reflexivity.
  - lia.
  - apply surjective_pairing.
Defined.

(** ** The target file during a persist call *)

Section TargetFacts.
Import Py Pathlib Fs Persist Spec.
Local Open Scope fs_scope.

Variable target : Path.

Lemma unchanged_same w w' :
  files w' = files w -> snapshots w' = snapshots w -> unchanged_at target w w'.
Proof.
  intros Hf Hs. split; [now rewrite Hf|]. exists []. rewrite app_nil_r.
  split; [exact Hs | constructor].
Qed.

Lemma unchanged_set w w' :
  snapshots w' = snapshots w ++ [files w'] ->
  files w' !! target = files w !! target -> unchanged_at target w w'.
Proof.
  intros Hs Hf. split; [exact Hf|]. exists [files w'].
  split; [exact Hs | now repeat constructor].
Qed.

Lemma unchanged_trans w w1 w2 :
  unchanged_at target w w1 -> unchanged_at target w1 w2 ->
  unchanged_at target w w2.
Proof.
  intros (H1 & s1 & S1 & F1) (H2 & s2 & S2 & F2). split; [congruence|].
  exists (s1 ++ s2). split; [rewrite S2, S1; symmetry; apply app_assoc|].
  apply Forall_app. split; [exact F1|].
  eapply Forall_impl; [exact F2|]. cbv beta. intros f Hf. congruence.
Qed.

Lemma keeps_ret {A} (a : A) : keeps target (ret a).
Proof. intros w w' r [= <- _]. now apply unchanged_same. Qed.

Lemma keeps_raise {A} e : keeps target (@raise A e).
Proof. intros w w' r [= <- _]. now apply unchanged_same. Qed.

Lemma keeps_bind {A B} (m : M A) (k : A -> M B) :
  keeps target m -> (forall a, keeps target (k a)) -> keeps target (bind m k).
Proof.
  intros Hm Hk w w' r. unfold bind.
  destruct (m w) as [w1 [a|e]] eqn:E; intros H.
  - eapply unchanged_trans; [exact (Hm _ _ _ E) | exact (Hk a _ _ _ H)].
  - injection H as <- _. exact (Hm _ _ _ E).
Qed.

Lemma keeps_attempt {A} (m : M A) : keeps target m -> keeps target (attempt m).
Proof.
  intros Hm w w' r. unfold attempt.
  destruct (m w) as [w1 r1] eqn:E. intros [= <- _]. exact (Hm _ _ _ E).
Qed.

Lemma keeps_emit ev : keeps target (emit ev).
Proof. intros w w' r [= <- _]. now apply unchanged_same. Qed.

Lemma keeps_next_fault : keeps target next_fault.
Proof.
  intros w w' r. unfold next_fault.
  destruct (faults w); intros [= <- _]; now apply unchanged_same.
Qed.

Lemma keeps_mkdir_parents p : keeps target (mkdir_parents p).
Proof.
  intros w w' r H. apply mkdir_parents_trace in H as (_ & Hf & Hs).
  now apply unchanged_same.
Qed.

Lemma keeps_path_exists p : keeps target (path_exists p).
Proof.
  intros w w' r.
  unfold path_exists, bind, emit, next_fault, get_files, get_dirs, raise, ret.
  destruct (refused p); [intros [= <- _]; now apply unchanged_same|].
  cbn [faults files dirs trace snapshots].
  destruct (faults w) as [|[|c msg|n c msg] rest]; cbn [files dirs trace snapshots];
    try (intros [= <- _]; now apply unchanged_same);
    (destruct (ignored_by_exists c); intros [= <- _]; now apply unchanged_same).
Qed.

Lemma keeps_log level : keeps target (log level).
Proof. apply keeps_emit. Qed.

Lemma keeps_sleep q : keeps target (sleep q).
Proof. apply keeps_emit. Qed.

Lemma keeps_unlink p : p <> target -> keeps target (unlink p).
Proof.
  intros Hp w w' r.
  unfold unlink, bind, emit, next_fault, get_files, get_dirs, set_files, raise.
  destruct (refused p); [intros [= <- _]; now apply unchanged_same|].
  cbn [faults files dirs trace snapshots].
  destruct (faults w) as [|[|c msg|n c msg] rest]; cbn [files dirs trace snapshots];
    try (intros [= <- _]; now apply unchanged_same);
    (destruct (files w !! p);
     [|destruct (bool_decide (p ∈ dirs w))]; intros [= <- _];
     [apply unchanged_set; [reflexivity | cbn; now apply lookup_delete_ne]
     | now apply unchanged_same ..]).
Qed.

Lemma keeps_open_write p mode : p <> target -> keeps target (open_write p mode).
Proof.
  intros Hp w w' r.
  unfold open_write, bind, emit, next_fault, get_files, get_dirs, set_files, raise.
  destruct (refused p); [intros [= <- _]; now apply unchanged_same|].
  cbn [faults files dirs trace snapshots].
  destruct (faults w) as [|[|c msg|n c msg] rest]; cbn [files dirs trace snapshots];
    try (intros [= <- _]; now apply unchanged_same);
    (destruct (bool_decide (p ∈ dirs w)); intros [= <- _];
     [now apply unchanged_same
     | apply unchanged_set; [reflexivity | cbn; now apply lookup_insert_ne]]).
Qed.

(** A write leaves other files alone; when it returns, the file holds all
    of the data. *)
Lemma write_close_spec p data w w' r :
  p <> target -> write_close p data w = (w', r) ->
  unchanged_at target w w' /\ (r = Return tt -> files w' !! p = Some data).
Proof.
  intros Hp.
  unfold write_close, bind, emit, next_fault, get_files, set_files, raise.
  cbn [faults files dirs trace snapshots].
  destruct (faults w) as [|[|c msg|n c msg] rest]; cbn [files dirs trace snapshots];
    intros [= <- <-]; (split; [|try discriminate]).
  - apply unchanged_set; [reflexivity | cbn; now apply lookup_insert_ne].
  - intros _. cbn. apply lookup_insert_eq.
  - apply unchanged_set; [reflexivity | cbn; now apply lookup_insert_ne].
  - intros _. cbn. apply lookup_insert_eq.
  - now apply unchanged_same.
  - apply unchanged_set; [reflexivity | cbn; now apply lookup_insert_ne].
Qed.

Lemma keeps_unlink_quietly p : p <> target -> keeps target (unlink_quietly p).
Proof.
  intros Hp. unfold unlink_quietly. apply keeps_bind.
  - now apply keeps_attempt, keeps_unlink.
  - intros [[]|e]; [apply keeps_ret|].
    destruct (is_oserror e); [apply keeps_ret | apply keeps_raise].
Qed.

Lemma write_file_spec p mode content w w' r :
  p <> target -> write_file p mode content w = (w', r) ->
  unchanged_at target w w' /\
  (r = Return tt ->
   exists data,
     match content with PBytes b => Return b | PStr s => encode s end = Return data /\
     files w' !! p = Some data).
Proof.
  intros Hp. unfold write_file, bind at 1.
  destruct (open_write p mode w) as [w1 [[]|e]] eqn:E1.
  - pose proof (keeps_open_write p mode Hp _ _ _ E1) as K1.
    destruct content as [s|b].
    + destruct (encode s) as [data|e] eqn:He.
      * intros H. destruct (write_close_spec _ _ _ _ _ Hp H) as [K2 Hd].
        split; [eapply unchanged_trans; eassumption|].
        intros Hr. exists data. split; [reflexivity | exact (Hd Hr)].
      * intros [= <- <-]. split; [exact K1 | discriminate].
    + intros H. destruct (write_close_spec _ _ _ _ _ Hp H) as [K2 Hd].
      split; [eapply unchanged_trans; eassumption|].
      intros Hr. exists b. split; [reflexivity | exact (Hd Hr)].
  - intros [= <- <-]. split; [|discriminate].
    exact (keeps_open_write p mode Hp _ _ _ E1).
Qed.

(** The rename: either it fails and nothing changed, or the target now
    holds what the source held. *)
Lemma replace_spec src w w' r :
  src <> target -> replace src target w = (w', r) ->
  match r with
  | Raise _ => unchanged_at target w w'
  | Return _ =>
      exists data, files w !! src = Some data /\
        files w' !! target = Some data /\
        snapshots w' = snapshots w ++ [files w']
  end.
Proof.
  intros Hp.
  unfold replace, bind, emit, next_fault, get_files, get_dirs, set_files, raise.
  destruct (refused src); [intros [= <- <-]; now apply unchanged_same|].
  destruct (refused target); [intros [= <- <-]; now apply unchanged_same|].
  cbn [faults files dirs trace snapshots].
  destruct (faults w) as [|[|c msg|n c msg] rest]; cbn [files dirs trace snapshots];
    try (intros [= <- <-]; now apply unchanged_same);
    (destruct (files w !! src) as [data|] eqn:Hsrc;
     [destruct (bool_decide (target ∈ dirs w))|]; intros [= <- <-];
     try (now apply unchanged_same);
     exists data; cbn; repeat split; apply lookup_insert_eq).
Qed.

End TargetFacts.

Section CommitFacts.
Import Py Pathlib Fs Persist Spec.
Local Open Scope fs_scope.

Variables (path temp : Path) (content : payload).
Hypothesis staging_apart : temp <> path.

Lemma committed_after_unchanged w w1 w2 :
  unchanged_at path w w1 -> committed_at path content w1 w2 ->
  committed_at path content w w2.
Proof.
  intros (H1 & s1 & S1 & F1) (data & Hd & Hf & s2 & S2 & F2).
  exists data. split; [exact Hd|]. split; [exact Hf|].
  exists (s1 ++ s2). split; [rewrite S2, S1; symmetry; apply app_assoc|].
  apply Forall_app. split.
  - eapply Forall_impl; [exact F1|]. cbv beta. intros f Hf'. now left.
  - eapply Forall_impl; [exact F2|]. cbv beta. intros f [Hf'|Hf']; [left|right]; congruence.
Qed.

(** One attempt: it raises and the target is as before, or it returns and
    the target holds the whole payload. *)
Lemma write_attempt_spec mode w w' r :
  write_attempt path temp mode content w = (w', r) ->
  match r with
  | Raise _ => unchanged_at path w w'
  | Return _ => committed_at path content w w'
  end.
Proof.
  unfold write_attempt.
  set (prefix := mkdir_parents (parent path) ;;;
                 stale <~ path_exists temp ;;
                 (if stale then unlink_quietly temp else ret tt)).
  assert (Hprefix : keeps path prefix).
  { apply keeps_bind; [apply keeps_mkdir_parents|]. intros _.
    apply keeps_bind; [apply keeps_path_exists|]. intros [|];
      [now apply keeps_unlink_quietly | apply keeps_ret]. }
  assert (Hsplit : forall w,
    (mkdir_parents (parent path) ;;;
     stale <~ path_exists temp ;;
     (if stale then unlink_quietly temp else ret tt) ;;;
     write_file temp mode content ;;; replace temp path) w =
    (prefix ;;; write_file temp mode content ;;; replace temp path) w).
  { intros w0. unfold prefix, bind.
    destruct (mkdir_parents (parent path) w0) as [w1 [[]|e]]; [|reflexivity].
    destruct (path_exists temp w1) as [w2 [b|e]]; reflexivity. }
  rewrite Hsplit. unfold bind at 1.
  destruct (prefix w) as [w1 [[]|e]] eqn:E1.
  - pose proof (Hprefix _ _ _ E1) as K1. unfold bind at 1.
    destruct (write_file temp mode content w1) as [w2 [[]|e]] eqn:E2.
    + destruct (write_file_spec path _ _ _ _ _ _ staging_apart E2) as [K2 Hd].
      destruct (Hd eq_refl) as (data & Hdata & Htemp).
      intros H. pose proof (replace_spec path _ _ _ _ staging_apart H) as Hr.
      destruct r as [[]|e].
      * destruct Hr as (data' & Hsrc & Hdst & Hs).
        assert (data' = data) as -> by congruence.
        eapply committed_after_unchanged;
          [eapply unchanged_trans; eassumption|].
        exists data. split; [exact Hdata|]. split; [exact Hdst|].
        exists [files w']. split; [exact Hs|].
        constructor; [now right | constructor].
      * eapply unchanged_trans; [|exact Hr].
        eapply unchanged_trans; eassumption.
    + intros [= <- <-].
      destruct (write_file_spec path _ _ _ _ _ _ staging_apart E2) as [K2 _].
      eapply unchanged_trans; eassumption.
  - intros [= <- <-]. exact (Hprefix _ _ _ E1).
Qed.

(** The loop: it returns with the payload committed, or falls through
    with the target as before. *)
Lemma attempt_loop_spec mode max_retries k :
  forall a last w w' r,
    attempt_loop path temp mode content max_retries k a last w = (w', r) ->
    match r with
    | Return Returned => committed_at path content w w'
    | _ => unchanged_at path w w'
    end.
Proof.
  induction k as [|k IH]; intros a last w w' r; cbn [attempt_loop].
  - intros [= <- <-]. now apply unchanged_same.
  - unfold bind at 1, attempt at 1.
    destruct (write_attempt path temp mode content w) as [w1 r1] eqn:E1.
    pose proof (write_attempt_spec _ _ _ _ E1) as H1.
    destruct r1 as [[]|e].
    + intros [= <- <-]. exact H1.
    + unfold bind at 1, emit at 1. cbv beta iota.
      destruct (is_oserror e);
        [destruct (is_lock_error e && (a <? max_retries - 1)%Z)|].
      * unfold bind at 1, log, emit at 1. cbv beta iota.
        unfold bind at 1, sleep, emit at 1. cbv beta iota.
        intros H. specialize (IH _ _ _ _ _ H).
        assert (H1' : forall w2, unchanged_at path
                  {| files := files w1; dirs := dirs w1; faults := faults w1;
                     trace := ((trace w1 ++ [EvCaught e]) ++ [EvLog (lit "debug")])
                              ++ [EvSleep (wait_time a)];
                     snapshots := snapshots w1 |} w2 -> unchanged_at path w1 w2)
          by (intros w2 Hu; exact Hu).
        destruct r as [[|le]|e'].
        -- eapply committed_after_unchanged; [exact H1|].
           destruct IH as (data & Hd & Hf & snaps & Hs & HF).
           exists data. split; [exact Hd|]. split; [exact Hf|].
           exists snaps. split; [exact Hs | exact HF].
        -- eapply unchanged_trans; [exact H1 | exact (H1' _ IH)].
        -- eapply unchanged_trans; [exact H1 | exact (H1' _ IH)].
      * intros [= <- <-]. exact H1.
      * intros [= <- <-]. exact H1.
Qed.

Lemma keeps_fail_after_loop last : keeps path (fail_after_loop path temp last).
Proof.
  unfold fail_after_loop. apply keeps_bind; [apply keeps_log|]. intros _.
  apply keeps_bind; [apply keeps_path_exists|]. intros b.
  apply keeps_bind; [|intros _; apply keeps_raise].
  destruct b; [now apply keeps_unlink_quietly | apply keeps_ret].
Qed.

End CommitFacts.

(** When the staging path differs from the target, [atomic_write] changes
    the target by the rename alone: a call that raises leaves the target
    as it was, at the end and at every instant in between, and a call that
    returns has put the whole payload there, with nothing in between. *)
Lemma atomic_write_all_or_nothing
    (path temp : Pathlib.Path) (content : Persist.payload) (max_retries : Z)
    (w w' : Fs.World) (r : Py.outcome unit) :
  Persist.temp_path_of path = Py.Return temp -> temp <> path ->
  Persist.atomic_write path content max_retries w = (w', r) ->
  match r with
  | Py.Raise _ => Spec.unchanged_at path w w'
  | Py.Return _ => Spec.committed_at path content w w'
  end.
Proof.
  intros Ht Hne. unfold Persist.atomic_write. rewrite Ht. unfold Fs.bind at 1.
  destruct (Persist.attempt_loop _ _ _ _ _ _ _ _ w) as [w1 r1] eqn:EL.
  pose proof (attempt_loop_spec _ _ _ Hne _ _ _ _ _ _ _ _ EL) as HL.
  destruct (attempt_loop_marks _ _ _ _ _ _ _ _ _ _ _ EL) as (ex & _ & -> & _).
  destruct ex as [|last].
  - intros [= <- <-]. exact HL.
  - intros H. pose proof (keeps_fail_after_loop _ _ Hne last _ _ _ H) as K.
    destruct (fail_after_loop_raises _ _ _ _ _ _ H) as [(e & -> & _) _].
    eapply unchanged_trans; eassumption.
Qed.

(** The staging path differs from the target unless the target's own
    suffix is ".tmp". *)
Lemma staging_apart_from_target (path temp : Pathlib.Path) :
  Persist.temp_path_of path = Py.Return temp ->
  Pathlib.suffix path <> Py.lit ".tmp" -> temp <> path.
Proof.
  intros Ht Hs E. subst temp. apply Hs.
  exact (temp_path_has_tmp_suffix _ _ Ht).
Qed.

(** C3. A failed call leaves the target as it was, and the target never
    holds a partial write, wherever the staging path differs from the
    target (lemma [atomic_write_all_or_nothing]); the code breaks both for
    a target whose own suffix is ".tmp". There the staging path is the target
    itself: the removal of the "stale staging file" deletes the target,
    the payload is written into it in place, and when the write fails
    half way the target has held a partial write and is finally removed by
    the cleanup. The call fails and the previous contents are gone. *)
Theorem tmp_target_is_written_in_place :
  let target := Spec.cache_file "data.tmp" in
  let w := Persist.boot {[ target := Py.lit "old" ]} ∅
             [Fs.NoFault; Fs.NoFault; Fs.NoFault; Fs.NoFault;
              Spec.disk_full_after 2] in
  let run := Persist.atomic_write target (Persist.PBytes (Py.lit "new")) 3 w in
  Persist.temp_path_of target = Py.Return target /\
  snd run = Py.Raise (Py.Exn (Py.OS Py.OSError)
                        (Py.lit "[Errno 28] No space left on device")) /\
  Fs.files w !! target = Some (Py.lit "old") /\
  Fs.files (fst run) !! target = None /\
  List.map (fun f : gmap Pathlib.Path Py.bytes => f !! target)
           (Fs.snapshots (fst run))
    = [None; Some []; Some (Py.lit "ne"); None].
Proof. cbv zeta. repeat split; vm_compute; reflexivity. Qed.

(* ===================================================================== *)
(** * Further properties                                                  *)
(* ===================================================================== *)

(** ** When key derivation fails *)

Section EncodeFacts.
Import Py Spec Env.

Lemma utf8_char_some c : is_scalar c = true -> exists bs, utf8_char c = Some bs.
Proof.
  intros Hc. unfold utf8_char. rewrite Hc. cbn [negb].
  destruct (c <? 0x80); [eauto|]. destruct (c <? 0x800); [eauto|].
  destruct (c <? 0x10000); eauto.
Qed.

Lemma utf8_char_not_scalar c : is_scalar c = false -> utf8_char c = None.
Proof.
  intros Hc. unfold utf8_char. rewrite Hc. cbn [negb].
  unfold is_scalar, is_surrogate in Hc.
  destruct (c <? 0x80) eqn:H1; [apply N.ltb_lt in H1|].
  { exfalso. apply andb_false_iff in Hc as [Hc|Hc].
    - apply N.ltb_ge in Hc. lia.
    - apply negb_false_iff, andb_true_iff in Hc as [Hc _].
      apply N.leb_le in Hc. lia. }
  destruct (c <? 0x800) eqn:H2; [apply N.ltb_lt in H2|reflexivity].
  exfalso. apply andb_false_iff in Hc as [Hc|Hc].
  - apply N.ltb_ge in Hc. lia.
  - apply negb_false_iff, andb_true_iff in Hc as [Hc _].
    apply N.leb_le in Hc. lia.
Qed.

(** [str.encode()] returns exactly on valid text. *)
Lemma encode_returns_iff s : (exists b, encode s = Return b) <-> valid_text s.
Proof.
  unfold valid_text. induction s as [|c s IH]; simpl.
  - split; [constructor | eauto].
  - split.
    + intros [b Hb]. destruct (is_scalar c) eqn:Hc.
      * constructor; [exact Hc|]. apply IH.
        destruct (utf8_char c); [|discriminate].
        destruct (encode s); [eauto | discriminate].
      * rewrite (utf8_char_not_scalar _ Hc) in Hb. discriminate.
    + intros H. inversion H as [|? ? Hc Hs]; subst.
      destruct (utf8_char_some _ Hc) as [bs ->].
      apply IH in Hs as [b ->]. simpl. eauto.
Qed.

Lemma lit_valid s : valid_text (lit s).
Proof.
  unfold valid_text, lit. apply List.Forall_forall. intros c Hc.
  apply List.in_map_iff in Hc as (a & <- & _).
  assert (N_of_ascii a < 256) by apply N_ascii_bounded.
  unfold is_scalar, is_surrogate.
  apply andb_true_iff. split; [apply N.ltb_lt; lia|].
  apply negb_true_iff, andb_false_iff. left. apply N.leb_gt. lia.
Qed.

Lemma hex_fixed_valid width v : valid_text (hex_fixed width v).
Proof.
  unfold valid_text. eapply Forall_impl; [apply hex_fixed_lower|].
  cbv beta. intros c Hc. unfold is_lower_hex in Hc.
  unfold is_scalar, is_surrogate.
  apply andb_true_iff. split.
  - apply N.ltb_lt.
    apply orb_true_iff in Hc as [Hc|Hc]; apply andb_true_iff in Hc as [_ Hc];
      apply N.leb_le in Hc; lia.
  - apply negb_true_iff, andb_false_iff. left. apply N.leb_gt.
    apply orb_true_iff in Hc as [Hc|Hc]; apply andb_true_iff in Hc as [_ Hc];
      apply N.leb_le in Hc; lia.
Qed.

Lemma small_is_scalar c : c < 0xD800 -> is_scalar c = true.
Proof.
  intros H. unfold is_scalar, is_surrogate.
  apply andb_true_iff. split; [apply N.ltb_lt; lia|].
  apply negb_true_iff, andb_false_iff. left. apply N.leb_gt. lia.
Qed.

Variable isprintable : N -> bool.
Hypothesis table : printable_is_scalar isprintable.

(** [repr] escapes what is not printable, so its output is valid text
    whatever the string holds. *)
Lemma repr_char_valid quote ch :
  quote = squote \/ quote = dquote -> valid_text (repr_char isprintable quote ch).
Proof.
  intros Hq. unfold repr_char.
  destruct ((ch =? quote) || (ch =? backslash)) eqn:H1.
  { constructor; [reflexivity|]. constructor; [|constructor].
    apply small_is_scalar.
    apply orb_true_iff in H1 as [H1|H1]; apply N.eqb_eq in H1; subst ch;
      [destruct Hq as [-> | ->]|]; reflexivity. }
  destruct (ch =? 9); [apply lit_valid|].
  destruct (ch =? 10); [apply lit_valid|].
  destruct (ch =? 13); [apply lit_valid|].
  destruct ((ch <? 32) || (ch =? 0x7F));
    [apply Forall_app; split; [apply lit_valid | apply hex_fixed_valid]|].
  destruct (ch <? 0x7F) eqn:H2.
  { apply N.ltb_lt in H2. constructor; [|constructor]. apply small_is_scalar. lia. }
  destruct (isprintable ch) eqn:Hp; cbn [negb].
  - constructor; [|constructor]. now apply table.
  - destruct (ch <=? 0xFF); [|destruct (ch <=? 0xFFFF)];
      (apply Forall_app; split; [apply lit_valid | apply hex_fixed_valid]).
Qed.

Lemma repr_str_valid s : valid_text (repr_str isprintable s).
Proof.
  unfold repr_str.
  assert (Hq : repr_quote s = squote \/ repr_quote s = dquote).
  { unfold repr_quote. destruct (_ && _); [now right | now left]. }
  assert (Hqv : is_scalar (repr_quote s) = true)
    by (apply small_is_scalar; destruct Hq as [-> | ->]; reflexivity).
  constructor; [exact Hqv|]. apply Forall_app. split.
  - remember (repr_quote s) as q eqn:Eq. clear Eq Hqv.
    induction s as [|c s' IH]; [constructor|].
    cbn [flat_map]. apply Forall_app. split; [now apply repr_char_valid | exact IH].
  - constructor; [exact Hqv | constructor].
Qed.

Lemma join_comma_valid parts :
  Forall valid_text parts -> valid_text (join_comma parts).
Proof.
  induction 1 as [|p rest Hp _ IH]; [constructor|].
  cbn [join_comma]. destruct rest as [|q rest]; [exact Hp|].
  apply Forall_app. split; [exact Hp|].
  apply Forall_app. split; [apply lit_valid | exact IH].
Qed.

Lemma str_of_columns_valid columns : valid_text (str_of_columns isprintable columns).
Proof.
  destruct columns as [cols|]; cbn [str_of_columns]; [|apply lit_valid].
  apply Forall_app. split; [apply lit_valid|].
  apply Forall_app. split; [|apply lit_valid].
  apply join_comma_valid. apply List.Forall_forall. intros p Hp.
  apply List.in_map_iff in Hp as (s & <- & _). apply repr_str_valid.
Qed.

End EncodeFacts.

(** X1. The key derivations fail exactly on text that UTF-8 cannot encode,
    and for [get_query_hash] only the key counts: [get_url_hash] returns a
    key if and only if every code point of the URL is a Unicode scalar
    value, and [get_query_hash] returns a key if and only if that holds of
    its [key] argument, whatever the column names contain, because
    [str(columns)] escapes every unprintable character. *)
Theorem key_derivation_fails_only_on_bad_key
    (isprintable : N -> bool) (url key : Py.str)
    (columns : option (list Py.str)) :
  Env.printable_is_scalar isprintable ->
  ((exists d, KeyDeriver.get_url_hash url = Py.Return d) <-> Env.valid_text url) /\
  ((exists d, KeyDeriver.get_query_hash isprintable key columns = Py.Return d)
   <-> Env.valid_text key).
Proof.
  intros Htable.
  assert (Hdigest : forall s,
            (exists d, Py.obind (Py.encode s)
                         (fun data => Py.Return (Sha256.hexdigest data)) = Py.Return d)
            <-> Env.valid_text s).
  { intros s. rewrite <- encode_returns_iff. split.
    - intros [d Hd]. destruct (Py.encode s); [eauto | discriminate].
    - intros [b ->]. simpl. eauto. }
  split; [apply Hdigest|].
  unfold KeyDeriver.get_query_hash. cbv zeta. rewrite Hdigest.
  unfold Env.valid_text. rewrite !Forall_app. split.
  - now intros [H _].
  - intros H. split; [exact H|]. split; [apply lit_valid|].
    now apply str_of_columns_valid.
Qed.

Lemma key_derivation_failure_witness :
  let isprintable := fun c => Py.is_scalar c && negb (c <? 32) in
  let cols := Some [[0xD800]; Py.lit "date"] in
  ((exists d, KeyDeriver.get_url_hash [0x68; 0xDFFF] = Py.Return d)
   <-> Env.valid_text [0x68; 0xDFFF]) /\
  ((exists d, KeyDeriver.get_query_hash isprintable (Py.lit "VALUE_1") cols
              = Py.Return d) <-> Env.valid_text (Py.lit "VALUE_1")).
Proof.
  cbv zeta.
  apply (key_derivation_fails_only_on_bad_key
           (fun c => Py.is_scalar c && negb (c <? 32))).
  intros c Hc. now apply andb_true_iff in Hc as [Hc _].
Defined.

(** A column name with a lone surrogate goes through; a URL with one does
    not. *)
Example surrogate_in_column_and_in_url :
  (exists d, KeyDeriver.get_query_hash (fun c => Py.is_scalar c && negb (c <? 32))
               (Py.lit "VALUE_1") (Some [[0xD800]; Py.lit "date"]) = Py.Return d) /\
  KeyDeriver.get_url_hash [0x68; 0xDFFF] = Py.Raise Py.encode_error.
Proof. split; [eexists|]; vm_compute; reflexivity. Qed.

(** ** Recovering a quoted source *)

Section RoundTripFacts.
Import Py Re Hints Spec.

Lemma search_skips_non_f pre rest :
  Forall (fun c => c <> 70 /\ c <> 102) pre ->
  search true url_pattern (pre ++ rest) = search true url_pattern rest.
Proof.
  induction 1 as [|c pre [H1 H2] _ IH]; [reflexivity|].
  cbn [app search]. rewrite match_url_pattern.
  assert (Hc : atom_matches true (ALit 70) c = false).
  { destruct (atom_matches true (ALit 70) c) eqn:E; [|reflexivity].
    apply (letter_matches 70) in E; [|lia..]. simpl in E. lia. }
  destruct (pre ++ rest) as [|b [|c' [|d s1]]] eqn:E; try exact IH.
  rewrite Hc. exact IH.
Qed.

End RoundTripFacts.

(** X2. A source written in quotes after FROM is recovered verbatim.
    Take any text before the keyword that has no letter F in either case,
    the keyword in any case, one or more whitespace characters, and a
    non-empty text without single quotes between single quotes: whatever
    follows the closing quote, [extract_sql_url] returns exactly that
    text, with no check that it is a URL. *)
Theorem extract_sql_url_recovers_quoted_source
    (pre kw ws url post : Py.str) :
  Forall (fun c => c <> 70 /\ c <> 102) pre ->
  Spec.keyword_from kw ->
  ws <> [] -> Forall (fun c => Re.is_space c = true) ws ->
  url <> [] -> Forall (fun c => c <> 39) url ->
  Hints.extract_sql_url (pre ++ kw ++ ws ++ [39] ++ url ++ [39] ++ post)
  = Py.Return (Some url).
Proof.
  intros Hpre Hkw Hws Hsp Hurl Hq.
  unfold Hints.extract_sql_url. rewrite (search_skips_non_f _ _ Hpre).
  assert (Hm : Re.match_here true Hints.url_pattern
                 (kw ++ ws ++ [39] ++ url ++ [39] ++ post) None None
               = Some (Some url)).
  { apply match_url_complete; [exact Hurl|].
    exists kw, ws, post. repeat split; assumption. }
  destruct (kw ++ ws ++ [39] ++ url ++ [39] ++ post) eqn:E;
    cbn [Re.search]; now rewrite Hm.
Qed.

Lemma extract_sql_url_round_trip_witness :
  Hints.extract_sql_url
    (Py.lit "SELECT key, date" ++ [10] ++ Py.lit "from" ++ [10; 32; 32] ++ [39]
     ++ Py.lit "s3://bucket/not a url" ++ [39] ++ Py.lit " WHERE key = 'a'")
  = Py.Return (Some (Py.lit "s3://bucket/not a url")).
Proof.
  apply (extract_sql_url_recovers_quoted_source
           (Py.lit "SELECT key, date" ++ [10]) (Py.lit "from") [10; 32; 32]
           (Py.lit "s3://bucket/not a url") (Py.lit " WHERE key = 'a'")).
  - repeat (constructor; [split; discriminate|]). constructor.
  - exists 102, 114, 111, 109. tauto.
  - discriminate.
  - repeat constructor.
  - discriminate.
  - repeat (constructor; [discriminate|]). constructor.
Defined.

(** ** Predicates near the top of a WHERE clause *)

Section ShallowFacts.
Import Py Sqlglot Hints Spec.

(** The traversal yields the queue first. *)
Lemma bfs_loop_prefix fuel q l :
  bfs_loop fuel q = Some l -> exists rest, l = q ++ rest.
Proof.
  revert q l. induction fuel as [|fuel IH]; intros [|node q] l; simpl;
    try discriminate.
  - intros [= <-]. now exists [].
  - intros [= <-]. now exists [].
  - destruct (bfs_loop fuel (q ++ iter_expressions node)) as [l'|] eqn:E;
      [|discriminate].
    intros [= <-]. destruct (IH _ _ E) as [rest ->].
    exists (iter_expressions node ++ rest). now rewrite <- app_assoc.
Qed.

(** A walk starts with the node, its only child, and that child's
    children. *)
Lemma walk_single_child e child :
  iter_expressions e = [child] ->
  exists rest, walk e = e :: child :: iter_expressions child ++ rest.
Proof.
  intros Hc. pose proof (walk_runs e) as Hw.
  destruct (size e) as [|n]; [discriminate|].
  cbn [bfs_loop app] in Hw. rewrite Hc in Hw.
  destruct (bfs_loop n [child]) as [l|] eqn:E; [|discriminate].
  injection Hw as <-.
  destruct n as [|n]; [discriminate|]. cbn [bfs_loop app] in E.
  destruct (bfs_loop n (iter_expressions child)) as [l2|] eqn:E2; [|discriminate].
  injection E as <-. destruct (bfs_loop_prefix _ _ _ E2) as [rest ->].
  now exists rest.
Qed.

(** The loop returns the column of the first column predicate. *)
Lemma scan_conditions_first_candidate pre n post c :
  Forall no_column_predicate pre -> column_predicate n c ->
  scan_conditions
    (List.filter (fun m => existsb (isinstance m) [EQ; In]) (pre ++ n :: post))
  = Some (name c).
Proof.
  intros Hpre (Hcls & Hthis & Hcol).
  induction Hpre as [|m pre Hm _ IH]; cbn [app List.filter].
  - replace (existsb (isinstance n) [EQ; In]) with true
      by (simpl; destruct Hcls as [-> | ->]; now rewrite ?orb_true_r).
    cbn [scan_conditions]. unfold left. rewrite Hthis, Hcol.
    destruct (isinstance n EQ); [reflexivity|].
    destruct Hcls as [?| ->]; [discriminate | reflexivity].
  - destruct (existsb (isinstance m) [EQ; In]) eqn:Hp; [|exact IH].
    cbn [scan_conditions]. unfold left.
    assert (Hnone : forall t, this m = Some t -> isinstance t Column = true -> False).
    { intros t Ht Htc. apply (Hm t). split; [|now split].
      simpl in Hp. rewrite orb_false_r in Hp. now apply orb_true_iff in Hp. }
    destruct (isinstance m EQ); [|destruct (isinstance m In)];
      try exact IH;
      (destruct (this m) as [t|] eqn:Ht; [|exact IH];
       destruct (isinstance t Column) eqn:Htc; [|exact IH];
       exfalso; exact (Hnone t eq_refl Htc)).
Qed.

Lemma where_is_no_candidate e :
  isinstance e Where = true -> no_column_predicate e.
Proof.
  unfold isinstance. intros Hw c ([H|H] & _); unfold isinstance in H;
    destruct (cls_of e); simpl in *; discriminate.
Qed.

End ShallowFacts.

(** X3. Predicates near the top of the WHERE clause win, whatever is
    nested below them. When the WHERE clause has a single condition, look
    at that condition and then at its direct operands, left to right: the
    first of these that is an equality or membership predicate on a column
    gives the result of [extract_partition_column], even if another such
    predicate is written earlier but deeper (inside parentheses, a
    function call or a subquery). *)
Theorem partition_column_of_shallow_predicate
    (parse_one : Py.str -> Py.outcome Sqlglot.Expression) (sql : Py.str)
    (parsed where_ cond n c : Sqlglot.Expression)
    (pre post : list Sqlglot.Expression) :
  parse_one sql = Py.Return parsed ->
  Sqlglot.find parsed [Sqlglot.Where] = Some where_ ->
  Sqlglot.iter_expressions where_ = [cond] ->
  cond :: Sqlglot.iter_expressions cond = pre ++ n :: post ->
  Forall Spec.no_column_predicate pre ->
  Spec.column_predicate n c ->
  Hints.extract_partition_column parse_one sql = Py.Return (Some (Sqlglot.name c)).
Proof.
  intros Hparse Hfind Hchild Hsplit Hpre Hn.
  assert (Hw : Sqlglot.isinstance where_ Sqlglot.Where = true).
  { unfold Sqlglot.find, Sqlglot.find_all in Hfind.
    pose proof (head_filter_first
      (fun m => existsb (Sqlglot.isinstance m) [Sqlglot.Where])
      (Sqlglot.walk parsed)) as Hf.
    rewrite Hfind in Hf. destruct Hf as (_ & _ & _ & Hx & _).
    simpl in Hx. now rewrite orb_false_r in Hx. }
  assert (Hscan : Hints.scan_conditions
                    (Sqlglot.find_all where_ [Sqlglot.EQ; Sqlglot.In])
                  = Some (Sqlglot.name c)).
  { destruct (walk_single_child _ _ Hchild) as [rest Hwalk].
    unfold Sqlglot.find_all. rewrite Hwalk.
    change (where_ :: cond :: Sqlglot.iter_expressions cond ++ rest)
      with ((where_ :: nil) ++ (cond :: Sqlglot.iter_expressions cond) ++ rest).
    rewrite Hsplit, <- app_assoc. cbn [app].
    change (where_ :: pre ++ n :: post ++ rest)
      with ((where_ :: pre) ++ n :: post ++ rest).
    apply scan_conditions_first_candidate; [|exact Hn].
    constructor; [now apply where_is_no_candidate | exact Hpre]. }
  unfold Hints.extract_partition_column. rewrite Hparse.
  cbn [Py.obind]. rewrite Hfind, Hscan. reflexivity.
Qed.

Lemma partition_column_shallow_witness :
  Hints.extract_partition_column
    (fun _ => Py.Return (Spec.select_where Spec.cond_nested))
    (Py.lit "SELECT * FROM t WHERE (LOWER(a) = 'x' AND b = 1) OR c = 2")
  = Py.Return (Some (Py.lit "c")).
Proof.
  refine (partition_column_of_shallow_predicate
            (fun _ => Py.Return (Spec.select_where Spec.cond_nested)) _
            (Spec.select_where Spec.cond_nested)
            (Sqlglot.Expr Sqlglot.Where [(Py.lit "this", Sqlglot.AExp Spec.cond_nested)])
            Spec.cond_nested
            (Spec.equals (Spec.column "c") (Spec.number "2"))
            (Spec.column "c")
            [Spec.cond_nested;
             Sqlglot.Expr Sqlglot.Paren [(Py.lit "this", Sqlglot.AExp
               (Sqlglot.Expr Sqlglot.And
                  [(Py.lit "this", Sqlglot.AExp
                      (Spec.equals (Sqlglot.Expr Sqlglot.Lower
                                      [(Py.lit "this", Sqlglot.AExp (Spec.column "a"))])
                                   (Spec.text "x")));
                   (Py.lit "expression", Sqlglot.AExp
                      (Spec.equals (Spec.column "b") (Spec.number "1")))]))]]
            [] eq_refl _ eq_refl eq_refl _ _).
  - vm_compute. reflexivity.
  - constructor; [|constructor; [|constructor]];
      intros c ([H|H] & _); vm_compute in H; discriminate.
  - split; [left; reflexivity | split; reflexivity].
Defined.

(** ** The retry discipline of [atomic_write] *)

Section DisciplineFacts.
Import Py Pathlib Fs Persist Spec Env.

Lemma total_app l1 l2 : (total (l1 ++ l2) == total l1 + total l2)%Q.
Proof.
  induction l1 as [|q l1 IH]; cbn [app total fold_right].
  - now rewrite Qplus_0_l.
  - fold (total (l1 ++ l2)). fold (total l1). rewrite IH. apply Qplus_assoc.
Qed.

(** The pauses of a schedule add up to [10 ms * (2^n - 1)]. *)
Lemma total_schedule n :
  (total (schedule n) == inject_Z (2 ^ Z.of_nat n - 1) * (1 # 100))%Q.
Proof.
  unfold schedule. induction n as [|n IH]; [reflexivity|].
  rewrite seq_S, List.map_app, total_app, IH. cbn [List.map total fold_right Nat.add].
  unfold wait_time. rewrite Qplus_0_r, <- Qmult_plus_distr_l, <- inject_Z_plus.
  replace (2 ^ Z.of_nat n - 1 + 2 ^ Z.of_nat n)%Z with (2 ^ Z.of_nat (S n) - 1)%Z;
    [reflexivity|].
  rewrite Nat2Z.inj_succ, Z.pow_succ_r by lia. lia.
Qed.

(** What every run of the loop observes, when it starts with as many
    iterations as the range has left. *)
Lemma loop_marks_discipline max_retries dir k a last ms ex :
  loop_marks max_retries dir k a last ms ex ->
  (Z.of_nat k = max_retries - a)%Z \/ k = O ->
  (attempts ms <= k)%nat /\
  ((0 < k)%nat -> (1 <= attempts ms)%nat) /\
  sleeps ms = List.map (fun i => wait_time (a + Z.of_nat i)) (seq 0 (attempts ms - 1)) /\
  Forall transient (removelast (caught ms)) /\
  match ex with
  | Returned => (length (caught ms) + 1 = attempts ms)%nat /\ Forall transient (caught ms)
  | FellThrough _ => length (caught ms) = attempts ms
  end.
Proof.
  induction 1 as [a last|k a last|k a last e Hc|k a last e evs ex Hl Ha Hrec IH];
    intros Hk.
  - repeat split; first [lia | constructor].
  - unfold attempts. simpl. repeat split; first [lia | constructor].
  - unfold attempts. simpl. repeat split; first [lia | constructor].
  - assert (Hk' : Z.of_nat k = (max_retries - (a + 1))%Z) by lia.
    destruct (IH (or_introl Hk')) as (Hle & Hpos & Hs & Hrem & Hex).
    assert (Hone : (1 <= attempts evs)%nat) by (apply Hpos; lia).
    change (attempts (EvMkdir dir :: EvCaught e :: EvSleep (wait_time a) :: evs))
      with (S (attempts evs)).
    change (sleeps (EvMkdir dir :: EvCaught e :: EvSleep (wait_time a) :: evs))
      with (wait_time a :: sleeps evs).
    change (caught (EvMkdir dir :: EvCaught e :: EvSleep (wait_time a) :: evs))
      with (e :: caught evs).
    split; [lia|]. split; [lia|]. split; [|split].
    + rewrite Hs. replace (S (attempts evs) - 1)%nat with (S (attempts evs - 1)) by lia.
      cbn [seq List.map]. rewrite Z.add_0_r. f_equal.
      rewrite <- seq_shift, List.map_map. apply List.map_ext. intros i. f_equal. lia.
    + destruct (caught evs) as [|e' rest] eqn:Ec; [constructor|].
      change (removelast (e :: e' :: rest)) with (e :: removelast (e' :: rest)).
      constructor; [exact Hl | exact Hrem].
    + destruct ex as [|le].
      * destruct Hex as [Hlen Hall]. split; [cbn [length]; lia|].
        constructor; [exact Hl | exact Hall].
      * cbn [length]. lia.
Qed.

(** The marks of a call from a fresh world, with the loop's exit. *)
Lemma call_marks path content max_retries fs ds script w' r temp :
  temp_path_of path = Return temp ->
  atomic_write path content max_retries (boot fs ds script) = (w', r) ->
  exists ex,
    loop_marks max_retries (parent path) (Z.to_nat max_retries) 0%Z None
               (marks (trace w')) ex /\
    match ex with
    | Returned => r = Return tt
    | FellThrough last =>
        exists e, r = Raise e /\
          (e = error_to_raise path last \/ is_oserror e = true)
    end.
Proof.
  intros Ht Hrun.
  destruct (atomic_write_marks _ _ _ _ _ _ _ Ht Hrun)
    as (ex & evs & tail & T & Mt & L & Hr).
  exists ex. split; [|exact Hr].
  cbn [trace boot app] in T. now rewrite T, marks_app, Mt, app_nil_r.
Qed.

Lemma call_without_name path content max_retries w w' r e :
  temp_path_of path = Raise e ->
  atomic_write path content max_retries w = (w', r) ->
  w' = w /\ r = Raise e.
Proof.
  intros Ht. unfold atomic_write. rewrite Ht. now intros [= <- <-].
Qed.

End DisciplineFacts.

(** X4. A call makes at most [max_retries] attempts, and it sleeps between
    attempts only, on the exponential schedule: a call that made [k]
    attempts slept [k - 1] times, for 10 ms, 20 ms, ..., that is
    [10 ms * (2^(k-1) - 1)] in all, whether it ended in success or in
    failure. *)
Theorem backoff_follows_schedule
    (path : Pathlib.Path) (content : Persist.payload) (max_retries : Z)
    (fs : gmap Pathlib.Path Py.bytes) (ds : gset Pathlib.Path)
    (script : list Fs.fault) :
  let t := Fs.trace (fst (Persist.atomic_write path content max_retries
                            (Persist.boot fs ds script))) in
  (Persist.attempts t <= Z.to_nat max_retries)%nat /\
  Persist.sleeps t = Env.schedule (Persist.attempts t - 1) /\
  (Persist.total (Persist.sleeps t)
   == inject_Z (2 ^ Z.of_nat (Persist.attempts t - 1) - 1) * (1 # 100))%Q.
Proof.
  cbv zeta.
  destruct (Persist.atomic_write _ _ _ _) as [w' r] eqn:Hrun. cbn [fst].
  assert (H : (Persist.attempts (Fs.trace w') <= Z.to_nat max_retries)%nat /\
              Persist.sleeps (Fs.trace w')
              = Env.schedule (Persist.attempts (Fs.trace w') - 1)).
  { destruct (Persist.temp_path_of path) as [temp|e] eqn:Ht.
    - destruct (call_marks _ _ _ _ _ _ _ _ _ Ht Hrun) as (ex & L & _).
      destruct (loop_marks_discipline _ _ _ _ _ _ _ L) as (Hle & _ & Hs & _).
      { destruct (Z.to_nat max_retries) eqn:E; [now right | left; lia]. }
      rewrite attempts_marks in Hle. rewrite sleeps_marks, attempts_marks in Hs.
      split; [exact Hle|]. rewrite Hs. unfold Env.schedule.
      apply List.map_ext. intros i. f_equal.
    - destruct (call_without_name _ _ _ _ _ _ _ Ht Hrun) as [-> _].
      split; [cbn; lia | reflexivity]. }
  destruct H as [Hle Hs]. split; [exact Hle|]. split; [exact Hs|].
  rewrite Hs. apply total_schedule.
Qed.

(** X5. The only errors [atomic_write] swallows are the ones its policy
    takes for transient: every error bound in the loop except the last is
    a lock error. A call that returns has seen lock errors only, one per
    attempt before the successful one; in a call that raises after making
    attempts, every attempt ended in an error, so an error that is not a
    lock error is never followed by another attempt. *)
Theorem only_lock_errors_are_swallowed
    (path : Pathlib.Path) (content : Persist.payload) (max_retries : Z)
    (fs : gmap Pathlib.Path Py.bytes) (ds : gset Pathlib.Path)
    (script : list Fs.fault) :
  let run := Persist.atomic_write path content max_retries
               (Persist.boot fs ds script) in
  let errors := Persist.caught (Fs.trace (fst run)) in
  Forall Env.transient (removelast errors) /\
  match snd run with
  | Py.Return _ =>
      Forall Env.transient errors /\
      (length errors + 1 = Persist.attempts (Fs.trace (fst run)))%nat
  | Py.Raise _ => length errors = Persist.attempts (Fs.trace (fst run))
  end.
Proof.
  cbv zeta.
  destruct (Persist.atomic_write _ _ _ _) as [w' r] eqn:Hrun. cbn [fst snd].
  destruct (Persist.temp_path_of path) as [temp|e] eqn:Ht.
  - destruct (call_marks _ _ _ _ _ _ _ _ _ Ht Hrun) as (ex & L & Hr).
    destruct (loop_marks_discipline _ _ _ _ _ _ _ L) as (_ & _ & _ & Hrem & Hex).
    { destruct (Z.to_nat max_retries) eqn:E; [now right | left; lia]. }
    rewrite caught_marks in Hrem. rewrite caught_marks, attempts_marks in Hex.
    split; [exact Hrem|].
    destruct ex as [|last]; [subst r | destruct Hr as (e & -> & _); exact Hex].
    destruct Hex as [Hlen Hall]. now split.
  - destruct (call_without_name _ _ _ _ _ _ _ Ht Hrun) as [-> ->].
    split; [constructor | reflexivity].
Qed.

(** X6. The retry ceiling for any number of retries. Take a call with
    [max_retries = n >= 1] on a target with a name, in which every attempt
    ends in an error and every such error is a lock error. It makes
    exactly [n] attempts and then fails (with an [OSError]: the last lock
    error, or the error of the probe for the staging file when that
    fails), having slept [n - 1] times on the schedule,
    [10 ms * (2^(n-1) - 1)] in all: 30 ms for three attempts, 70 ms for
    four. *)
Theorem retry_ceiling_any_retries
    (path temp : Pathlib.Path) (content : Persist.payload) (max_retries : Z)
    (fs : gmap Pathlib.Path Py.bytes) (ds : gset Pathlib.Path)
    (script : list Fs.fault) (w' : Fs.World) (r : Py.outcome unit) :
  (1 <= max_retries)%Z ->
  Persist.temp_path_of path = Py.Return temp ->
  Persist.atomic_write path content max_retries (Persist.boot fs ds script) = (w', r) ->
  Persist.attempts (Fs.trace w') = length (Persist.caught (Fs.trace w')) ->
  Forall Env.transient (Persist.caught (Fs.trace w')) ->
  Persist.attempts (Fs.trace w') = Z.to_nat max_retries /\
  (exists e, r = Py.Raise e /\ Py.is_oserror e = true) /\
  Persist.sleeps (Fs.trace w') = Env.schedule (Z.to_nat max_retries - 1) /\
  (Persist.total (Persist.sleeps (Fs.trace w'))
   == inject_Z (2 ^ (max_retries - 1) - 1) * (1 # 100))%Q.
Proof.
  intros Hn Ht Hrun Hall Hlock.
  assert (Hpos : (0 < max_retries)%Z) by lia.
  destruct (retry_ceiling _ _ _ _ _ _ _ _ _ Hpos Ht Hrun Hall Hlock)
    as (Ha & Hs & Hfail).
  split; [exact Ha|]. split; [exact Hfail|].
  assert (Hs' : Persist.sleeps (Fs.trace w') = Env.schedule (Z.to_nat max_retries - 1))
    by exact Hs.
  split; [exact Hs'|]. rewrite Hs', total_schedule.
  replace (Z.of_nat (Z.to_nat max_retries - 1)) with (max_retries - 1)%Z by lia.
  reflexivity.
Qed.

Lemma retry_ceiling_four_witness :
  let target := Spec.cache_file "a.parquet" in
  let run := Persist.atomic_write target (Persist.PBytes (Py.lit "new")) 4
               (Persist.boot {[ target := Py.lit "old" ]} ∅ (Env.locked_script 4)) in
  Persist.attempts (Fs.trace (fst run)) = 4%nat /\
  (exists e, snd run = Py.Raise e /\ Py.is_oserror e = true) /\
  Persist.sleeps (Fs.trace (fst run)) = Env.schedule 3 /\
  (Persist.total (Persist.sleeps (Fs.trace (fst run)))
   == inject_Z (2 ^ (4 - 1) - 1) * (1 # 100))%Q.
Proof.
  cbv zeta.
  apply (retry_ceiling_any_retries (Spec.cache_file "a.parquet")
           (Spec.cache_file "a.tmp")
           (Persist.PBytes (Py.lit "new")) 4
           {[ Spec.cache_file "a.parquet" := Py.lit "old" ]} ∅ (Env.locked_script 4)).
  - lia.
  - reflexivity.
  - apply surjective_pairing.
  - vm_compute. reflexivity.
  - vm_compute. repeat constructor.
Defined.

(** ** What a persist call touches *)

Section FrameFacts.
Import Py Pathlib Fs Persist Spec Env.
Local Open Scope fs_scope.

Variable q : Path.

Lemma keeps_replace src dst : src <> q -> dst <> q -> keeps q (replace src dst).
Proof.
  intros Hs Hd w w' r.
  unfold replace, bind, emit, next_fault, get_files, get_dirs, set_files, raise.
  destruct (refused src); [intros [= <- _]; now apply unchanged_same|].
  destruct (refused dst); [intros [= <- _]; now apply unchanged_same|].
  cbn [faults files dirs trace snapshots].
  destruct (faults w) as [|[|c msg|n c msg] rest]; cbn [files dirs trace snapshots];
    try (intros [= <- _]; now apply unchanged_same);
    (destruct (files w !! src) as [data|] eqn:Hsrc;
     [destruct (bool_decide (dst ∈ dirs w))|]; intros [= <- _];
     try (now apply unchanged_same);
     apply unchanged_set; [reflexivity|]; cbn;
     rewrite lookup_insert_ne by exact Hd; now apply lookup_delete_ne).
Qed.

Lemma keeps_write_file p mode content : p <> q -> keeps q (write_file p mode content).
Proof.
  intros Hp w w' r H. exact (proj1 (write_file_spec q _ _ _ _ _ _ Hp H)).
Qed.

Lemma keeps_write_attempt path temp mode content :
  path <> q -> temp <> q -> keeps q (write_attempt path temp mode content).
Proof.
  intros Hpath Htemp. unfold write_attempt.
  apply keeps_bind; [apply keeps_mkdir_parents|]. intros _.
  apply keeps_bind; [apply keeps_path_exists|]. intros stale.
  apply keeps_bind.
  { destruct stale; [now apply keeps_unlink_quietly | apply keeps_ret]. }
  intros _. apply keeps_bind; [now apply keeps_write_file|].
  intros _. now apply keeps_replace.
Qed.

Lemma keeps_attempt_loop path temp mode content max_retries k :
  path <> q -> temp <> q ->
  forall a last, keeps q (attempt_loop path temp mode content max_retries k a last).
Proof.
  intros Hpath Htemp. induction k as [|k IH]; intros a last; cbn [attempt_loop].
  - apply keeps_ret.
  - apply keeps_bind.
    + now apply keeps_attempt, keeps_write_attempt.
    + intros [[]|e]; [apply keeps_ret|].
      apply keeps_bind; [apply keeps_emit|]. intros _.
      destruct (is_oserror e); [|apply keeps_ret].
      destruct (is_lock_error e && (a <? max_retries - 1)%Z); [|apply keeps_ret].
      apply keeps_bind; [apply keeps_log|]. intros _.
      apply keeps_bind; [apply keeps_sleep|]. intros _. apply IH.
Qed.

Lemma keeps_fail_after_loop_other path temp last :
  temp <> q -> keeps q (fail_after_loop path temp last).
Proof.
  intros Htemp. unfold fail_after_loop.
  apply keeps_bind; [apply keeps_log|]. intros _.
  apply keeps_bind; [apply keeps_path_exists|]. intros b.
  apply keeps_bind; [|intros _; apply keeps_raise].
  destruct b; [now apply keeps_unlink_quietly | apply keeps_ret].
Qed.

End FrameFacts.

Section OrphanFacts.
Import Py Pathlib Fs Persist Spec Env.
Local Open Scope fs_scope.

Lemma bind_returns {A B} (m : M A) (k : A -> M B) w w' b :
  bind m k w = (w', Return b) ->
  exists w1 a, m w = (w1, Return a) /\ k a w1 = (w', Return b).
Proof.
  unfold bind. destruct (m w) as [w1 [a|e]]; [eauto | discriminate].
Qed.

Lemma replace_removes_source src dst w w' :
  src <> dst -> replace src dst w = (w', Return tt) -> files w' !! src = None.
Proof.
  intros Hne.
  unfold replace, bind, emit, next_fault, get_files, get_dirs, set_files, raise.
  destruct (refused src); [discriminate|].
  destruct (refused dst); [discriminate|].
  cbn [faults files dirs trace snapshots].
  destruct (faults w) as [|[|c msg|n c msg] rest]; cbn [files dirs trace snapshots];
    try discriminate;
    (destruct (files w !! src) as [data|] eqn:Hsrc;
     [destruct (bool_decide (dst ∈ dirs w))|]; try discriminate;
     intros [= <-]; cbn;
     rewrite lookup_insert_ne by congruence; apply lookup_delete_eq).
Qed.

Lemma write_attempt_leaves_no_staging path temp mode content w w' :
  temp <> path ->
  write_attempt path temp mode content w = (w', Return tt) ->
  files w' !! temp = None.
Proof.
  intros Hne H. unfold write_attempt in H.
  apply bind_returns in H as (w1 & _ & _ & H).
  apply bind_returns in H as (w2 & stale & _ & H).
  apply bind_returns in H as (w3 & _ & _ & H).
  apply bind_returns in H as (w4 & _ & _ & H).
  now apply replace_removes_source in H.
Qed.

Lemma attempt_loop_leaves_no_staging path temp mode content max_retries k :
  temp <> path ->
  forall a last w w',
    attempt_loop path temp mode content max_retries k a last w
    = (w', Return Returned) ->
    files w' !! temp = None.
Proof.
  intros Hne. induction k as [|k IH]; intros a last w w'; cbn [attempt_loop].
  - discriminate.
  - unfold bind at 1, attempt at 1.
    destruct (write_attempt path temp mode content w) as [w1 [[]|e]] eqn:E1.
    + intros [= <-]. now apply write_attempt_leaves_no_staging in E1.
    + unfold bind at 1, emit at 1. cbv beta iota.
      destruct (is_oserror e); [|discriminate].
      destruct (is_lock_error e && (a <? max_retries - 1)%Z); [|discriminate].
      unfold bind at 1, log, emit at 1. cbv beta iota.
      unfold bind at 1, sleep, emit at 1. cbv beta iota.
      apply IH.
Qed.

End OrphanFacts.

(** X7. All or nothing. For a target whose own suffix is not ".tmp", a
    call that raises leaves the target as it was, at the end and at every
    instant in between, and a call that returns has replaced it by the
    whole payload (the bytes given, or the UTF-8 encoding of the text) in
    one step: at no instant does the target hold anything else. *)
Theorem atomic_write_commits_or_leaves_target
    (path : Pathlib.Path) (content : Persist.payload) (max_retries : Z)
    (w w' : Fs.World) (r : Py.outcome unit) :
  Pathlib.suffix path <> Py.lit ".tmp" ->
  Persist.atomic_write path content max_retries w = (w', r) ->
  match r with
  | Py.Raise _ => Spec.unchanged_at path w w'
  | Py.Return _ => Spec.committed_at path content w w'
  end.
Proof.
  intros Hs Hrun.
  destruct (Persist.temp_path_of path) as [temp|e] eqn:Ht.
  - apply (atomic_write_all_or_nothing path temp content max_retries); try assumption.
    now apply staging_apart_from_target.
  - destruct (call_without_name _ _ _ _ _ _ _ Ht Hrun) as [-> ->].
    now apply unchanged_same.
Qed.

Lemma atomic_write_commit_witness :
  let target := Spec.cache_file "a.parquet" in
  let w := Persist.boot {[ target := Py.lit "old" ]} ∅ [Spec.permission_denied] in
  Spec.committed_at target (Persist.PStr (Py.lit "new")) w
    (fst (Persist.atomic_write target (Persist.PStr (Py.lit "new")) 3 w)).
Proof.
  cbv zeta.
  refine (atomic_write_commits_or_leaves_target (Spec.cache_file "a.parquet")
            (Persist.PStr (Py.lit "new")) 3 _ _ (Py.Return tt) _ _).
  - vm_compute. discriminate.
  - vm_compute. reflexivity.
Defined.

(** X8. A call touches no file but its target and its staging file: every
    other path holds, at the end and at every instant in between, what it
    held before the call, whether the call returns or raises. *)
Theorem atomic_write_touches_only_target_and_staging
    (path other : Pathlib.Path) (content : Persist.payload) (max_retries : Z)
    (w w' : Fs.World) (r : Py.outcome unit) :
  other <> path ->
  Persist.temp_path_of path <> Py.Return other ->
  Persist.atomic_write path content max_retries w = (w', r) ->
  Spec.unchanged_at other w w'.
Proof.
  intros Hpath Htemp Hrun.
  destruct (Persist.temp_path_of path) as [temp|e] eqn:Ht.
  - assert (Hne : temp <> other) by congruence.
    revert Hrun. unfold Persist.atomic_write. rewrite Ht.
    apply (keeps_bind other).
    + apply keeps_attempt_loop; congruence.
    + intros [|last]; [apply keeps_ret | now apply keeps_fail_after_loop_other].
  - destruct (call_without_name _ _ _ _ _ _ _ Ht Hrun) as [-> _].
    now apply unchanged_same.
Qed.

Lemma atomic_write_frame_witness :
  let target := Spec.cache_file "a.parquet" in
  let other := Spec.cache_file "a.json" in
  let w := Persist.boot {[ target := Py.lit "old"; other := Py.lit "{}" ]} ∅
             Spec.locked_target_script in
  Spec.unchanged_at other w
    (fst (Persist.atomic_write target (Persist.PBytes (Py.lit "new")) 3 w)).
Proof.
  cbv zeta.
  refine (atomic_write_touches_only_target_and_staging (Spec.cache_file "a.parquet")
            (Spec.cache_file "a.json") (Persist.PBytes (Py.lit "new")) 3 _ _ _ _ _
            (surjective_pairing _)).
  - vm_compute. discriminate.
  - vm_compute. discriminate.
Defined.

(** X9. Success leaves no staging file behind. For a target whose own
    suffix is not ".tmp", after a call that returns there is no file at
    the staging path, whether or not a stale one was there before and
    however many attempts it took. *)
Theorem atomic_write_success_leaves_no_staging
    (path temp : Pathlib.Path) (content : Persist.payload) (max_retries : Z)
    (w w' : Fs.World) :
  Pathlib.suffix path <> Py.lit ".tmp" ->
  Persist.temp_path_of path = Py.Return temp ->
  Persist.atomic_write path content max_retries w = (w', Py.Return tt) ->
  Fs.files w' !! temp = None.
Proof.
  intros Hs Ht Hrun.
  pose proof (staging_apart_from_target _ _ Ht Hs) as Hne.
  unfold Persist.atomic_write in Hrun. rewrite Ht in Hrun.
  unfold Fs.bind at 1 in Hrun.
  destruct (Persist.attempt_loop _ _ _ _ _ _ _ _ w) as [w1 r1] eqn:EL.
  destruct (attempt_loop_marks _ _ _ _ _ _ _ _ _ _ _ EL) as (ex & _ & -> & _).
  destruct ex as [|last].
  - injection Hrun as <-.
    now apply attempt_loop_leaves_no_staging in EL.
  - apply fail_after_loop_raises in Hrun as [(e & Hr & _) _]. discriminate.
Qed.

Lemma atomic_write_no_staging_witness :
  let target := Spec.cache_file "a.parquet" in
  let temp := Spec.cache_file "a.tmp" in
  let w := Persist.boot {[ target := Py.lit "old"; temp := Py.lit "stale" ]} ∅
             [Fs.NoFault; Fs.NoFault; Spec.sharing_violation] in
  exists w',
    Persist.atomic_write target (Persist.PBytes (Py.lit "new")) 3 w
    = (w', Py.Return tt) /\
    Fs.files w' !! temp = None.
Proof.
  cbv zeta. eexists. split.
  - vm_compute. reflexivity.
  - refine (atomic_write_success_leaves_no_staging (Spec.cache_file "a.parquet")
              (Spec.cache_file "a.tmp") (Persist.PBytes (Py.lit "new")) 3
              (Persist.boot {[ Spec.cache_file "a.parquet" := Py.lit "old";
                               Spec.cache_file "a.tmp" := Py.lit "stale" ]} ∅
                            [Fs.NoFault; Fs.NoFault; Spec.sharing_violation])
              _ _ _ _).
    + vm_compute. discriminate.
    + reflexivity.
    + vm_compute. reflexivity.
Defined.

(** ** Directories *)

Section DirectoryFacts.
Import Py Pathlib Fs Persist Spec Env.
Local Open Scope fs_scope.

Variable extra : gset Path.

Lemma grow_same w w' : dirs w' = dirs w -> dirs_grow_within extra w w'.
Proof. intros E. unfold dirs_grow_within. rewrite E. set_solver. Qed.

Lemma grow_trans w1 w2 w3 :
  dirs_grow_within extra w1 w2 -> dirs_grow_within extra w2 w3 ->
  dirs_grow_within extra w1 w3.
Proof. unfold dirs_grow_within. set_solver. Qed.

Lemma grows_ret {A} (a : A) : respects (dirs_grow_within extra) (ret a).
Proof. intros w w' r [= <- _]. now apply grow_same. Qed.

Lemma grows_raise {A} e : respects (dirs_grow_within extra) (@raise A e).
Proof. intros w w' r [= <- _]. now apply grow_same. Qed.

Lemma grows_bind {A B} (m : M A) (k : A -> M B) :
  respects (dirs_grow_within extra) m ->
  (forall a, respects (dirs_grow_within extra) (k a)) ->
  respects (dirs_grow_within extra) (bind m k).
Proof.
  intros Hm Hk w w' r. unfold bind.
  destruct (m w) as [w1 [a|e]] eqn:E; intros H.
  - eapply grow_trans; [exact (Hm _ _ _ E) | exact (Hk a _ _ _ H)].
  - injection H as <- _. exact (Hm _ _ _ E).
Qed.

Lemma grows_attempt {A} (m : M A) :
  respects (dirs_grow_within extra) m ->
  respects (dirs_grow_within extra) (attempt m).
Proof.
  intros Hm w w' r. unfold attempt.
  destruct (m w) as [w1 r1] eqn:E. intros [= <- _]. exact (Hm _ _ _ E).
Qed.

Lemma grows_emit ev : respects (dirs_grow_within extra) (emit ev).
Proof. intros w w' r [= <- _]. now apply grow_same. Qed.

Lemma grows_next_fault : respects (dirs_grow_within extra) next_fault.
Proof.
  intros w w' r. unfold next_fault.
  destruct (faults w); intros [= <- _]; now apply grow_same.
Qed.

Lemma grows_get_files : respects (dirs_grow_within extra) get_files.
Proof. intros w w' r [= <- _]. now apply grow_same. Qed.

Lemma grows_get_dirs : respects (dirs_grow_within extra) get_dirs.
Proof. intros w w' r [= <- _]. now apply grow_same. Qed.

Lemma grows_set_files f : respects (dirs_grow_within extra) (set_files f).
Proof. intros w w' r [= <- _]. now apply grow_same. Qed.

Lemma grows_set_dirs d :
  (forall w, dirs w ⊆ d /\ d ⊆ dirs w ∪ extra) ->
  respects (dirs_grow_within extra) (set_dirs d).
Proof. intros Hd w w' r [= <- _]. exact (Hd w). Qed.

End DirectoryFacts.

Ltac settled :=
  repeat first
    [ apply grows_ret | apply grows_raise | apply grows_next_fault
    | apply grows_get_files | apply grows_get_dirs | apply grows_set_files
    | apply grows_emit
    | apply grows_bind; [|intros ?]
    | apply grows_attempt
    | match goal with
      | |- Env.respects _ (match ?x with _ => _ end) => destruct x
      | |- Env.respects _ (if ?x then _ else _) => destruct x
      end ].

Section DirectoryGrowth.
Import Py Pathlib Fs Persist Spec Env.
Local Open Scope fs_scope.

Lemma grows_mkdir_parents p :
  respects (dirs_grow_within (list_to_set (prefixes p))) (mkdir_parents p).
Proof.
  intros w w' r.
  unfold mkdir_parents, bind, emit, next_fault, get_files, get_dirs, set_dirs, raise.
  destruct (refused p); [intros [= <- _]; now apply grow_same|].
  cbn [faults files dirs trace snapshots].
  destruct (faults w) as [|[|c msg|n c msg] rest]; cbn [files dirs trace snapshots];
    try (intros [= <- _]; now apply grow_same);
    (destruct (existsb _ (prefixes p)); intros [= <- _]; [now apply grow_same|];
     unfold dirs_grow_within; cbn; set_solver).
Qed.

Lemma mkdir_parents_returns p w w' :
  mkdir_parents p w = (w', Return tt) ->
  forall d, d ∈ prefixes p -> d ∈ dirs w'.
Proof.
  unfold mkdir_parents, bind, emit, next_fault, get_files, get_dirs, set_dirs, raise.
  destruct (refused p); [discriminate|].
  cbn [faults files dirs trace snapshots].
  destruct (faults w) as [|[|c msg|n c msg] rest]; cbn [files dirs trace snapshots];
    try discriminate;
    (destruct (existsb _ (prefixes p)); [discriminate|]; intros [= <-] d Hd; cbn;
     set_solver).
Qed.

Variable extra : gset Path.

Lemma grows_unlink p : respects (dirs_grow_within extra) (unlink p).
Proof. unfold unlink. settled. Qed.

Lemma grows_unlink_quietly p : respects (dirs_grow_within extra) (unlink_quietly p).
Proof. unfold unlink_quietly. settled; apply grows_unlink. Qed.

Lemma grows_path_exists p : respects (dirs_grow_within extra) (path_exists p).
Proof. unfold path_exists. settled. Qed.

Lemma grows_write_file p mode content :
  respects (dirs_grow_within extra) (write_file p mode content).
Proof. unfold write_file, open_write, write_close. settled. Qed.

Lemma grows_replace src dst : respects (dirs_grow_within extra) (replace src dst).
Proof. unfold replace. settled. Qed.

Lemma grows_tail temp path mode content :
  respects (dirs_grow_within extra)
    (stale <~ path_exists temp ;;
     (if stale then unlink_quietly temp else ret tt) ;;;
     write_file temp mode content ;;;
     replace temp path).
Proof.
  apply grows_bind; [apply grows_path_exists|]. intros stale.
  apply grows_bind.
  { destruct stale; [apply grows_unlink_quietly | apply grows_ret]. }
  intros _. apply grows_bind; [apply grows_write_file | intros _; apply grows_replace].
Qed.

End DirectoryGrowth.

Section DirectoryResult.
Import Py Pathlib Fs Persist Spec Env.
Local Open Scope fs_scope.

Variables (path temp : Path) (mode : str) (content : payload).

Lemma grows_write_attempt :
  respects (dirs_grow_within (list_to_set (prefixes (parent path)))) (write_attempt path temp mode content).
Proof.
  unfold write_attempt.
  apply grows_bind; [apply grows_mkdir_parents|]. intros _. apply grows_tail.
Qed.

Lemma write_attempt_makes_chain w w' :
  write_attempt path temp mode content w = (w', Return tt) ->
  forall d, d ∈ prefixes (parent path) -> d ∈ dirs w'.
Proof.
  unfold write_attempt. intros H d Hd.
  apply bind_returns in H as (w1 & [] & Hm & H).
  pose proof (mkdir_parents_returns _ _ _ Hm d Hd) as Hin.
  apply (grows_tail (list_to_set (prefixes (parent path)))) in H. destruct H as [Hsub _]. set_solver.
Qed.

Lemma grows_attempt_loop max_retries k :
  forall a last,
    respects (dirs_grow_within (list_to_set (prefixes (parent path))))
      (attempt_loop path temp mode content max_retries k a last).
Proof.
  induction k as [|k IH]; intros a last; cbn [attempt_loop].
  - apply grows_ret.
  - apply grows_bind; [apply grows_attempt, grows_write_attempt|].
    intros [[]|e]; [apply grows_ret|].
    apply grows_bind; [apply grows_emit|]. intros _.
    destruct (is_oserror e); [|apply grows_ret].
    destruct (is_lock_error e && (a <? max_retries - 1)%Z); [|apply grows_ret].
    apply grows_bind; [apply grows_emit|]. intros _.
    apply grows_bind; [apply grows_emit|]. intros _. apply IH.
Qed.

Lemma attempt_loop_makes_chain max_retries k :
  forall a last w w',
    attempt_loop path temp mode content max_retries k a last w
    = (w', Return Returned) ->
    forall d, d ∈ prefixes (parent path) -> d ∈ dirs w'.
Proof.
  induction k as [|k IH]; intros a last w w'; cbn [attempt_loop].
  - discriminate.
  - unfold bind at 1, attempt at 1.
    destruct (write_attempt path temp mode content w) as [w1 [[]|e]] eqn:E1.
    + intros [= <-]. now apply write_attempt_makes_chain with (w := w).
    + unfold bind at 1, emit at 1. cbv beta iota.
      destruct (is_oserror e); [|discriminate].
      destruct (is_lock_error e && (a <? max_retries - 1)%Z); [|discriminate].
      unfold bind at 1, log, emit at 1. cbv beta iota.
      unfold bind at 1, sleep, emit at 1. cbv beta iota.
      apply IH.
Qed.

Lemma grows_fail_after_loop last :
  respects (dirs_grow_within (list_to_set (prefixes (parent path)))) (fail_after_loop path temp last).
Proof.
  unfold fail_after_loop.
  apply grows_bind; [apply grows_emit|]. intros _.
  apply grows_bind; [apply grows_path_exists|]. intros b.
  apply grows_bind; [|intros _; apply grows_raise].
  destruct b; [apply grows_unlink_quietly | apply grows_ret].
Qed.

End DirectoryResult.

(** X10. Directories. Whatever the environment does, a call never removes
    a directory and creates none but the target's parent and that parent's
    ancestors; and when the call returns, the parent and all its ancestors
    are directories. *)
Theorem atomic_write_directories
    (path : Pathlib.Path) (content : Persist.payload) (max_retries : Z)
    (w w' : Fs.World) (r : Py.outcome unit) :
  Persist.atomic_write path content max_retries w = (w', r) ->
  Env.dirs_grow_within (list_to_set (Fs.prefixes (Pathlib.parent path))) w w' /\
  (r = Py.Return tt ->
   forall d, d ∈ Fs.prefixes (Pathlib.parent path) -> d ∈ Fs.dirs w').
Proof.
  intros E. unfold Persist.atomic_write in E.
  destruct (Persist.temp_path_of path) as [temp|e] eqn:Ht.
  - unfold Fs.bind at 1 in E.
    destruct (Persist.attempt_loop _ _ _ _ _ _ _ _ w) as [w1 [[|last]|e]] eqn:El.
    + injection E as <- <-. split.
      * exact (grows_attempt_loop _ _ _ _ _ _ _ _ _ _ _ El).
      * intros _. exact (attempt_loop_makes_chain _ _ _ _ _ _ _ _ _ _ El).
    + split.
      * eapply grow_trans;
          [exact (grows_attempt_loop _ _ _ _ _ _ _ _ _ _ _ El)
          |exact (grows_fail_after_loop _ _ _ _ _ _ E)].
      * apply fail_after_loop_raises in E as [(e & -> & _) _]. discriminate.
    + injection E as <- <-. split.
      * exact (grows_attempt_loop _ _ _ _ _ _ _ _ _ _ _ El).
      * discriminate.
  - injection E as <- <-. split; [now apply grow_same | discriminate].
Qed.

Lemma atomic_write_directories_witness :
  let target := [Py.lit "cache"; Py.lit "v1"; Py.lit "a.parquet"] in
  let w := Persist.boot ∅ ∅ [] in
  exists w',
    Persist.atomic_write target (Persist.PBytes (Py.lit "new")) 3 w
    = (w', Py.Return tt) /\
    Env.dirs_grow_within (list_to_set (Fs.prefixes (Pathlib.parent target)))
                         w w' /\
    forall d, d ∈ Fs.prefixes (Pathlib.parent target) -> d ∈ Fs.dirs w'.
Proof.
  cbv zeta. eexists. split; [vm_compute; reflexivity|].
  match goal with
  | |- Env.dirs_grow_within _ _ ?W /\ _ =>
      destruct (atomic_write_directories
                  [Py.lit "cache"; Py.lit "v1"; Py.lit "a.parquet"]
                  (Persist.PBytes (Py.lit "new")) 3 (Persist.boot ∅ ∅ [])
                  W (Py.Return tt)) as [H1 H2]; [vm_compute; reflexivity|]
  end.
  split; [exact H1 | exact (H2 eq_refl)].
Defined.

(** ** When the environment lets the calls through *)

Section PassFacts.
Import Py Pathlib Fs Persist Spec Env.
Local Open Scope fs_scope.

Lemma calm_hd s : calm s -> hd NoFault s = NoFault.
Proof. intros H. destruct s as [|f s]; [reflexivity|]. now inversion H. Qed.

Lemma calm_tl s : calm s -> calm (tl s).
Proof. intros H. destruct s as [|f s]; [exact H|]. now inversion H. Qed.

Lemma calm_skipn n s : calm s -> calm (skipn n s).
Proof.
  revert s. induction n as [|n IH]; intros s H; [exact H|].
  destruct s as [|f s]; [exact H|]. cbn. apply IH. now inversion H.
Qed.

Lemma calm_firstn n s : calm s -> calm (firstn n s).
Proof.
  revert s. induction n as [|n IH]; intros s H; [constructor|].
  destruct s as [|f s]; [constructor|]. inversion H; subst.
  cbn. constructor; [reflexivity | now apply IH].
Qed.

Lemma calm_firstn_hd n s : calm (firstn (S n) s) -> hd NoFault s = NoFault.
Proof. destruct s as [|f s]; [reflexivity|]. cbn. now inversion 1. Qed.

Lemma calm_firstn_tl n s : calm (firstn (S n) s) -> calm (firstn n (tl s)).
Proof.
  destruct s as [|f s]; cbn; [intros _; destruct n; constructor|]. now inversion 1.
Qed.

Lemma tl_skipn n (s : list fault) : tl (skipn n s) = skipn (S n) s.
Proof.
  revert s. induction n as [|n IH]; intros [|f s]; try reflexivity.
  cbn [skipn]. rewrite IH. now destruct s.
Qed.

Lemma mkdir_parents_goes p w :
  refused p = None ->
  hd NoFault (faults w) = NoFault -> way_clear (files w) p ->
  exists w', mkdir_parents p w = (w', Return tt) /\
    files w' = files w /\ dirs w' = dirs w ∪ list_to_set (prefixes p) /\
    faults w' = tl (faults w) /\ trace w' = trace w ++ [EvMkdir p].
Proof.
  intros Hp Hh Hc. unfold way_clear in Hc.
  unfold mkdir_parents, bind, emit, next_fault, get_files, get_dirs, set_dirs, raise.
  rewrite Hp. cbn [faults files dirs trace snapshots].
  destruct (faults w) as [|f rest]; cbn [hd tl] in *; [|subst f];
    cbn [faults files dirs trace snapshots]; rewrite Hc;
    (eexists; split; [reflexivity|]; cbn; auto).
Qed.

Lemma path_exists_goes p w :
  refused p = None -> hd NoFault (faults w) = NoFault ->
  exists w',
    path_exists p w
    = (w', Return (bool_decide (is_Some (files w !! p))
                   || bool_decide (p ∈ dirs w))) /\
    files w' = files w /\ dirs w' = dirs w /\
    faults w' = tl (faults w) /\ trace w' = trace w ++ [EvExists p].
Proof.
  intros Hp Hh.
  unfold path_exists, bind, emit, next_fault, get_files, get_dirs, raise, ret.
  rewrite Hp. cbn [faults files dirs trace snapshots].
  destruct (faults w) as [|f rest]; cbn [hd tl] in *; [|subst f];
    cbn [faults files dirs trace snapshots];
    (eexists; split; [reflexivity|]; cbn; auto).
Qed.

Lemma unlink_quietly_stale p old w :
  refused p = None ->
  files w !! p = Some old ->
  exists w', unlink_quietly p w = (w', Return tt) /\
    (files w' = files w \/ files w' = delete p (files w)) /\
    dirs w' = dirs w /\ faults w' = tl (faults w) /\
    trace w' = trace w ++ [EvUnlink p].
Proof.
  intros Hp Hold.
  unfold unlink_quietly, attempt, unlink, bind, emit, next_fault, get_files,
    get_dirs, set_files, raise.
  rewrite Hp. cbn [faults files dirs trace snapshots].
  destruct (faults w) as [|[|c msg|n c msg] rest];
    cbn [hd tl faults files dirs trace snapshots]; try rewrite Hold;
    (eexists; split; [reflexivity|]; cbn; auto).
Qed.

Lemma open_write_goes p mode w :
  refused p = None ->
  hd NoFault (faults w) = NoFault -> p ∉ dirs w ->
  exists w', open_write p mode w = (w', Return tt) /\
    files w' = <[p := []]> (files w) /\ dirs w' = dirs w /\
    faults w' = tl (faults w) /\ trace w' = trace w ++ [EvOpen p mode].
Proof.
  intros Hp Hh Hd. apply (bool_decide_eq_false_2 _) in Hd.
  unfold open_write, bind, emit, next_fault, get_files, get_dirs, set_files, raise.
  rewrite Hp. cbn [faults files dirs trace snapshots].
  destruct (faults w) as [|f rest]; cbn [hd tl] in *; [|subst f];
    cbn [faults files dirs trace snapshots]; rewrite Hd;
    (eexists; split; [reflexivity|]; cbn; auto).
Qed.

Lemma write_close_goes p data w :
  hd NoFault (faults w) = NoFault ->
  exists w', write_close p data w = (w', Return tt) /\
    files w' = <[p := data]> (files w) /\ dirs w' = dirs w /\
    faults w' = tl (faults w) /\ trace w' = trace w ++ [EvWrite p].
Proof.
  intros Hh.
  unfold write_close, bind, emit, next_fault, get_files, get_dirs, set_files, raise.
  cbn [faults files dirs trace snapshots].
  destruct (faults w) as [|f rest]; cbn [hd tl] in *; [|subst f];
    cbn [faults files dirs trace snapshots];
    (eexists; split; [reflexivity|]; cbn; auto).
Qed.

Lemma replace_goes src dst data w :
  refused src = None -> refused dst = None ->
  hd NoFault (faults w) = NoFault -> files w !! src = Some data ->
  dst ∉ dirs w ->
  exists w', replace src dst w = (w', Return tt) /\
    files w' = <[dst := data]> (delete src (files w)) /\ dirs w' = dirs w /\
    faults w' = tl (faults w) /\ trace w' = trace w ++ [EvReplace src dst].
Proof.
  intros Hrs Hrd Hh Hs Hd. apply (bool_decide_eq_false_2 _) in Hd.
  unfold replace, bind, emit, next_fault, get_files, get_dirs, set_files, raise.
  rewrite Hrs, Hrd. cbn [faults files dirs trace snapshots].
  destruct (faults w) as [|f rest]; cbn [hd tl] in *; [|subst f];
    cbn [faults files dirs trace snapshots]; rewrite Hs, Hd;
    (eexists; split; [reflexivity|]; cbn; auto).
Qed.

Lemma replace_blocked src dst c msg w :
  refused src = None -> refused dst = None ->
  hd NoFault (faults w) = Fail c msg ->
  exists w', replace src dst w = (w', Raise (Exn (OS c) msg)) /\
    files w' = files w /\ dirs w' = dirs w /\
    faults w' = tl (faults w) /\ trace w' = trace w ++ [EvReplace src dst].
Proof.
  intros Hrs Hrd Hh.
  unfold replace, bind, emit, next_fault, get_files, get_dirs, set_files, raise.
  rewrite Hrs, Hrd. cbn [faults files dirs trace snapshots].
  destruct (faults w) as [|f rest]; cbn [hd tl] in *; [discriminate|subst f];
    cbn [faults files dirs trace snapshots];
    (eexists; split; [reflexivity|]; cbn; auto).
Qed.

Lemma write_file_goes p mode content data w :
  match content with PBytes b => Return b | PStr s => encode s end = Return data ->
  refused p = None ->
  calm (firstn 2 (faults w)) -> p ∉ dirs w ->
  exists w', write_file p mode content w = (w', Return tt) /\
    files w' = <[p := data]> (files w) /\ dirs w' = dirs w /\
    faults w' = skipn 2 (faults w) /\
    trace w' = trace w ++ [EvOpen p mode; EvWrite p].
Proof.
  intros Hdata Hp Hc Hd. unfold write_file.
  destruct (open_write_goes p mode w Hp (calm_firstn_hd _ _ Hc) Hd)
    as (w1 & E1 & F1 & D1 & S1 & T1).
  unfold bind. rewrite E1.
  assert (Hh : hd NoFault (faults w1) = NoFault).
  { rewrite S1. apply (calm_firstn_hd 0), calm_firstn_tl, Hc. }
  destruct (write_close_goes p data w1 Hh) as (w2 & E2 & F2 & D2 & S2 & T2).
  exists w2. split.
  - destruct content as [s|b].
    + rewrite Hdata. exact E2.
    + injection Hdata as ->. exact E2.
  - rewrite F2, F1, D2, D1, S2, S1, T2, T1, <- app_assoc, insert_insert_eq.
    repeat split. now destruct (faults w) as [|? [|? ?]].
Qed.

End PassFacts.

Section ChainFacts.
Import Py Pathlib Fs Persist Spec Env.
Local Open Scope fs_scope.

Lemma prefixes_length p d : d ∈ prefixes p -> (length d <= length p)%nat.
Proof.
  unfold prefixes. rewrite list_elem_of_In, in_map_iff.
  intros (k & <- & _). rewrite length_firstn. lia.
Qed.

Lemma longer_not_prefix p q :
  (length p < length q)%nat -> q ∉ prefixes p.
Proof. intros Hl Hin. apply prefixes_length in Hin. lia. Qed.

Lemma named_path_length p :
  name p <> [] -> length p = S (length (parent p)).
Proof.
  destruct p as [|a [|b rest]].
  - now intros [].
  - cbn. destruct (is_anchor a); [now intros []|reflexivity].
  - intros _. change (parent (a :: b :: rest)) with (removelast (a :: b :: rest)).
    rewrite (app_removelast_last [] (l := a :: b :: rest)) at 1 by discriminate.
    rewrite length_app. cbn [length]. lia.
Qed.

Lemma staging_outside_chain path temp :
  temp_path_of path = Return temp ->
  (temp ∉ prefixes (parent path)) /\ (path ∉ prefixes (parent path)).
Proof.
  intros H. apply temp_path_of_shape in H as [Hn ->]. split.
  - apply longer_not_prefix. rewrite length_app. cbn. lia.
  - apply longer_not_prefix. rewrite (named_path_length _ Hn). lia.
Qed.

Lemma way_clear_spec fs p :
  way_clear fs p <-> forall d, d ∈ prefixes p -> fs !! d = None.
Proof.
  unfold way_clear. split.
  - intros H d Hd. destruct (fs !! d) as [x|] eqn:E; [|reflexivity].
    assert (existsb (fun q => bool_decide (is_Some (fs !! q))) (prefixes p) = true)
      as Hex; [|congruence].
    apply existsb_exists. exists d. split; [now apply list_elem_of_In|].
    apply bool_decide_eq_true_2. rewrite E. eauto.
  - intros H. destruct (existsb _ _) eqn:E; [|reflexivity].
    apply existsb_exists in E as (d & Hd & Hs).
    apply list_elem_of_In, H in Hd. apply bool_decide_eq_true_1 in Hs.
    rewrite Hd in Hs. now destruct Hs.
Qed.

Lemma way_clear_insert fs p q x :
  q ∉ prefixes p -> way_clear fs p -> way_clear (<[q := x]> fs) p.
Proof.
  rewrite !way_clear_spec. intros Hq H d Hd.
  rewrite lookup_insert_ne by (intros ->; contradiction). now apply H.
Qed.

Lemma skipn_tl n (s : list fault) : skipn n (tl s) = skipn (S n) s.
Proof. destruct s; [now destruct n | reflexivity]. Qed.

Lemma calm_firstn_le m n s :
  (m <= n)%nat -> calm (firstn n s) -> calm (firstn m s).
Proof.
  revert n s. induction m as [|m IH]; intros n s Hle H; [constructor|].
  destruct n as [|n]; [lia|]. destruct s as [|f s]; [constructor|].
  cbn in *. inversion H; subst. constructor; [reflexivity|].
  apply (IH n); [lia | assumption].
Qed.

Lemma calm_firstn_at k n s :
  (k < n)%nat -> calm (firstn n s) -> hd NoFault (skipn k s) = NoFault.
Proof.
  revert n s. induction k as [|k IH]; intros n s Hlt H.
  - destruct n as [|n]; [lia|]. now apply calm_firstn_hd in H.
  - destruct n as [|n]; [lia|]. destruct s as [|f s]; [reflexivity|].
    cbn in *. inversion H; subst. apply (IH n); [lia | assumption].
Qed.

End ChainFacts.

Section NameFacts.
Import Py Pathlib Fs Persist Spec Env.

Lemma fsencode_error_none s :
  forall i, fsencode_error i s = None <-> forallb fs_encodable s = true.
Proof.
  induction s as [|c s IH]; intros i; cbn [fsencode_error forallb].
  - split; reflexivity.
  - destruct (fs_encodable c); cbn [andb]; [apply IH|].
    split; discriminate.
Qed.

Lemma refused_none_text p :
  refused p = None <-> forallb plain_char (path_str p) = true.
Proof.
  unfold refused.
  assert (Hsplit : forall s,
            forallb plain_char s = true <->
            forallb fs_encodable s = true /\ existsb (N.eqb 0) s = false).
  { induction s as [|c s IH]; cbn [forallb existsb]; [now split|].
    unfold plain_char at 1. rewrite !andb_true_iff, IH, orb_false_iff.
    rewrite negb_true_iff, (N.eqb_sym 0 c). tauto. }
  rewrite Hsplit, <- (fsencode_error_none _ 0%nat).
  destruct (fsencode_error 0 (path_str p)) as [e|].
  - split; [discriminate | now intros [? _]].
  - destruct (existsb (N.eqb 0) (path_str p)).
    + split; [discriminate | now intros [_ ?]].
    + now split.
Qed.

Lemma path_text_plain p :
  forallb plain_char (path_str p) = true <-> plain_path p.
Proof.
  unfold plain_path. induction p as [|a rest IH].
  - split; [constructor | reflexivity].
  - destruct rest as [|b rest].
    + cbn [path_str]. split.
      * intros H. now repeat constructor.
      * now inversion 1.
    + change (path_str (a :: b :: rest))
        with (if is_anchor a then a ++ path_str (b :: rest)
              else a ++ lit "/" ++ path_str (b :: rest)).
      assert (H : forallb plain_char
                    (if is_anchor a then a ++ path_str (b :: rest)
                     else a ++ lit "/" ++ path_str (b :: rest)) = true <->
                  forallb plain_char a = true /\
                  forallb plain_char (path_str (b :: rest)) = true).
      { destruct (is_anchor a); rewrite ?forallb_app, ?andb_true_iff.
        - reflexivity.
        - change (forallb plain_char (lit "/")) with true. tauto. }
      rewrite H, IH. split.
      * intros [Ha Hr]. now constructor.
      * now inversion 1.
Qed.

Lemma refused_none_plain p : refused p = None <-> plain_path p.
Proof. rewrite refused_none_text. apply path_text_plain. Qed.

Lemma plain_removelast (p : Path) : plain_path p -> plain_path (removelast p).
Proof.
  unfold plain_path. induction 1 as [|a rest Ha Hr IH]; [constructor|].
  destruct rest as [|b rest]; [constructor|].
  change (removelast (a :: b :: rest)) with (a :: removelast (b :: rest)).
  now constructor.
Qed.

Lemma plain_parent p : plain_path p -> plain_path (parent p).
Proof.
  intros H. destruct p as [|a [|b rest]].
  - exact H.
  - cbn. destruct (is_anchor a); [exact H | constructor].
  - now apply plain_removelast.
Qed.

Lemma plain_name p : plain_path p -> forallb plain_char (name p) = true.
Proof.
  unfold plain_path. intros H. destruct p as [|a [|b rest]].
  - reflexivity.
  - cbn. destruct (is_anchor a); [reflexivity | now inversion H].
  - change (name (a :: b :: rest)) with (List.last (a :: b :: rest) []).
    induction H as [|x l Hx Hl IH]; [reflexivity|].
    destruct l as [|y l]; [exact Hx | exact IH].
Qed.

Lemma plain_firstn k (s : str) :
  forallb plain_char s = true -> forallb plain_char (firstn k s) = true.
Proof.
  revert s. induction k as [|k IH]; intros [|c s]; try reflexivity.
  cbn [firstn forallb]. rewrite !andb_true_iff. intros [Hc Hs].
  split; [exact Hc | now apply IH].
Qed.

(** A call that takes the target's name takes the names of its parent
    and of its staging file. *)
Lemma staging_names_accepted path temp :
  temp_path_of path = Return temp -> refused path = None ->
  refused (parent path) = None /\ refused temp = None.
Proof.
  intros Ht Hp. apply refused_none_plain in Hp.
  apply temp_path_of_shape in Ht as [_ ->].
  rewrite !refused_none_plain. split; [now apply plain_parent|].
  unfold plain_path. apply Forall_app. split; [now apply plain_parent|].
  constructor; [|constructor].
  rewrite forallb_app, andb_true_iff. split; [|reflexivity].
  unfold stem. now apply plain_firstn, plain_name.
Qed.

End NameFacts.

Section AttemptFacts.
Import Py Pathlib Fs Persist Spec Env.
Local Open Scope fs_scope.

Variables (path temp : Path) (content : payload) (data : bytes).
Hypothesis Htemp : temp_path_of path = Return temp.
Hypothesis Hname : refused path = None.
Hypothesis Hdata :
  match content with PBytes b => Return b | PStr s => encode s end = Return data.

(** The calls of an attempt up to the rename, in an environment that lets
    them through; the removal of a stale staging file may fail. *)
Lemma stage_then (k : M unit) w :
  let stale := bool_decide (is_Some (files w !! temp)) in
  calm (firstn 2 (faults w)) ->
  calm (firstn 2 (skipn (if stale then 3 else 2) (faults w))) ->
  way_clear (files w) (parent path) -> temp ∉ dirs w ->
  exists w1,
    (mkdir_parents (parent path) ;;;
     st <~ path_exists temp ;;
     (if st then unlink_quietly temp else ret tt) ;;;
     write_file temp (mode_of content) content ;;; k) w = k w1 /\
    files w1 = <[temp := data]> (files w) /\
    dirs w1 = dirs w ∪ list_to_set (prefixes (parent path)) /\
    faults w1 = skipn (if stale then 5 else 4) (faults w) /\
    trace w1 = trace w ++ [EvMkdir (parent path); EvExists temp] ++
               (if stale then [EvUnlink temp] else []) ++
               [EvOpen temp (mode_of content); EvWrite temp].
Proof.
  intros stale Hh Hc Hw Hd.
  destruct (staging_names_accepted _ _ Htemp Hname) as [Hrp Hrt].
  destruct (mkdir_parents_goes _ w Hrp (calm_firstn_hd _ _ Hh) Hw)
    as (w1 & E1 & F1 & D1 & S1 & T1).
  unfold bind at 1. rewrite E1.
  assert (Hnd : temp ∉ dirs w1).
  { rewrite D1. pose proof (proj1 (staging_outside_chain _ _ Htemp)). set_solver. }
  destruct (path_exists_goes temp w1 Hrt) as (w2 & E2 & F2 & D2 & S2 & T2).
  { rewrite S1. apply (calm_firstn_hd 0), calm_firstn_tl, Hh. }
  unfold bind at 1. rewrite E2.
  rewrite (bool_decide_eq_false_2 _ Hnd), orb_false_r, F1. fold stale.
  assert (Hnd2 : temp ∉ dirs w2) by now rewrite D2.
  assert (S2' : faults w2 = skipn 2 (faults w)).
  { rewrite S2, S1. now destruct (faults w) as [|? [|? ?]]. }
  subst stale. destruct (files w !! temp) as [old|] eqn:Hold.
  - rewrite bool_decide_eq_true_2 in * by eauto.
    destruct (unlink_quietly_stale temp old w2 Hrt)
      as (w3 & E3 & F3 & D3 & S3 & T3).
    { now rewrite F2, F1. }
    unfold bind at 1. rewrite E3.
    destruct (write_file_goes temp (mode_of content) content data w3 Hdata Hrt)
      as (w4 & E4 & F4 & D4 & S4 & T4).
    { rewrite S3, S2', tl_skipn. exact Hc. }
    { now rewrite D3. }
    unfold bind at 1. rewrite E4. exists w4. split; [reflexivity|].
    rewrite F4, D4, D3, D2, D1, S4, S3, S2', T4, T3, T2, T1, <- !app_assoc.
    rewrite tl_skipn, skipn_skipn.
    repeat split.
    destruct F3 as [-> | ->]; rewrite F2, F1; [reflexivity|apply insert_delete_eq].
  - rewrite bool_decide_eq_false_2 in * by (intros [? ?]; discriminate).
    unfold bind at 1, ret at 1.
    destruct (write_file_goes temp (mode_of content) content data w2 Hdata Hrt)
      as (w4 & E4 & F4 & D4 & S4 & T4).
    { rewrite S2'. exact Hc. }
    { exact Hnd2. }
    unfold bind at 1. rewrite E4. exists w4. split; [reflexivity|].
    rewrite F4, D4, D2, D1, S4, S2', T4, T2, T1, F2, F1, <- !app_assoc.
    rewrite skipn_skipn.
    repeat split.
Qed.

(** An attempt whose calls all go through. *)
Lemma write_attempt_goes w :
  let stale := bool_decide (is_Some (files w !! temp)) in
  calm (firstn 2 (faults w)) ->
  calm (firstn 3 (skipn (if stale then 3 else 2) (faults w))) ->
  way_clear (files w) (parent path) -> temp ∉ dirs w -> path ∉ dirs w ->
  exists w',
    write_attempt path temp (mode_of content) content w = (w', Return tt) /\
    files w' = <[path := data]> (delete temp (files w)) /\
    dirs w' = dirs w ∪ list_to_set (prefixes (parent path)) /\
    faults w' = skipn (if stale then 6 else 5) (faults w) /\
    trace w' = trace w ++ [EvMkdir (parent path); EvExists temp] ++
               (if stale then [EvUnlink temp] else []) ++
               [EvOpen temp (mode_of content); EvWrite temp;
                EvReplace temp path].
Proof.
  intros stale Hh Hc Hw Hd Hpd.
  destruct (staging_names_accepted _ _ Htemp Hname) as [Hrp Hrt].
  destruct (stage_then (replace temp path) w) as (w1 & E1 & F1 & D1 & S1 & T1);
    try assumption.
  { fold stale. now apply calm_firstn_le with (n := 3%nat); [lia|]. }
  fold stale in S1, T1. unfold write_attempt. rewrite E1.
  destruct (replace_goes temp path data w1 Hrt Hname)
    as (w2 & E2 & F2 & D2 & S2 & T2).
  { rewrite S1. apply (calm_firstn_at 2 3) in Hc; [|lia].
    rewrite skipn_skipn in Hc. now destruct stale. }
  { rewrite F1. apply lookup_insert_eq. }
  { rewrite D1. pose proof (proj2 (staging_outside_chain _ _ Htemp)). set_solver. }
  exists w2. split; [exact E2|].
  rewrite F2, F1, D2, D1, S2, S1, T2, T1, delete_insert_eq, <- !app_assoc.
  repeat split. rewrite tl_skipn. now destruct stale.
Qed.

(** An attempt whose rename is refused. *)
Lemma write_attempt_blocked c msg w :
  let stale := bool_decide (is_Some (files w !! temp)) in
  calm (firstn 2 (faults w)) ->
  calm (firstn 2 (skipn (if stale then 3 else 2) (faults w))) ->
  hd NoFault (skipn (if stale then 5 else 4) (faults w)) = Fail c msg ->
  way_clear (files w) (parent path) -> temp ∉ dirs w ->
  exists w',
    write_attempt path temp (mode_of content) content w
    = (w', Raise (Exn (OS c) msg)) /\
    files w' = <[temp := data]> (files w) /\
    dirs w' = dirs w ∪ list_to_set (prefixes (parent path)) /\
    faults w' = skipn (if stale then 6 else 5) (faults w) /\
    trace w' = trace w ++ [EvMkdir (parent path); EvExists temp] ++
               (if stale then [EvUnlink temp] else []) ++
               [EvOpen temp (mode_of content); EvWrite temp;
                EvReplace temp path].
Proof.
  intros stale Hh Hc Hb Hw Hd.
  destruct (staging_names_accepted _ _ Htemp Hname) as [Hrp Hrt].
  destruct (stage_then (replace temp path) w) as (w1 & E1 & F1 & D1 & S1 & T1);
    try assumption.
  fold stale in S1, T1. unfold write_attempt. rewrite E1.
  destruct (replace_blocked temp path c msg w1 Hrt Hname)
    as (w2 & E2 & F2 & D2 & S2 & T2).
  { now rewrite S1. }
  exists w2. split; [exact E2|].
  rewrite F2, F1, D2, D1, S2, S1, T2, T1, <- !app_assoc.
  repeat split. rewrite tl_skipn. now destruct stale.
Qed.

End AttemptFacts.

Section PassThrough.
Import Py Pathlib Fs Persist Spec Env.
Local Open Scope fs_scope.

Variables (path temp : Path) (content : payload) (data : bytes)
          (max_retries : Z).
Hypothesis Htemp : temp_path_of path = Return temp.
Hypothesis Hname : refused path = None.
Hypothesis Hdata :
  match content with PBytes b => Return b | PStr s => encode s end = Return data.

Lemma atomic_write_first_attempt w w' :
  (1 <= max_retries)%Z ->
  write_attempt path temp (mode_of content) content w = (w', Return tt) ->
  atomic_write path content max_retries w = (w', Return tt).
Proof.
  intros Hn E. unfold atomic_write. rewrite Htemp.
  destruct (Z.to_nat max_retries) as [|k] eqn:Hk; [lia|].
  cbn [attempt_loop]. unfold bind, attempt. now rewrite E.
Qed.

Lemma sharing_violation_transient :
  exists c msg, sharing_violation = Fail c msg /\
    is_oserror (Exn (OS c) msg) = true /\ is_lock_error (Exn (OS c) msg) = true.
Proof.
  eexists _, _. split; [reflexivity|]. split; vm_compute; reflexivity.
Qed.

(** The loop from an attempt that finds the file of the attempt before it:
    [j] more refused renames, then an environment that lets every call
    through. *)
Lemma locked_loop rest :
  calm rest ->
  forall j (a : nat) remaining last old w,
    files w !! temp = Some old ->
    faults w
    = concat (repeat [NoFault; NoFault; NoFault; NoFault; NoFault;
                      sharing_violation] j)
      ++ rest ->
    (Z.of_nat a + Z.of_nat j < max_retries)%Z -> (j < remaining)%nat ->
    way_clear (files w) (parent path) -> temp ∉ dirs w -> path ∉ dirs w ->
    exists w' evs,
      attempt_loop path temp (mode_of content) content max_retries remaining
                   (Z.of_nat a) last w = (w', Return Returned) /\
      files w' = <[path := data]> (delete temp (files w)) /\
      trace w' = trace w ++ evs /\
      attempts evs = S j /\
      sleeps evs = List.map (fun i => wait_time (Z.of_nat i)) (seq a j).
Proof.
  intros Hrest.
  induction j as [|j IH]; intros a remaining last old w Hold Hs Ha Hr Hw Hd Hpd;
    (destruct remaining as [|remaining]; [lia|]); cbn [attempt_loop].
  - cbn [repeat concat app] in Hs.
    destruct (write_attempt_goes path temp content data Htemp Hname Hdata w)
      as (w1 & E1 & F1 & D1 & S1 & T1); try assumption.
    + rewrite Hs. now apply calm_firstn.
    + rewrite Hs. now apply calm_firstn, calm_skipn.
    + unfold bind at 1, attempt at 1. rewrite E1.
      rewrite bool_decide_eq_true_2 in T1 by eauto.
      eexists w1, _. split; [reflexivity|]. split; [exact F1|].
      split; [exact T1|]. split; reflexivity.
  - cbn [repeat concat app] in Hs.
    destruct sharing_violation_transient as (c & msg & Hsv & Hos & Hlock).
    destruct (write_attempt_blocked path temp content data Htemp Hname Hdata
                c msg w)
      as (w1 & E1 & F1 & D1 & S1 & T1); try assumption.
    + rewrite Hs. cbn. repeat constructor.
    + rewrite bool_decide_eq_true_2 by eauto. rewrite Hs. cbn.
      repeat constructor.
    + rewrite bool_decide_eq_true_2 by eauto. now rewrite Hs.
    + rewrite bool_decide_eq_true_2 in S1, T1 by eauto.
      rewrite Hs in S1. cbn [skipn app] in S1.
      unfold bind at 1, attempt at 1. rewrite E1.
      unfold bind at 1, emit at 1. cbv beta iota. rewrite Hos, Hlock.
      replace (Z.of_nat a <? max_retries - 1)%Z with true
        by (symmetry; apply Z.ltb_lt; lia).
      cbv beta iota. cbn [andb].
      unfold bind at 1, log, emit at 1. cbv beta iota.
      unfold bind at 1, sleep, emit at 1. cbv beta iota.
      cbn [files dirs faults trace snapshots].
      replace (Z.of_nat a + 1)%Z with (Z.of_nat (S a)) by lia.
      match goal with
      | |- context [attempt_loop _ _ _ _ _ _ _ _ ?w2] =>
          destruct (IH (S a) remaining
                       (Some (Exn (OS c) msg)) data w2)
            as (w' & evs & E & F & T & A & Sl)
      end; cbn [files dirs faults trace snapshots].
      * rewrite F1. apply lookup_insert_eq.
      * exact S1.
      * lia.
      * lia.
      * rewrite F1. apply way_clear_insert; [|exact Hw].
        apply (staging_outside_chain _ _ Htemp).
      * rewrite D1. pose proof (proj1 (staging_outside_chain _ _ Htemp)).
        set_solver.
      * rewrite D1. pose proof (proj2 (staging_outside_chain _ _ Htemp)).
        set_solver.
      * cbn [files dirs faults trace snapshots] in F, T.
        eexists w', _. split; [exact E|]. split.
        { rewrite F, F1. now rewrite delete_insert_eq. }
        split.
        { rewrite T, T1, <- !app_assoc. cbn [app]. reflexivity. }
        split.
        { unfold attempts in *. cbn [List.filter length]. now rewrite A. }
        { unfold sleeps in *. cbn [flat_map app seq List.map]. now rewrite Sl. }
Qed.

End PassThrough.

(** X11. The plain case. When no system call fails (the target's name is
    one the system takes and the environment lets every call through), no
    regular file sits where the parent directories are needed, and
    neither the target nor its staging path is a directory, a call with
    at least one attempt allowed returns after a single attempt: it
    makes the directories,
    removes a stale staging file if there is one, writes the staging file
    and renames it onto the target, in this order and with no pause.
    Afterwards the target holds the whole payload, the staging file is
    gone and every other file is as before. *)
Theorem atomic_write_succeeds_when_calls_go_through
    (path temp : Pathlib.Path) (content : Persist.payload) (data : Py.bytes)
    (max_retries : Z) (w : Fs.World) :
  (1 <= max_retries)%Z ->
  Persist.temp_path_of path = Py.Return temp ->
  Fs.refused path = None ->
  match content with
  | Persist.PBytes b => Py.Return b
  | Persist.PStr s => Py.encode s
  end = Py.Return data ->
  Env.calm (Fs.faults w) ->
  Env.way_clear (Fs.files w) (Pathlib.parent path) ->
  temp ∉ Fs.dirs w -> path ∉ Fs.dirs w ->
  exists w',
    Persist.atomic_write path content max_retries w = (w', Py.Return tt) /\
    Fs.files w' = <[path := data]> (delete temp (Fs.files w)) /\
    Fs.trace w'
    = Fs.trace w ++ [Fs.EvMkdir (Pathlib.parent path); Fs.EvExists temp] ++
      (if bool_decide (is_Some (Fs.files w !! temp))
       then [Fs.EvUnlink temp] else []) ++
      [Fs.EvOpen temp (Persist.mode_of content); Fs.EvWrite temp;
       Fs.EvReplace temp path].
Proof.
  intros Hn Htemp Hname Hdata Hcalm Hw Hd Hpd.
  destruct (write_attempt_goes path temp content data Htemp Hname Hdata w)
    as (w1 & E1 & F1 & D1 & S1 & T1); try assumption.
  - now apply calm_firstn.
  - now apply calm_firstn, calm_skipn.
  - exists w1. split; [|split; assumption].
    now apply atomic_write_first_attempt with (temp := temp).
Qed.

Lemma atomic_write_plain_witness :
  let target := Spec.cache_file "a.parquet" in
  let temp := Spec.cache_file "a.tmp" in
  let w := Persist.boot {[ target := Py.lit "old" ]} ∅ [] in
  exists w',
    Persist.atomic_write target (Persist.PStr (Py.lit "new")) 3 w
    = (w', Py.Return tt) /\
    Fs.files w' = <[target := Py.lit "new"]> (delete temp (Fs.files w)) /\
    Fs.trace w'
    = Fs.trace w ++ [Fs.EvMkdir (Pathlib.parent target); Fs.EvExists temp] ++
      (if bool_decide (is_Some (Fs.files w !! temp))
       then [Fs.EvUnlink temp] else []) ++
      [Fs.EvOpen temp (Persist.mode_of (Persist.PStr (Py.lit "new")));
       Fs.EvWrite temp; Fs.EvReplace temp target].
Proof.
  cbv zeta.
  refine (atomic_write_succeeds_when_calls_go_through
            (Spec.cache_file "a.parquet") (Spec.cache_file "a.tmp")
            (Persist.PStr (Py.lit "new")) (Py.lit "new") 3
            (Persist.boot {[ Spec.cache_file "a.parquet" := Py.lit "old" ]} ∅ [])
            _ _ _ _ _ _ _ _).
  - lia.
  - reflexivity.
  - vm_compute. reflexivity.
  - reflexivity.
  - constructor.
  - vm_compute. reflexivity.
  - apply not_elem_of_empty.
  - apply not_elem_of_empty.
Defined.

(** X12. A stale staging file that cannot be removed. When the staging
    file is left over from an earlier call and its removal fails, with
    whatever [OSError], while the other calls go through, the call still
    returns after a single attempt: opening the staging file truncates it,
    and the target ends up with the whole payload and the staging file
    gone. *)
Theorem atomic_write_overwrites_stubborn_staging_file
    (path temp : Pathlib.Path) (content : Persist.payload)
    (data old : Py.bytes) (max_retries : Z) (f : Fs.fault)
    (rest : list Fs.fault) (w : Fs.World) :
  (1 <= max_retries)%Z ->
  Persist.temp_path_of path = Py.Return temp ->
  Fs.refused path = None ->
  match content with
  | Persist.PBytes b => Py.Return b
  | Persist.PStr s => Py.encode s
  end = Py.Return data ->
  Fs.files w !! temp = Some old ->
  Fs.faults w = Fs.NoFault :: Fs.NoFault :: f :: rest -> Env.calm rest ->
  Env.way_clear (Fs.files w) (Pathlib.parent path) ->
  temp ∉ Fs.dirs w -> path ∉ Fs.dirs w ->
  exists w',
    Persist.atomic_write path content max_retries w = (w', Py.Return tt) /\
    Fs.files w' = <[path := data]> (delete temp (Fs.files w)) /\
    Fs.trace w'
    = Fs.trace w ++
      [Fs.EvMkdir (Pathlib.parent path); Fs.EvExists temp; Fs.EvUnlink temp;
       Fs.EvOpen temp (Persist.mode_of content); Fs.EvWrite temp;
       Fs.EvReplace temp path].
Proof.
  intros Hn Htemp Hname Hdata Hold Hs Hcalm Hw Hd Hpd.
  destruct (write_attempt_goes path temp content data Htemp Hname Hdata w)
    as (w1 & E1 & F1 & D1 & S1 & T1); try assumption.
  - rewrite Hs. cbn. repeat constructor.
  - rewrite bool_decide_eq_true_2 by eauto. rewrite Hs. cbn [skipn].
    now apply calm_firstn.
  - rewrite bool_decide_eq_true_2 in T1 by eauto.
    exists w1. split; [|split; assumption].
    now apply atomic_write_first_attempt with (temp := temp).
Qed.

Lemma atomic_write_stubborn_witness :
  let target := Spec.cache_file "a.parquet" in
  let temp := Spec.cache_file "a.tmp" in
  let w := Persist.boot {[ target := Py.lit "old"; temp := Py.lit "stale" ]} ∅
             [Fs.NoFault; Fs.NoFault; Spec.permission_denied] in
  exists w',
    Persist.atomic_write target (Persist.PBytes (Py.lit "new")) 1 w
    = (w', Py.Return tt) /\
    Fs.files w' = <[target := Py.lit "new"]> (delete temp (Fs.files w)) /\
    Fs.trace w'
    = Fs.trace w ++
      [Fs.EvMkdir (Pathlib.parent target); Fs.EvExists temp; Fs.EvUnlink temp;
       Fs.EvOpen temp (Persist.mode_of (Persist.PBytes (Py.lit "new")));
       Fs.EvWrite temp; Fs.EvReplace temp target].
Proof.
  cbv zeta.
  refine (atomic_write_overwrites_stubborn_staging_file
            (Spec.cache_file "a.parquet") (Spec.cache_file "a.tmp")
            (Persist.PBytes (Py.lit "new")) (Py.lit "new") (Py.lit "stale") 1
            Spec.permission_denied []
            (Persist.boot {[ Spec.cache_file "a.parquet" := Py.lit "old";
                             Spec.cache_file "a.tmp" := Py.lit "stale" ]} ∅
                          [Fs.NoFault; Fs.NoFault; Spec.permission_denied])
            _ _ _ _ _ _ _ _ _ _).
  - lia.
  - reflexivity.
  - vm_compute. reflexivity.
  - reflexivity.
  - vm_compute. reflexivity.
  - reflexivity.
  - constructor.
  - vm_compute. reflexivity.
  - apply not_elem_of_empty.
  - apply not_elem_of_empty.
Defined.

(** X13. Outlasting a lock. When the rename is refused with a sharing
    violation in each of the first [n] attempts, [n] smaller than
    [max_retries], and every other call goes through, the call returns: it
    makes [n + 1] attempts, pauses after each refused one for 10 ms,
    20 ms, 40 ms, ... and leaves the target with the whole payload, no
    staging file and every other file as before. *)
Theorem atomic_write_outlasts_lock
    (path temp : Pathlib.Path) (content : Persist.payload) (data : Py.bytes)
    (max_retries : Z) (n : nat) (rest : list Fs.fault) (w : Fs.World) :
  (1 <= n)%nat -> (Z.of_nat n < max_retries)%Z ->
  Persist.temp_path_of path = Py.Return temp ->
  Fs.refused path = None ->
  match content with
  | Persist.PBytes b => Py.Return b
  | Persist.PStr s => Py.encode s
  end = Py.Return data ->
  Fs.files w !! temp = None ->
  Fs.faults w = Env.locked_script n ++ rest -> Env.calm rest ->
  Env.way_clear (Fs.files w) (Pathlib.parent path) ->
  temp ∉ Fs.dirs w -> path ∉ Fs.dirs w ->
  exists w' evs,
    Persist.atomic_write path content max_retries w = (w', Py.Return tt) /\
    Fs.files w' = <[path := data]> (Fs.files w) /\
    Fs.trace w' = Fs.trace w ++ evs /\
    Persist.attempts evs = S n /\
    Persist.sleeps evs = Env.schedule n.
Proof.
  intros Hn Hlt Htemp Hname Hdata Hnone Hs Hcalm Hw Hd Hpd.
  destruct n as [|m]; [lia|]. unfold Env.locked_script in Hs.
  replace (S m - 1)%nat with m in Hs by lia. cbn [app] in Hs.
  destruct sharing_violation_transient as (c & msg & Hsv & Hos & Hlock).
  destruct (write_attempt_blocked path temp content data Htemp Hname Hdata
              c msg w)
    as (w1 & E1 & F1 & D1 & S1 & T1); try assumption.
  - rewrite Hs. cbn. repeat constructor.
  - rewrite bool_decide_eq_false_2 by (rewrite Hnone; intros [? ?]; discriminate).
    rewrite Hs. cbn. repeat constructor.
  - rewrite bool_decide_eq_false_2 by (rewrite Hnone; intros [? ?]; discriminate).
    now rewrite Hs.
  - rewrite bool_decide_eq_false_2 in S1, T1
      by (rewrite Hnone; intros [? ?]; discriminate).
    rewrite Hs in S1. cbn [skipn] in S1.
    unfold Persist.atomic_write. rewrite Htemp.
    destruct (Z.to_nat max_retries) as [|k] eqn:Hk; [lia|].
    cbn [Persist.attempt_loop].
    unfold Fs.bind at 1. unfold Fs.bind at 1, Fs.attempt at 1. rewrite E1.
    unfold Fs.bind at 1, Fs.emit at 1. cbv beta iota. rewrite Hos, Hlock.
    replace (0 <? max_retries - 1)%Z with true by (symmetry; apply Z.ltb_lt; lia).
    cbv beta iota. cbn [andb].
    unfold Fs.bind at 1, Fs.log, Fs.emit at 1. cbv beta iota.
    unfold Fs.bind at 1, Fs.sleep, Fs.emit at 1. cbv beta iota.
    cbn [Fs.files Fs.dirs Fs.faults Fs.trace Fs.snapshots].
    change (0 + 1)%Z with (Z.of_nat 1).
    match goal with
    | |- context [Persist.attempt_loop _ _ _ _ _ _ _ _ ?w2] =>
        destruct (locked_loop path temp content data max_retries Htemp Hname
                    Hdata rest Hcalm m 1%nat k
                    (Some (Py.Exn (Py.OS c) msg)) data w2)
          as (w' & evs & E & F & T & A & Sl)
    end; cbn [Fs.files Fs.dirs Fs.faults Fs.trace Fs.snapshots].
    + rewrite F1. apply lookup_insert_eq.
    + exact S1.
    + lia.
    + lia.
    + rewrite F1. apply way_clear_insert; [|exact Hw].
      apply (staging_outside_chain _ _ Htemp).
    + rewrite D1. pose proof (proj1 (staging_outside_chain _ _ Htemp)).
      set_solver.
    + rewrite D1. pose proof (proj2 (staging_outside_chain _ _ Htemp)).
      set_solver.
    + cbn [Fs.files Fs.dirs Fs.faults Fs.trace Fs.snapshots] in F, T.
      rewrite E. eexists w', _. split; [reflexivity|]. split.
      { rewrite F, F1, delete_insert_eq. now rewrite delete_id. }
      split.
      { rewrite T, T1, <- !app_assoc. cbn [app]. reflexivity. }
      split.
      { unfold Persist.attempts in *. cbn [List.filter length]. now rewrite A. }
      { unfold Persist.sleeps, Env.schedule in *.
        cbn [flat_map app seq List.map]. now rewrite Sl. }
Qed.

Lemma atomic_write_outlasts_lock_witness :
  let target := Spec.cache_file "a.parquet" in
  let w := Persist.boot {[ target := Py.lit "old" ]} ∅ (Env.locked_script 2) in
  exists w' evs,
    Persist.atomic_write target (Persist.PBytes (Py.lit "new")) 3 w
    = (w', Py.Return tt) /\
    Fs.files w' = <[target := Py.lit "new"]> (Fs.files w) /\
    Fs.trace w' = Fs.trace w ++ evs /\
    Persist.attempts evs = 3%nat /\
    Persist.sleeps evs = Env.schedule 2.
Proof.
  cbv zeta.
  refine (atomic_write_outlasts_lock
            (Spec.cache_file "a.parquet") (Spec.cache_file "a.tmp")
            (Persist.PBytes (Py.lit "new")) (Py.lit "new") 3 2 []
            (Persist.boot {[ Spec.cache_file "a.parquet" := Py.lit "old" ]} ∅
                          (Env.locked_script 2))
            _ _ _ _ _ _ _ _ _ _ _).
  - lia.
  - lia.
  - reflexivity.
  - vm_compute. reflexivity.
  - reflexivity.
  - vm_compute. reflexivity.
  - vm_compute. reflexivity.
  - constructor.
  - vm_compute. reflexivity.
  - apply not_elem_of_empty.
  - apply not_elem_of_empty.
Defined.
(** ** The errors of a persist call *)

Section ErrorFacts.
Import Py Pathlib Fs Persist Spec Env.
Local Open Scope fs_scope.

Lemma bind_raises {A B} (m : M A) (k : A -> M B) w w' e :
  bind m k w = (w', Raise e) ->
  m w = (w', Raise e) \/
  exists w1 a, m w = (w1, Return a) /\ k a w1 = (w', Raise e).
Proof.
  unfold bind. destruct (m w) as [w1 [a|e0]]; [eauto|].
  intros [= <- <-]. now left.
Qed.

Lemma mkdir_parents_raises p w w' e :
  mkdir_parents p w = (w', Raise e) ->
  is_oserror e = true \/ refused p = Some e.
Proof.
  unfold mkdir_parents, bind, emit, next_fault, get_files, get_dirs, set_dirs, raise.
  destruct (refused p) as [e0|]; [intros [= _ <-]; now right|]. left. revert H.
  cbn [faults files dirs].
  destruct (faults w) as [|[|c msg|n c msg] rest]; cbn [files dirs];
    try (intros [= _ <-]; reflexivity);
    (destruct (existsb _ (prefixes p)); [|discriminate];
     intros [= _ <-]; now destruct (existsb _ _)).
Qed.

Lemma open_write_raises p mode w w' e :
  open_write p mode w = (w', Raise e) ->
  is_oserror e = true \/ refused p = Some e.
Proof.
  unfold open_write, bind, emit, next_fault, get_files, get_dirs, set_files, raise.
  destruct (refused p) as [e0|]; [intros [= _ <-]; now right|]. left. revert H.
  cbn [faults files dirs].
  destruct (faults w) as [|[|c msg|n c msg] rest]; cbn [files dirs];
    try (intros [= _ <-]; reflexivity);
    (destruct (bool_decide _); [intros [= _ <-]; reflexivity | discriminate]).
Qed.

Lemma write_close_raises_oserror p data w w' e :
  write_close p data w = (w', Raise e) -> is_oserror e = true.
Proof.
  unfold write_close, bind, emit, next_fault, get_files, get_dirs, set_files, raise.
  cbn [faults files dirs].
  destruct (faults w) as [|[|c msg|n c msg] rest]; cbn [files dirs];
    try discriminate; intros [= _ <-]; reflexivity.
Qed.

Lemma replace_raises src dst w w' e :
  replace src dst w = (w', Raise e) ->
  is_oserror e = true \/ refused src = Some e \/ refused dst = Some e.
Proof.
  unfold replace, bind, emit, next_fault, get_files, get_dirs, set_files, raise.
  destruct (refused src) as [e0|]; [intros [= _ <-]; now right; left|].
  destruct (refused dst) as [e0|]; [intros [= _ <-]; now right; right|].
  left. revert H. cbn [faults files dirs].
  destruct (faults w) as [|[|c msg|n c msg] rest]; cbn [files dirs];
    try (intros [= _ <-]; reflexivity);
    (destruct (files w !! src); [destruct (bool_decide _)|];
     try discriminate; intros [= _ <-]; reflexivity).
Qed.

Lemma write_file_raises path temp mode content w w' e :
  write_file temp mode content w = (w', Raise e) ->
  attempt_error path temp content e.
Proof.
  unfold write_file, attempt_error. intros H.
  apply bind_raises in H as [H | (w1 & [] & _ & H)].
  - apply open_write_raises in H as [H | H]; [now left | right; left; tauto].
  - destruct content as [s|b].
    + destruct (encode s) as [bs|e0] eqn:Es.
      * left. now apply write_close_raises_oserror in H.
      * injection H as _ ->. right. right. now exists s.
    + left. now apply write_close_raises_oserror in H.
Qed.

Lemma write_attempt_raises path temp mode content w w' e :
  write_attempt path temp mode content w = (w', Raise e) ->
  attempt_error path temp content e.
Proof.
  unfold write_attempt. intros H.
  apply bind_raises in H as [H | (w1 & [] & _ & H)].
  { apply mkdir_parents_raises in H as [H | H];
      [now left | right; left; tauto]. }
  apply bind_raises in H as [H | (w2 & stale & Hst & H)].
  { left. exact (path_exists_raises _ _ _ _ H). }
  apply bind_raises in H as [H | (w3 & [] & _ & H)].
  { destruct stale; [|discriminate].
    apply unlink_quietly_returns in H; [discriminate|].
    exact (path_exists_true _ _ _ Hst). }
  apply bind_raises in H as [H | (w4 & [] & _ & H)].
  { now apply write_file_raises with (path := path) in H. }
  apply replace_raises in H as [H | [H | H]];
    [now left | right; left; tauto | right; left; tauto].
Qed.

(** What the loop hands on: an error of an attempt, or nothing when no
    attempt was made. *)
Lemma attempt_loop_exit path temp mode content max_retries k :
  forall a last w w' r,
    attempt_loop path temp mode content max_retries k a last w = (w', r) ->
    (forall e, last = Some e -> attempt_error path temp content e) ->
    exists ex, r = Return ex /\
      match ex with
      | Returned => True
      | FellThrough (Some e) => attempt_error path temp content e
      | FellThrough None => last = None /\ k = O
      end.
Proof.
  induction k as [|k IH]; intros a last w w' r; cbn [attempt_loop].
  - intros [= _ <-] Hl. exists (FellThrough last). split; [reflexivity|].
    destruct last as [e|]; [now apply Hl | now split].
  - unfold bind at 1, attempt at 1.
    destruct (write_attempt path temp mode content w) as [w1 [[]|e]] eqn:E1.
    + intros [= _ <-] _. now exists Returned.
    + apply write_attempt_raises in E1.
      unfold bind at 1, emit at 1. cbv beta iota.
      destruct (is_oserror e);
        [destruct (is_lock_error e && (a <? max_retries - 1)%Z)|];
        try (intros [= _ <-] _; now exists (FellThrough (Some e))).
      unfold bind at 1, log, emit at 1. cbv beta iota.
      unfold bind at 1, sleep, emit at 1. cbv beta iota.
      intros H _.
      destruct (IH _ _ _ _ _ H) as (ex & -> & Hex); [now intros e0 [= <-]|].
      exists ex. split; [reflexivity|].
      destruct ex as [|[e1|]]; [exact I | exact Hex | now destruct Hex].
Qed.

Lemma named_path_stages p :
  name p <> [] -> exists temp, temp_path_of p = Return temp.
Proof.
  intros Hn. destruct (temp_path_of p) as [t|e] eqn:E; [now exists t|].
  exfalso. revert E. unfold temp_path_of, with_suffix.
  replace (contains (lit "/") (lit ".tmp")) with false by reflexivity.
  cbv beta iota.
  replace ((negb (bool_decide (lit ".tmp" = [])) &&
            negb (starts_with (lit ".") (lit ".tmp")))%bool
           || bool_decide (lit ".tmp" = lit "."))%bool with false by reflexivity.
  cbv beta iota zeta.
  rewrite bool_decide_eq_false_2 by exact Hn. discriminate.
Qed.

Lemma nameless_path_rejected p :
  name p = [] ->
  temp_path_of p
  = Raise (Exn ValueError
             (lit "PosixPath('" ++ path_str p ++ lit "') has an empty name")).
Proof.
  intros Hn. unfold temp_path_of, with_suffix.
  replace (contains (lit "/") (lit ".tmp")) with false by reflexivity.
  cbv beta iota.
  replace ((negb (bool_decide (lit ".tmp" = [])) &&
            negb (starts_with (lit ".") (lit ".tmp")))%bool
           || bool_decide (lit ".tmp" = lit "."))%bool with false by reflexivity.
  cbv beta iota zeta.
  now rewrite bool_decide_eq_true_2 by exact Hn.
Qed.

(** The classes of the errors of a refused name and of a payload that
    cannot be encoded. *)
Lemma fsencode_error_class s :
  forall i e, fsencode_error i s = Some e -> exn_cls e = UnicodeEncodeError.
Proof.
  induction s as [|c s IH]; intros i e; cbn [fsencode_error]; [discriminate|].
  destruct (fs_encodable c); [apply IH|]. now intros [= <-].
Qed.

Lemma refused_class p e :
  refused p = Some e ->
  exn_cls e = UnicodeEncodeError \/ exn_cls e = ValueError.
Proof.
  unfold refused.
  destruct (fsencode_error 0 (path_str p)) as [e0|] eqn:E.
  - intros [= <-]. left. exact (fsencode_error_class _ _ _ E).
  - destruct (existsb _ _); [|discriminate]. intros [= <-]. now right.
Qed.

Lemma encode_error_class s e :
  encode s = Raise e -> exn_cls e = UnicodeEncodeError.
Proof.
  revert e. induction s as [|c s IH]; intros e; cbn [encode]; [discriminate|].
  destruct (utf8_char c); [|now intros [= <-]].
  destruct (encode s) as [bs|e0]; cbn [obind]; [discriminate|].
  intros [= <-]. now apply IH.
Qed.

Lemma oserror_class e : is_oserror e = true -> exists c, exn_cls e = OS c.
Proof. unfold is_oserror. destruct (exn_cls e); try discriminate. eauto. Qed.

Lemma path_exists_effect p w w' r :
  path_exists p w = (w', r) ->
  files w' = files w /\ dirs w' = dirs w /\ trace w' = trace w ++ [EvExists p].
Proof.
  unfold path_exists, bind, emit, next_fault, get_files, get_dirs, raise, ret.
  destruct (refused p); [intros [= <- _]; now repeat split|].
  cbn [faults files dirs trace snapshots].
  destruct (faults w) as [|[|c msg|n c msg] rest]; cbn [files dirs trace snapshots];
    try (intros [= <- _]; now repeat split);
    (destruct (ignored_by_exists c); intros [= <- _]; now repeat split).
Qed.

Lemma unlink_quietly_effect p w :
  refused p = None ->
  exists w', unlink_quietly p w = (w', Return tt) /\
    (files w' = files w \/ files w' = delete p (files w)) /\
    dirs w' = dirs w /\ trace w' = trace w ++ [EvUnlink p].
Proof.
  intros Hp.
  unfold unlink_quietly, attempt, unlink, bind, emit, next_fault, get_files,
    get_dirs, set_files, raise.
  rewrite Hp. cbn [faults files dirs trace snapshots].
  destruct (faults w) as [|[|c msg|n c msg] rest];
    cbn [faults files dirs trace snapshots];
    try (eexists; split; [reflexivity|]; cbn; now auto);
    (destruct (files w !! p); [|destruct (bool_decide (p ∈ dirs w))];
     eexists; (split; [reflexivity|]); cbn; auto).
Qed.

(** With text that cannot be encoded no attempt gets as far as the
    rename. *)
Lemma attempt_loop_unencodable path temp mode s e0 max_retries k :
  encode s = Raise e0 ->
  forall a last w w',
    attempt_loop path temp mode (PStr s) max_retries k a last w
    <> (w', Return Returned).
Proof.
  intros Hs. induction k as [|k IH]; intros a last w w'; cbn [attempt_loop].
  - discriminate.
  - unfold bind at 1, attempt at 1.
    destruct (write_attempt path temp mode (PStr s) w) as [w1 [[]|e]] eqn:E1.
    + exfalso. unfold write_attempt in E1.
      apply bind_returns in E1 as (w2 & [] & _ & E1).
      apply bind_returns in E1 as (w3 & stale & _ & E1).
      apply bind_returns in E1 as (w4 & [] & _ & E1).
      apply bind_returns in E1 as (w5 & [] & E1 & _).
      unfold write_file in E1.
      apply bind_returns in E1 as (w6 & [] & _ & E1).
      rewrite Hs in E1. discriminate.
    + unfold bind at 1, emit at 1. cbv beta iota.
      destruct (is_oserror e);
        [destruct (is_lock_error e && (a <? max_retries - 1)%Z)|];
        try discriminate.
      unfold bind at 1, log, emit at 1. cbv beta iota.
      unfold bind at 1, sleep, emit at 1. cbv beta iota.
      apply IH.
Qed.

End ErrorFacts.

(** X14. No attempt allowed. With [max_retries <= 0] a call on a named
    path makes no attempt at all: no directory is made and nothing is
    written. It logs and probes for the staging file. When the probe
    raises, its error is what the caller gets; otherwise the call removes
    whatever the probe found at the staging path (when that removal goes
    through) and raises the function's own
    [RuntimeError("Failed to write <path>")]. *)
Theorem atomic_write_without_attempts
    (path temp : Pathlib.Path) (content : Persist.payload) (max_retries : Z)
    (w : Fs.World) :
  (max_retries <= 0)%Z ->
  Persist.temp_path_of path = Py.Return temp ->
  exists w' e tail,
    Persist.atomic_write path content max_retries w = (w', Py.Raise e) /\
    match Fs.path_exists temp (Spec.traced w [Fs.EvLog (Py.lit "error")]) with
    | (_, Py.Raise e') => e = e' /\ tail = []
    | (_, Py.Return found) =>
        e = Py.Exn Py.RuntimeError
              (Py.lit "Failed to write " ++ Pathlib.path_str path) /\
        tail = if found then [Fs.EvUnlink temp] else []
    end /\
    Fs.dirs w' = Fs.dirs w /\
    (Fs.files w' = Fs.files w \/ Fs.files w' = delete temp (Fs.files w)) /\
    Fs.trace w'
    = Fs.trace w ++ Fs.EvLog (Py.lit "error") :: Fs.EvExists temp :: tail.
Proof.
  intros Hn Htemp. unfold Persist.atomic_write. rewrite Htemp.
  replace (Z.to_nat max_retries) with O by lia. cbn [Persist.attempt_loop].
  unfold Fs.bind at 1, Fs.ret at 1. cbv beta iota.
  unfold Persist.fail_after_loop, Fs.log.
  unfold Fs.bind at 1, Fs.emit at 1. cbv beta iota.
  change {| Fs.files := Fs.files w; Fs.dirs := Fs.dirs w;
            Fs.faults := Fs.faults w;
            Fs.trace := Fs.trace w ++ [Fs.EvLog (Py.lit "error")];
            Fs.snapshots := Fs.snapshots w |}
    with (Spec.traced w [Fs.EvLog (Py.lit "error")]).
  unfold Fs.bind at 1.
  destruct (Fs.path_exists temp _) as [w1 [found|e]] eqn:E1;
    destruct (path_exists_effect _ _ _ _ E1) as (F1 & D1 & T1);
    cbn [Spec.traced Fs.files Fs.dirs Fs.trace] in F1, D1, T1.
  - destruct found.
    + destruct (unlink_quietly_effect temp w1 (path_exists_true _ _ _ E1))
        as (w2 & E2 & F2 & D2 & T2).
      unfold Fs.bind at 1. rewrite E2. unfold Fs.raise.
      cbn [Persist.error_to_raise].
      eexists w2, _, _. split; [reflexivity|]. split; [split; reflexivity|].
      split; [congruence|]. split.
      * destruct F2 as [F2 | F2]; [left | right]; congruence.
      * rewrite T2, T1, <- !app_assoc. reflexivity.
    + unfold Fs.bind at 1, Fs.ret at 1, Fs.raise. cbn [Persist.error_to_raise].
      eexists w1, _, _. split; [reflexivity|]. split; [split; reflexivity|].
      split; [exact D1|]. split; [now left|].
      rewrite T1, <- !app_assoc. reflexivity.
  - eexists w1, _, _. split; [reflexivity|]. split; [split; reflexivity|].
    split; [exact D1|]. split; [now left|].
    rewrite T1, <- !app_assoc. reflexivity.
Qed.

Lemma atomic_write_without_attempts_witness :
  let target := Spec.cache_file "a.parquet" in
  let temp := Spec.cache_file "a.tmp" in
  let w := Persist.boot {[ target := Py.lit "old"; temp := Py.lit "stale" ]} ∅ [] in
  exists w' e tail,
    Persist.atomic_write target (Persist.PBytes (Py.lit "new")) 0 w
    = (w', Py.Raise e) /\
    match Fs.path_exists temp (Spec.traced w [Fs.EvLog (Py.lit "error")]) with
    | (_, Py.Raise e') => e = e' /\ tail = []
    | (_, Py.Return found) =>
        e = Py.Exn Py.RuntimeError
              (Py.lit "Failed to write " ++ Pathlib.path_str target) /\
        tail = if found then [Fs.EvUnlink temp] else []
    end /\
    Fs.dirs w' = Fs.dirs w /\
    (Fs.files w' = Fs.files w \/ Fs.files w' = delete temp (Fs.files w)) /\
    Fs.trace w'
    = Fs.trace w ++ Fs.EvLog (Py.lit "error") :: Fs.EvExists temp :: tail.
Proof.
  cbv zeta.
  refine (atomic_write_without_attempts
            (Spec.cache_file "a.parquet") (Spec.cache_file "a.tmp")
            (Persist.PBytes (Py.lit "new")) 0
            (Persist.boot {[ Spec.cache_file "a.parquet" := Py.lit "old";
                             Spec.cache_file "a.tmp" := Py.lit "stale" ]} ∅ [])
            _ _).
  - lia.
  - reflexivity.
Defined.

(** With no attempt allowed and a staging name that is too long for the
    file system, the call raises the probe's [OSError], not the
    [RuntimeError]. *)
Example no_attempt_and_failing_probe :
  let target := [List.repeat 97 252] in
  let staging := [List.repeat 97 252 ++ Py.lit ".tmp"] in
  let run := Persist.atomic_write target (Persist.PBytes (Py.lit "new")) 0
               (Persist.boot ∅ ∅ [Spec.name_too_long staging]) in
  Persist.temp_path_of target = Py.Return staging /\
  snd run = Py.Raise (Py.Exn (Py.OS Py.OSError)
                        (Py.lit "[Errno 36] File name too long: '" ++
                         List.repeat 97 252 ++ Py.lit ".tmp'")).
Proof. cbv zeta. split; vm_compute; reflexivity. Qed.

(** X15. The classes of the errors a call can raise. A [ValueError] comes
    from a path without a name, rejected before anything is touched, or
    from a file name with a NUL; a [UnicodeEncodeError] from a file name
    or a text payload that cannot be encoded; a [RuntimeError] is the
    function's own and is raised only when [max_retries <= 0]; every
    other error is an [OSError] of one of the system calls, on a path
    with a name. *)
Theorem atomic_write_error_classes
    (path : Pathlib.Path) (content : Persist.payload) (max_retries : Z)
    (w w' : Fs.World) (e : Py.exn) :
  Persist.atomic_write path content max_retries w = (w', Py.Raise e) ->
  match Py.exn_cls e with
  | Py.OS _ => Pathlib.name path <> []
  | Py.ValueError =>
      (Pathlib.name path = [] /\ w' = w) \/
      (Pathlib.name path <> [] /\ Fs.refused path <> None)
  | Py.UnicodeEncodeError =>
      Pathlib.name path <> [] /\
      (Fs.refused path <> None \/
       exists s e0, content = Persist.PStr s /\ Py.encode s = Py.Raise e0)
  | Py.RuntimeError =>
      Pathlib.name path <> [] /\ (max_retries <= 0)%Z /\
      e = Py.Exn Py.RuntimeError
            (Py.lit "Failed to write " ++ Pathlib.path_str path)
  | _ => False
  end.
Proof.
  intros H. destruct (decide (Pathlib.name path = [])) as [Hn|Hn].
  - unfold Persist.atomic_write in H.
    rewrite (nameless_path_rejected _ Hn) in H. injection H as <- <-.
    cbn [Py.exn_cls]. now left.
  - destruct (named_path_stages _ Hn) as (temp & Htemp).
    assert (Hcases :
      Py.is_oserror e = true \/
      ((Py.exn_cls e = Py.UnicodeEncodeError \/ Py.exn_cls e = Py.ValueError) /\
       Fs.refused path <> None) \/
      (Py.exn_cls e = Py.UnicodeEncodeError /\
       exists s e0, content = Persist.PStr s /\ Py.encode s = Py.Raise e0) \/
      ((max_retries <= 0)%Z /\
       e = Py.Exn Py.RuntimeError
             (Py.lit "Failed to write " ++ Pathlib.path_str path))).
    { unfold Persist.atomic_write in H. rewrite Htemp in H.
      unfold Fs.bind at 1 in H.
      destruct (Persist.attempt_loop _ _ _ _ _ _ _ _ w) as [w1 r1] eqn:El.
      apply attempt_loop_exit in El as (ex & -> & Hex); [|discriminate].
      destruct ex as [|last]; [discriminate|].
      apply fail_after_loop_error in H as (e1 & [= <-] & [-> | Hos]);
        [|now left].
      destruct last as [e1|].
      - cbn [Persist.error_to_raise].
        destruct Hex as [Hos | [Href | (s & -> & Hs)]].
        + now left.
        + right. left.
          assert (Hr : exists p, Fs.refused p = Some e1 /\
                         (p = Pathlib.parent path \/ p = temp \/ p = path)).
          { destruct Href as [Hr | [Hr | Hr]]; eexists; split; eauto. }
          destruct Hr as (p & Hr & Hp). split; [exact (refused_class _ _ Hr)|].
          intros Hnone.
          destruct (staging_names_accepted _ _ Htemp Hnone) as [Hrp Hrt].
          destruct Hp as [-> | [-> | ->]]; congruence.
        + right. right. left. split; [exact (encode_error_class _ _ Hs)|].
          now exists s, e1.
      - right. right. right. destruct Hex as [_ Hk]. split; [lia | reflexivity]. }
    destruct Hcases as [Hos | [[Hcls Href] | [[Hcls Hpay] | [Hle ->]]]].
    + destruct (oserror_class _ Hos) as (c & ->). exact Hn.
    + destruct Hcls as [-> | ->]; [split; [exact Hn | now left]|].
      right. now split.
    + rewrite Hcls. split; [exact Hn | now right].
    + cbn [Py.exn_cls]. now repeat split.
Qed.

Lemma atomic_write_error_classes_witness :
  let target := [Py.lit "cache"; Py.lit "a" ++ [0] ++ Py.lit ".parquet"] in
  let w := Persist.boot ∅ ∅ [] in
  exists w',
    Persist.atomic_write target (Persist.PBytes (Py.lit "new")) 3 w
    = (w', Py.Raise (Py.Exn Py.ValueError (Py.lit "embedded null byte"))) /\
    ((Pathlib.name target = [] /\ w' = w) \/
     (Pathlib.name target <> [] /\ Fs.refused target <> None)).
Proof.
  cbv zeta. eexists. split; [vm_compute; reflexivity|].
  refine (atomic_write_error_classes
            [Py.lit "cache"; Py.lit "a" ++ [0] ++ Py.lit ".parquet"]
            (Persist.PBytes (Py.lit "new")) 3 (Persist.boot ∅ ∅ []) _
            (Py.Exn Py.ValueError (Py.lit "embedded null byte")) _).
  vm_compute. reflexivity.
Defined.

(** X16. Text that cannot be encoded. Whatever the environment does, a
    call whose payload is text with a code point that UTF-8 cannot encode
    never returns: every such call raises. *)
Theorem atomic_write_unencodable_text_never_returns
    (path : Pathlib.Path) (s : Py.str) (e0 : Py.exn) (max_retries : Z)
    (w : Fs.World) :
  Py.encode s = Py.Raise e0 ->
  exists e,
    snd (Persist.atomic_write path (Persist.PStr s) max_retries w) = Py.Raise e.
Proof.
  intros Hs. unfold Persist.atomic_write.
  destruct (Persist.temp_path_of path) as [temp|e]; [|now exists e].
  unfold Fs.bind at 1.
  destruct (Persist.attempt_loop _ _ _ _ _ _ _ _ w) as [w1 r1] eqn:El.
  destruct (attempt_loop_exit _ _ _ _ _ _ _ _ _ _ _ El) as (ex & -> & _);
    [discriminate|].
  destruct ex as [|last];
    [now apply (attempt_loop_unencodable _ _ _ _ _ _ _ Hs) in El|].
  destruct (Persist.fail_after_loop path temp last w1) as [w2 r2] eqn:Ef.
  apply fail_after_loop_raises in Ef as [(e & -> & _) _]. now eexists.
Qed.

Lemma atomic_write_unencodable_witness :
  exists e,
    snd (Persist.atomic_write (Spec.cache_file "a.json")
           (Persist.PStr (Py.lit "x" ++ [0xDC80])) 3
           (Persist.boot {[ Spec.cache_file "a.json" := Py.lit "old" ]} ∅ []))
    = Py.Raise e.
Proof.
  refine (atomic_write_unencodable_text_never_returns
            (Spec.cache_file "a.json") (Py.lit "x" ++ [0xDC80])
            Py.encode_error 3
            (Persist.boot {[ Spec.cache_file "a.json" := Py.lit "old" ]} ∅ []) _).
  reflexivity.
Defined.

(** X17. What the clean-up can do to the error. A failed call on a named
    path raises the error its loop handed on (the last one bound there,
    or the function's own [RuntimeError] when none was), whatever the
    removal of the staging file does, even when that removal fails; the
    one exception is the probe for the staging file, whose error, when it
    raises, reaches the caller in its place. *)
Theorem surfaced_error_unless_probe_fails
    (path temp : Pathlib.Path) (content : Persist.payload) (max_retries : Z)
    (fs : gmap Pathlib.Path Py.bytes) (ds : gset Pathlib.Path)
    (script : list Fs.fault) (w1 w' : Fs.World)
    (last : option Py.exn) (e : Py.exn) :
  Persist.temp_path_of path = Py.Return temp ->
  Persist.attempt_loop path temp (Persist.mode_of content) content max_retries
                       (Z.to_nat max_retries) 0 None (Persist.boot fs ds script)
  = (w1, Py.Return (Persist.FellThrough last)) ->
  Persist.atomic_write path content max_retries (Persist.boot fs ds script)
  = (w', Py.Raise e) ->
  last = List.head (rev (Persist.caught (Fs.trace w1))) /\
  Persist.caught (Fs.trace w') = Persist.caught (Fs.trace w1) /\
  match Fs.path_exists temp (Spec.traced w1 [Fs.EvLog (Py.lit "error")]) with
  | (_, Py.Raise e') => e = e'
  | (_, Py.Return _) => e = Persist.error_to_raise path last
  end.
Proof.
  intros Ht El Hrun.
  unfold Persist.atomic_write in Hrun. rewrite Ht in Hrun.
  unfold Fs.bind at 1 in Hrun. rewrite El in Hrun.
  destruct (attempt_loop_marks _ _ _ _ _ _ _ _ _ _ _ El)
    as (ex & evs & [= <-] & T & L & _).
  cbn [Fs.trace Persist.boot app] in T.
  apply fail_after_loop_raises in Hrun as ((e1 & [= <-] & He) & tail & T' & Mt).
  split; [|split].
  - pose proof (loop_marks_last _ _ _ _ _ _ _ L) as Hl. cbv beta iota in Hl.
    rewrite caught_marks in Hl. rewrite T, Hl.
    now destruct (rev (Persist.caught evs)).
  - rewrite <- (caught_marks (Fs.trace w')), T', marks_app, Mt, app_nil_r.
    apply caught_marks.
  - exact He.
Qed.

Lemma surfaced_error_witness :
  let target := Spec.cache_file "a.parquet" in
  let w := Persist.boot ∅ ∅ [Fs.NoFault; Fs.NoFault; Fs.NoFault;
                             Spec.disk_full_after 2; Fs.NoFault;
                             Spec.permission_denied] in
  let seen := Py.Exn (Py.OS Py.OSError)
                (Py.lit "[Errno 28] No space left on device") in
  exists w1 w',
    Persist.attempt_loop target (Spec.cache_file "a.tmp") (Py.lit "wb")
      (Persist.PBytes (Py.lit "new")) 1 1 0 None w
    = (w1, Py.Return (Persist.FellThrough (Some seen))) /\
    Persist.atomic_write target (Persist.PBytes (Py.lit "new")) 1 w
    = (w', Py.Raise seen) /\
    Fs.files w' !! Spec.cache_file "a.tmp" = Some (Py.lit "ne") /\
    Some seen = List.head (rev (Persist.caught (Fs.trace w1))) /\
    Persist.caught (Fs.trace w') = Persist.caught (Fs.trace w1) /\
    match Fs.path_exists (Spec.cache_file "a.tmp")
            (Spec.traced w1 [Fs.EvLog (Py.lit "error")]) with
    | (_, Py.Raise e') => seen = e'
    | (_, Py.Return _) => seen = Persist.error_to_raise target (Some seen)
    end.
Proof.
  cbv zeta. eexists _, _.
  split; [vm_compute; reflexivity|].
  split; [vm_compute; reflexivity|].
  split; [vm_compute; reflexivity|].
  refine (surfaced_error_unless_probe_fails
            (Spec.cache_file "a.parquet") (Spec.cache_file "a.tmp")
            (Persist.PBytes (Py.lit "new")) 1 ∅ ∅
            [Fs.NoFault; Fs.NoFault; Fs.NoFault; Spec.disk_full_after 2;
             Fs.NoFault; Spec.permission_denied]
            _ _ _ _ _ _ _).
  - reflexivity.
  - vm_compute. reflexivity.
  - vm_compute. reflexivity.
Defined.
